(** * A linked-list queue of C strings (queue.c): model and properties

    The queue of queue.c is a [queue_t] record (head pointer, tail pointer,
    element count) over a chain of [list_ele_t] nodes, each holding a
    private copy of a C string and a [next] link.  The functions rewire
    links in place, so the model keeps the pointer structure: memory is a
    pair of finite maps from addresses to records, a pointer is an
    [option] of an address ([None] is [NULL]), and every function of the
    source is a computation in a state-and-error monad over that memory.
    Dereferencing a pointer that is [NULL] or not allocated, and writing
    outside a caller's buffer, is a [Fault]; a [while] loop or the
    recursion of [merge_sort] is driven by a [nat] of fuel, and running
    out of it is [OutOfFuel].  The functions of the C library that queue.c
    calls ([strlen], [strcasecmp], [strncpy], [memcpy], [malloc], [free])
    are modelled after the C standard, in the C locale. *)

From Stdlib Require Import ZArith Lia List Ascii String.
From Stdlib Require Import Sorting.Permutation Sorting.Sorted.
From stdpp Require Import base option list sorting gmap.

Local Open Scope Z_scope.

(** ** C strings *)

(** A C string is written as the list of its characters; the terminating
    NUL is the end of the list.  A NUL inside the list ends the string
    early, as it would in memory. *)

Definition NUL : ascii := Ascii.zero.

Definition code (c : ascii) : Z := Z.of_N (N_of_ascii c).

Definition is_NUL (c : ascii) : bool := code c =? 0.

(** The characters before the first NUL. *)
Fixpoint cstring (s : list ascii) : list ascii :=
  match s with
  | [] => []
  | c :: t => if is_NUL c then [] else c :: cstring t
  end.

Definition strlen (s : list ascii) : Z := Z.of_nat (length (cstring s)).

(** [tolower] of the C locale, on character codes. *)
Definition tolower (c : ascii) : Z :=
  let n := code c in
  if (65 <=? n) && (n <=? 90) then n + 32 else n.

(** The lowered character a [char *] points at: 0 at the terminator. *)
Definition lc (s : list ascii) : Z :=
  match s with
  | [] => 0
  | c :: _ => tolower c
  end.

(** [strcasecmp]: walk both strings while the lowered characters agree and
    the first is not NUL; return the difference of the last pair read. *)
Fixpoint strcasecmp (s1 s2 : list ascii) : Z :=
  match s1 with
  | [] => 0 - lc s2
  | c :: t1 =>
      let c1 := tolower c in
      let c2 := lc s2 in
      if (c1 =? 0) || negb (c1 =? c2) then c1 - c2
      else strcasecmp t1 (tl s2)
  end.

(** [size_t] is 64 bits wide; subtraction wraps around. *)
Definition SIZE_MOD : Z := 2 ^ 64.

Definition size_sub (a b : Z) : Z := (a - b) mod SIZE_MOD.

(** [strncpy (sp, v, n)] followed by [sp[n] = '\0'] on a buffer whose
    contents are [buf]: bytes [0 .. n-1] receive the string and NUL
    padding, byte [n] receives NUL, the bytes after it are kept.  The
    writes must lie inside the buffer. *)
Definition strncpy_bytes (v : list ascii) (n : nat) : list ascii :=
  take n (cstring v) ++ replicate (n - length (cstring v))%nat NUL.

Definition copy_out (buf v : list ascii) (bufsize : Z) : option (list ascii) :=
  let n := size_sub bufsize 1 in
  if n <? Z.of_nat (length buf)
  then Some (strncpy_bytes v (Z.to_nat n) ++ NUL :: drop (S (Z.to_nat n)) buf)
  else None.

(** ** Memory *)

Abbreviation addr := positive (only parsing).

(** A pointer; [None] is [NULL]. *)
Abbreviation ptr := (option positive) (only parsing).

Definition ptr_eqb (p q : ptr) : bool := bool_decide (p = q).

(** Modelled from the spec: queue.h, which declares [list_ele_t], is not
    part of the sources; the spec gives a node an owned payload and a
    single forward link, and queue.c uses them as [value] and [next].  The
    string is kept in the node: the source gives every node its own copy
    and never shares it. *)
Record list_ele_t := mk_ele {
  value : list ascii;
  next : ptr
}.

(** Modelled from the spec: queue.h, which declares [queue_t], is not part
    of the sources; the spec gives the queue a head reference, a tail
    reference and a count of nodes.  The count is an integer. *)
Record queue_t := mk_queue {
  head : ptr;
  tail : ptr;
  size : Z
}.

(** The queue structures and the list elements that are allocated, and the
    outcomes of the [malloc] calls still to come ([true]: the call
    succeeds; the empty list: memory is exhausted). *)
Record mem := mk_mem {
  queues : gmap positive queue_t;
  nodes : gmap positive list_ele_t;
  oracle : list bool
}.

Definition with_nodes (m : mem) (h : gmap positive list_ele_t) : mem :=
  {| queues := queues m; nodes := h; oracle := oracle m |}.

Definition with_queues (m : mem) (qs : gmap positive queue_t) : mem :=
  {| queues := qs; nodes := nodes m; oracle := oracle m |}.

Definition with_oracle (m : mem) (o : list bool) : mem :=
  {| queues := queues m; nodes := nodes m; oracle := o |}.

(** ** The monad *)

Inductive result (A : Type) : Type :=
  | Ok (a : A)
  | Fault
  | OutOfFuel.

Arguments Ok {A} a.
Arguments Fault {A}.
Arguments OutOfFuel {A}.

Definition M (A : Type) : Type := mem -> result (A * mem).

Definition ret {A} (a : A) : M A := fun m => Ok (a, m).

Definition bind {A B} (c : M A) (k : A -> M B) : M B :=
  fun m =>
    match c m with
    | Ok (a, m') => k a m'
    | Fault => Fault
    | OutOfFuel => OutOfFuel
    end.

Definition fault {A} : M A := fun _ => Fault.

Definition timeout {A} : M A := fun _ => OutOfFuel.

Declare Scope queue_scope.
Delimit Scope queue_scope with queue.

Notation "x <- c ;; k" := (bind c (fun x => k))
  (at level 100, c at next level, right associativity) : queue_scope.
Notation "c ;;; k" := (bind c (fun _ => k))
  (at level 100, right associativity) : queue_scope.

Local Open Scope queue_scope.

(** *** Loads and stores *)

Definition load_ele (p : ptr) : M list_ele_t :=
  fun m =>
    match p with
    | None => Fault
    | Some a =>
        match nodes m !! a with
        | Some e => Ok (e, m)
        | None => Fault
        end
    end.

Definition store_ele (p : ptr) (f : list_ele_t -> list_ele_t) : M unit :=
  fun m =>
    match p with
    | None => Fault
    | Some a =>
        match nodes m !! a with
        | Some e => Ok (tt, with_nodes m (<[a := f e]> (nodes m)))
        | None => Fault
        end
    end.

Definition load_queue (q : ptr) : M queue_t :=
  fun m =>
    match q with
    | None => Fault
    | Some a =>
        match queues m !! a with
        | Some s => Ok (s, m)
        | None => Fault
        end
    end.

Definition store_queue (q : ptr) (f : queue_t -> queue_t) : M unit :=
  fun m =>
    match q with
    | None => Fault
    | Some a =>
        match queues m !! a with
        | Some s => Ok (tt, with_queues m (<[a := f s]> (queues m)))
        | None => Fault
        end
    end.

(** [p->next], [p->value] and the assignments to them. *)
Definition get_next (p : ptr) : M ptr := e <- load_ele p ;; ret (next e).
Definition get_value (p : ptr) : M (list ascii) := e <- load_ele p ;; ret (value e).
Definition set_next (p v : ptr) : M unit :=
  store_ele p (fun e => {| value := value e; next := v |}).
Definition set_value (p : ptr) (v : list ascii) : M unit :=
  store_ele p (fun e => {| value := v; next := next e |}).

(** [q->head], [q->tail], [q->size] and the assignments to them. *)
Definition get_head (q : ptr) : M ptr := s <- load_queue q ;; ret (head s).
Definition get_tail (q : ptr) : M ptr := s <- load_queue q ;; ret (tail s).
Definition get_size (q : ptr) : M Z := s <- load_queue q ;; ret (size s).
Definition set_head (q v : ptr) : M unit :=
  store_queue q (fun s => {| head := v; tail := tail s; size := size s |}).
Definition set_tail (q v : ptr) : M unit :=
  store_queue q (fun s => {| head := head s; tail := v; size := size s |}).
Definition set_size (q : ptr) (v : Z) : M unit :=
  store_queue q (fun s => {| head := head s; tail := tail s; size := v |}).

(** *** Allocation *)

(** The next [malloc] outcome. *)
Definition next_malloc : M bool :=
  fun m =>
    match oracle m with
    | [] => Ok (false, m)
    | b :: o => Ok (b, with_oracle m o)
    end.

(** [malloc(sizeof(queue_t))]: an address that is not allocated, its
    fields not yet written; [NULL] when the call fails. *)
Definition malloc_queue : M ptr :=
  ok <- next_malloc ;;
  if ok
  then fun m =>
         let a := fresh (dom (queues m)) in
         Ok (Some a, with_queues m (<[a := mk_queue None None 0]> (queues m)))
  else ret None.

(** [malloc(sizeof(list_ele_t))]. *)
Definition malloc_ele : M ptr :=
  ok <- next_malloc ;;
  if ok
  then fun m =>
         let a := fresh (dom (nodes m)) in
         Ok (Some a, with_nodes m (<[a := mk_ele [] None]> (nodes m)))
  else ret None.

(** [malloc(n)] for a node's string; the bytes live in the node. *)
Definition malloc_bytes (n : Z) : M bool := next_malloc.

(** [free] of a list element together with its string, and of a queue
    structure. *)
Definition free_ele (p : ptr) : M unit :=
  fun m =>
    match p with
    | None => Ok (tt, m)
    | Some a =>
        match nodes m !! a with
        | Some _ => Ok (tt, with_nodes m (delete a (nodes m)))
        | None => Fault
        end
    end.

Definition free_queue (q : ptr) : M unit :=
  fun m =>
    match q with
    | None => Ok (tt, m)
    | Some a =>
        match queues m !! a with
        | Some _ => Ok (tt, with_queues m (delete a (queues m)))
        | None => Fault
        end
    end.

(** ** The functions of queue.c *)

(** [q_new]: an empty queue, or [NULL] when [malloc] fails. *)
Definition q_new : M ptr :=
  q <- malloc_queue ;;
  match q with
  | None => ret None
  | Some _ =>
      set_head q None ;;;
      set_tail q None ;;;
      set_size q 0 ;;;
      ret q
  end.

(** The loop of [q_free]: [while (cur) { node = cur; cur = cur->next;
    free(node->value); free(node); }]. *)
Fixpoint free_loop (fuel : nat) (cur : ptr) : M unit :=
  match cur with
  | None => ret tt
  | Some _ =>
      match fuel with
      | O => timeout
      | S f =>
          nx <- get_next cur ;;
          free_ele cur ;;;
          free_loop f nx
      end
  end.

Definition q_free (fuel : nat) (q : ptr) : M unit :=
  match q with
  | None => ret tt
  | Some _ =>
      cur <- get_head q ;;
      free_loop fuel cur ;;;
      free_queue q
  end.

(** [q_allocate_node]: [NULL] for a [NULL] or empty string and when either
    [malloc] fails; otherwise a new node holding a copy of [s] up to and
    including its terminator, with [next] set to [NULL].  [strlen (s) + 1]
    is the size of the array holding [s], so it does not wrap. *)
Definition q_allocate_node (s : option (list ascii)) : M ptr :=
  match s with
  | None => ret None
  | Some str =>
      let s_len := strlen str + 1 in
      if s_len =? 1 then ret None
      else
        node <- malloc_ele ;;
        match node with
        | None => ret None
        | Some _ =>
            set_next node None ;;;
            ok <- malloc_bytes s_len ;;
            if ok
            then set_value node (cstring str) ;;; ret node
            else free_ele node ;;; ret None
        end
  end.

Definition q_insert_head (q : ptr) (s : option (list ascii)) : M bool :=
  match q with
  | None => ret false
  | Some _ =>
      node <- q_allocate_node s ;;
      match node with
      | None => ret false
      | Some _ =>
          h <- get_head q ;;
          set_next node h ;;;
          set_head q node ;;;
          t <- get_tail q ;;
          (match t with
           | None => set_tail q node
           | Some _ => ret tt
           end) ;;;
          n <- get_size q ;;
          set_size q (n + 1) ;;;
          ret true
      end
  end.

Definition q_insert_tail (q : ptr) (s : option (list ascii)) : M bool :=
  match q with
  | None => ret false
  | Some _ =>
      node <- q_allocate_node s ;;
      match node with
      | None => ret false
      | Some _ =>
          h <- get_head q ;;
          (match h with
           | None => set_head q node
           | Some _ => ret tt
           end) ;;;
          t <- get_tail q ;;
          (match t with
           | Some _ => set_next t node
           | None => ret tt
           end) ;;;
          set_tail q node ;;;
          n <- get_size q ;;
          set_size q (n + 1) ;;;
          ret true
      end
  end.

(** [q_remove_head (q, sp, bufsize)].  [sp] is the caller's buffer, given
    by its contents ([None] for [NULL]); the buffer after the call is
    returned with the result. *)
Definition q_remove_head (q : ptr) (sp : option (list ascii)) (bufsize : Z)
  : M (bool * option (list ascii)) :=
  match q with
  | None => ret (false, sp)
  | Some _ =>
      h <- get_head q ;;
      match h with
      | None => ret (false, sp)
      | Some _ =>
          hn <- get_next h ;;
          set_head q hn ;;;
          t <- get_tail q ;;
          (if ptr_eqb t h then set_tail q None else ret tt) ;;;
          sp' <- match sp with
                 | None => ret None
                 | Some buf =>
                     v <- get_value h ;;
                     match copy_out buf v bufsize with
                     | Some buf' => ret (Some buf')
                     | None => fault
                     end
                 end ;;
          free_ele h ;;;
          n <- get_size q ;;
          set_size q (n - 1) ;;;
          ret (true, sp')
      end
  end.

(** [int q_size (queue_t *q)] returns the count kept in the structure as
    an [int].  [int] is 32 bits wide: a count above [INT_MAX] comes out
    wrapped around. *)
Definition INT_MAX : Z := 2 ^ 31 - 1.

Definition to_int (z : Z) : Z := (z + 2 ^ 31) mod 2 ^ 32 - 2 ^ 31.

Definition q_size (q : ptr) : M Z :=
  match q with
  | None => ret 0
  | Some _ => n <- get_size q ;; ret (to_int n)
  end.

(** The loop of [q_reverse]: [while (cur) { next = cur->next;
    cur->next = prev; prev = cur; cur = next; }]; the value of [prev] at
    the exit is returned. *)
Fixpoint reverse_loop (fuel : nat) (prev cur : ptr) : M ptr :=
  match cur with
  | None => ret prev
  | Some _ =>
      match fuel with
      | O => timeout
      | S f =>
          nx <- get_next cur ;;
          set_next cur prev ;;;
          reverse_loop f cur nx
      end
  end.

Definition q_reverse (fuel : nat) (q : ptr) : M unit :=
  match q with
  | None => ret tt
  | Some _ =>
      h <- get_head q ;;
      match h with
      | None => ret tt
      | Some _ =>
          set_tail q h ;;;
          prev <- reverse_loop fuel None h ;;
          set_head q prev
      end
  end.

(** The loop of [merge]: [while (left && right) { ... cur = cur->next; }];
    the values of [cur], [left] and [right] at the exit are returned. *)
Fixpoint merge_loop (fuel : nat) (cur left right : ptr) : M (ptr * ptr * ptr) :=
  match left, right with
  | Some _, Some _ =>
      match fuel with
      | O => timeout
      | S f =>
          lv <- get_value left ;;
          rv <- get_value right ;;
          if strcasecmp lv rv <? 1
          then
            set_next cur left ;;;
            ln <- get_next left ;;
            cur' <- get_next cur ;;
            merge_loop f cur' ln right
          else
            set_next cur right ;;;
            rn <- get_next right ;;
            cur' <- get_next cur ;;
            merge_loop f cur' left rn
      end
  | _, _ => ret (cur, left, right)
  end.

(** What [merge] does from its loop on: the loop, then the remainder of
    the list that still has nodes is linked after [cur]. *)
Definition merge_rest (fuel : nat) (cur left right : ptr) : M unit :=
  st <- merge_loop fuel cur left right ;;
  let '(cur', left', right') := st in
  (match left' with
   | Some _ => set_next cur' left'
   | None => ret tt
   end) ;;;
  (match right' with
   | Some _ => set_next cur' right'
   | None => ret tt
   end).

Definition merge (fuel : nat) (left right : ptr) : M ptr :=
  match left, right with
  | None, _ => ret right
  | Some _, None => ret left
  | Some _, Some _ =>
      lv <- get_value left ;;
      rv <- get_value right ;;
      if strcasecmp lv rv <? 1
      then
        ln <- get_next left ;;
        merge_rest fuel left ln right ;;;
        ret left
      else
        rn <- get_next right ;;
        merge_rest fuel right left rn ;;;
        ret right
  end.

(** The loop of [merge_sort]: [while (fast && fast->next) { fast =
    fast->next->next; slow = slow->next; }]; the value of [slow] at the
    exit is returned. *)
Fixpoint split_loop (fuel : nat) (fast slow : ptr) : M ptr :=
  match fast with
  | None => ret slow
  | Some _ =>
      fn <- get_next fast ;;
      match fn with
      | None => ret slow
      | Some _ =>
          match fuel with
          | O => timeout
          | S f =>
              fnn <- get_next fn ;;
              sn <- get_next slow ;;
              split_loop f fnn sn
          end
      end
  end.

Fixpoint merge_sort (fuel : nat) (hd : ptr) : M ptr :=
  match hd with
  | None => ret hd
  | Some _ =>
      hn <- get_next hd ;;
      match hn with
      | None => ret hd
      | Some _ =>
          match fuel with
          | O => timeout
          | S f =>
              slow <- split_loop f hn hd ;;
              right0 <- get_next slow ;;
              set_next slow None ;;;
              left1 <- merge_sort f hd ;;
              right1 <- merge_sort f right0 ;;
              merge f left1 right1
          end
      end
  end.

(** The loop of [q_sort]: [while (q->tail && q->tail->next) q->tail =
    q->tail->next;]. *)
Fixpoint tail_loop (fuel : nat) (q : ptr) : M unit :=
  t <- get_tail q ;;
  match t with
  | None => ret tt
  | Some _ =>
      tn <- get_next t ;;
      match tn with
      | None => ret tt
      | Some _ =>
          match fuel with
          | O => timeout
          | S f => set_tail q tn ;;; tail_loop f q
          end
      end
  end.

Definition q_sort (fuel : nat) (q : ptr) : M unit :=
  match q with
  | None => ret tt
  | Some _ =>
      h <- get_head q ;;
      match h with
      | None => ret tt
      | Some _ =>
          t <- get_tail q ;;
          if ptr_eqb h t then ret tt
          else
            h' <- merge_sort fuel h ;;
            set_head q h' ;;;
            h'' <- get_head q ;;
            set_tail q h'' ;;;
            tail_loop fuel q
      end
  end.

(** ** Describing a queue in memory *)

(** [chain h p l]: following [next] from [p] visits exactly the nodes [l],
    all allocated in [h], and then reaches [NULL]. *)
Fixpoint chain (h : gmap positive list_ele_t) (p : ptr) (l : list addr) : Prop :=
  match l with
  | [] => p = None
  | a :: l' => p = Some a /\ exists e, h !! a = Some e /\ chain h (next e) l'
  end.

(** The pointer reached after following [next] [n] times from [p]. *)
Fixpoint walk (h : gmap positive list_ele_t) (n : nat) (p : ptr) : option ptr :=
  match n with
  | O => Some p
  | S k =>
      match p with
      | None => None
      | Some a =>
          match h !! a with
          | Some e => walk h k (next e)
          | None => None
          end
      end
  end.

(** The payload of the node at [a]. *)
Definition val (h : gmap positive list_ele_t) (a : addr) : list ascii :=
  match h !! a with
  | Some e => value e
  | None => []
  end.

Definition payloads (m : mem) (l : list addr) : list (list ascii) :=
  map (val (nodes m)) l.

(** Traversal of the queue at [qa] from its head visits the nodes [l]. *)
Definition traversal (m : mem) (qa : addr) (l : list addr) : Prop :=
  exists qs, queues m !! qa = Some qs /\ chain (nodes m) (head qs) l.

(** The structural invariants of section 3 of the specification, on a
    queue structure [qs] over the nodes [h]: the size is a count; it is
    zero iff the head is [NULL] iff the tail is [NULL]; a queue of size one
    has its head as tail; [size - 1] links lead from the head to the tail,
    whose [next] is [NULL]; and the links from the head form a finite
    chain that visits no node twice. *)
Record queue_wf (h : gmap positive list_ele_t) (qs : queue_t) : Prop := mk_wf {
  wf_count : 0 <= size qs;
  wf_size_head : size qs = 0 <-> head qs = None;
  wf_head_tail : head qs = None <-> tail qs = None;
  wf_single : size qs = 1 -> head qs = tail qs;
  wf_reach : head qs <> None ->
    walk h (Z.to_nat (size qs - 1)) (head qs) = Some (tail qs);
  wf_last : forall t, tail qs = Some t ->
    exists e, h !! t = Some e /\ next e = None;
  wf_simple : exists l, chain h (head qs) l /\ NoDup l
}.

(** The queue allocated at [qa] satisfies the invariants. *)
Definition queue_inv (m : mem) (qa : addr) : Prop :=
  exists qs, queues m !! qa = Some qs /\ queue_wf (nodes m) qs.

(** The same, through the list of nodes: the queue at [qa] holds the nodes
    [l] in this order. *)
Definition repr (m : mem) (qa : addr) (l : list addr) : Prop :=
  exists qs,
    queues m !! qa = Some qs /\
    chain (nodes m) (head qs) l /\
    tail qs = last l /\
    size qs = Z.of_nat (length l).

(** Two node maps hold the same payloads at the same addresses. *)
Definition same_values (h h' : gmap positive list_ele_t) : Prop :=
  forall a, value <$> h' !! a = value <$> h !! a.

(** ** The order of the sort *)

(** [s1] is not greater than [s2]: the test [strcasecmp (s1, s2) < 1] of
    [merge]. *)
Definition str_le (s1 s2 : list ascii) : bool := strcasecmp s1 s2 <? 1.

(** [s1] does not come after [s2] in the case-insensitive order. *)
Definition ci_le (s1 s2 : list ascii) : Prop := strcasecmp s1 s2 <= 0.

(** [s1] and [s2] compare equal. *)
Definition str_eq (s1 s2 : list ascii) : bool := strcasecmp s1 s2 =? 0.

(** ** Merge sort on the list of nodes

    What [merge] and [merge_sort] compute, on the list of nodes of a chain
    and an order [leb] on nodes. *)

Section ListSort.
Context {A : Type} (leb : A -> A -> bool).

Fixpoint mergeL (l1 : list A) : list A -> list A :=
  fix go (l2 : list A) : list A :=
    match l1, l2 with
    | [], _ => l2
    | _, [] => l1
    | a :: l1', b :: l2' =>
        if leb a b then a :: mergeL l1' l2 else b :: go l2'
    end.

(** The left part has the first [S (div2 (length l - 1))] nodes: where
    the slow pointer stands when the fast one, two links per step and
    one node ahead, runs out. *)
Definition left_length (l : list A) : nat := S (Nat.div2 (length (tl l))).

Fixpoint msortL (fuel : nat) (l : list A) : list A :=
  match l with
  | [] | [_] => l
  | _ =>
      match fuel with
      | O => l
      | S f =>
          mergeL (msortL f (take (left_length l) l))
                 (msortL f (drop (left_length l) l))
      end
  end.
End ListSort.

(** Nodes compared by the payloads [v] gives them. *)
Definition vle (v : positive -> list ascii) (a b : positive) : bool :=
  str_le (v a) (v b).

(** [a] is met before [b] in [l]. *)
Definition before {A} (l : list A) (a b : A) : Prop :=
  exists l1 l2 l3, l = l1 ++ a :: l2 ++ b :: l3.

(** ** Calls *)

Inductive op : Type :=
  | InsertHead (s : option (list ascii))
  | InsertTail (s : option (list ascii))
  | RemoveHead (sp : option (list ascii)) (bufsize : Z)
  | Reverse
  | Sort.

Definition run_op (fuel : nat) (o : op) (q : ptr) : M unit :=
  match o with
  | InsertHead s => q_insert_head q s ;;; ret tt
  | InsertTail s => q_insert_tail q s ;;; ret tt
  | RemoveHead sp bufsize => q_remove_head q sp bufsize ;;; ret tt
  | Reverse => q_reverse fuel q
  | Sort => q_sort fuel q
  end.

(** The bytes [q_remove_head] writes lie inside the caller's buffer. *)
Definition buffer_ok (sp : option (list ascii)) (bufsize : Z) : Prop :=
  match sp with
  | None => True
  | Some buf => size_sub bufsize 1 < Z.of_nat (length buf)
  end.

Definition op_ok (o : op) : Prop :=
  match o with
  | RemoveHead sp bufsize => buffer_ok sp bufsize
  | _ => True
  end.

(** One of the two [malloc] calls of [q_allocate_node] fails. *)
Definition allocation_fails (m : mem) : Prop :=
  ~ exists o, oracle m = true :: true :: o.

(** The string argument is absent ([NULL]) or has zero length. *)
Definition absent_or_empty (s : option (list ascii)) : Prop :=
  match s with
  | None => True
  | Some str => strlen str = 0
  end.

(** ** Sequences of calls *)

(** One call, with its effect on the element count as the caller sees it
    from the result: [+1] for an insertion that returns [true], [-1] for a
    removal that returns [true], [0] otherwise. *)
Definition run_op_count (fuel : nat) (o : op) (q : option positive) : M Z :=
  match o with
  | InsertHead s => b <- q_insert_head q s ;; ret (if b then 1 else 0)
  | InsertTail s => b <- q_insert_tail q s ;; ret (if b then 1 else 0)
  | RemoveHead sp bufsize =>
      r <- q_remove_head q sp bufsize ;; ret (if fst r then -1 else 0)
  | Reverse => q_reverse fuel q ;;; ret 0
  | Sort => q_sort fuel q ;;; ret 0
  end.

(** The calls [os] one after the other on the same queue; the result is the
    number of successful insertions minus the number of successful
    removals. *)
Fixpoint run_ops (fuel : nat) (os : list op) (q : option positive) : M Z :=
  match os with
  | [] => ret 0
  | o :: os' =>
      d <- run_op_count fuel o q ;;
      ds <- run_ops fuel os' q ;;
      ret (d + ds)
  end.

(** [q_insert_tail] of each string of [ss] in turn, as long as the calls
    return [true]. *)
Fixpoint insert_tails (ss : list (list ascii)) (q : option positive) : M bool :=
  match ss with
  | [] => ret true
  | s :: ss' =>
      b <- q_insert_tail q (Some s) ;;
      if b then insert_tails ss' q else ret false
  end.

(** [k] calls of [q_remove_head], each with a buffer [buf] and the capacity
    [cap], as long as the calls return [true]; the result is the strings
    the calls left in their buffers, in the order of the calls. *)
Fixpoint remove_heads (k : nat) (q : option positive) (buf : list ascii)
    (cap : Z) : M (list (list ascii)) :=
  match k with
  | O => ret []
  | S k' =>
      r <- q_remove_head q (Some buf) cap ;;
      match r with
      | (true, Some out) =>
          outs <- remove_heads k' q buf cap ;;
          ret (cstring out :: outs)
      | _ => ret []
      end
  end.

(** What calls on the queue at [qa] may do to a memory [m] in which the
    queue holds the nodes [l]: afterwards ([m'], [l']) the queue is well
    formed over [l'], whose length has changed by [d]; no other queue
    structure has changed; a node outside both [l] and [l'] is as it was;
    a node that joined the queue was not allocated before; a node that
    left it is not allocated any more. *)
Definition op_effect (m : mem) (qa : addr) (l : list addr) (d : Z)
    (m' : mem) (l' : list addr) : Prop :=
  repr m' qa l' /\
  Z.of_nat (length l') = Z.of_nat (length l) + d /\
  (forall qb, qb <> qa -> queues m' !! qb = queues m !! qb) /\
  (forall a, a ∉ l -> a ∉ l' -> nodes m' !! a = nodes m !! a) /\
  (forall a, a ∈ l' -> a ∉ l -> nodes m !! a = None) /\
  (forall a, a ∈ l -> a ∉ l' -> nodes m' !! a = None).

(** The memory after the head node [a], whose record is [e], has been
    removed from the queue [qs] at [qa]. *)
Definition removed (m : mem) (qa : addr) (qs : queue_t) (a : addr)
    (e : list_ele_t) : mem :=
  {| queues :=
       <[qa := mk_queue (next e)
                 (if ptr_eqb (tail qs) (Some a) then None else tail qs)
                 (size qs - 1)]> (queues m);
     nodes := delete a (nodes m);
     oracle := oracle m |}.

(** [q_insert_head] of [s] succeeds on the queue at [qa], and the
    [q_remove_head] that follows, with the buffer [buf] and the capacity
    [cap], succeeds and leaves in the buffer the first [cap - 1] characters
    of [s] (all of [s], if it is shorter) followed by NUL. *)
Definition insert_remove_roundtrip (m : mem) (qa : addr)
    (s buf : list ascii) (cap : Z) : Prop :=
  exists m1 m2 rest,
    q_insert_head (Some qa) (Some s) m = Ok (true, m1) /\
    q_remove_head (Some qa) (Some buf) cap m1
      = Ok ((true, Some (take (Z.to_nat (cap - 1)) (cstring s) ++ NUL :: rest)),
            m2).

(** The payloads met by following [next] from [p], at most [fuel] nodes. *)
Fixpoint contents (fuel : nat) (h : gmap positive list_ele_t) (p : option positive)
  : list (list ascii) :=
  match fuel, p with
  | S f, Some a =>
      match h !! a with
      | Some e => value e :: contents f h (next e)
      | None => []
      end
  | _, _ => []
  end.

(** The payloads of the queue at [q], from its head. *)
Definition q_contents (fuel : nat) (q : option positive) : M (list (list ascii)) :=
  hd <- get_head q ;;
  fun m => Ok (contents fuel (nodes m) hd, m).

(** The result of a computation started in a memory without queues or
    nodes in which [n] allocations succeed. *)
Definition from_scratch {A} (n : nat) (c : M A) : option A :=
  match c (mk_mem ∅ ∅ (repeat true n)) with
  | Ok (a, _) => Some a
  | _ => None
  end.

(** ** Example memories *)

Definition str (s : string) : list ascii := list_ascii_of_string s.

(** A queue at address 1 over two nodes: "b" at 2, then "a" at 3, as left
    by [q_insert_head] of "a" and then of "b". *)
Definition mem_ba : mem :=
  {| queues := {[ 1%positive := mk_queue (Some 2%positive) (Some 3%positive) 2 ]};
     nodes := {[ 2%positive := mk_ele (str "b") (Some 3%positive);
                 3%positive := mk_ele (str "a") None ]};
     oracle := [true; true] |}.

(** An empty queue at address 1, as left by [q_new]. *)
Definition mem_new : mem :=
  {| queues := {[ 1%positive := mk_queue None None 0 ]};
     nodes := ∅;
     oracle := [true; true] |}.

(** Two queues: the queue of [mem_ba] at address 1 and a queue at address
    4 over one node, "z" at 5. *)
Definition mem_two : mem :=
  {| queues := {[ 1%positive := mk_queue (Some 2%positive) (Some 3%positive) 2;
                  4%positive := mk_queue (Some 5%positive) (Some 5%positive) 1 ]};
     nodes := {[ 2%positive := mk_ele (str "b") (Some 3%positive);
                 3%positive := mk_ele (str "a") None;
                 5%positive := mk_ele (str "z") None ]};
     oracle := [true; true] |}.

(** A queue at address 1 over four nodes with ties under [strcasecmp]:
    "b" at 2, "A" at 3, "a" at 4, "B" at 5. *)
Definition mem_ties : mem :=
  {| queues := {[ 1%positive := mk_queue (Some 2%positive) (Some 5%positive) 4 ]};
     nodes := {[ 2%positive := mk_ele (str "b") (Some 3%positive);
                 3%positive := mk_ele (str "A") (Some 4%positive);
                 4%positive := mk_ele (str "a") (Some 5%positive);
                 5%positive := mk_ele (str "B") None ]};
     oracle := [] |}.

(** An empty memory in which the next three calls of [malloc] succeed. *)
Definition mem_fresh : mem :=
  {| queues := ∅; nodes := ∅; oracle := [true; true; true] |}.

(** * Properties *)

(** ** The order of [strcasecmp] *)

Lemma code_range c : 0 <= code c < 256.
Proof.
  unfold code. pose proof (N_ascii_bounded c) as H. lia.
Qed.

Lemma tolower_nonneg c : 0 <= tolower c.
Proof.
  unfold tolower. pose proof (code_range c).
  destruct (_ && _); lia.
Qed.

Ltac split_eqb :=
  repeat match goal with
  | H : context [?x =? ?y] |- _ =>
      destruct (Z.eqb_spec x y); cbn [orb negb] in H
  | |- context [?x =? ?y] => destruct (Z.eqb_spec x y); cbn [orb negb]
  end.

Lemma strcasecmp_swap s1 : forall s2, strcasecmp s2 s1 = - strcasecmp s1 s2.
Proof.
  induction s1 as [|a s1 IH]; intros [|b s2]; cbn [strcasecmp lc tl];
    split_eqb; try lia.
  apply IH.
Qed.

Lemma str_le_total s1 s2 : str_le s1 s2 = false -> str_le s2 s1 = true.
Proof.
  unfold str_le. rewrite (strcasecmp_swap s1 s2). lia.
Qed.

Lemma str_le_trans s1 : forall s2 s3,
  str_le s1 s2 = true -> str_le s2 s3 = true -> str_le s1 s3 = true.
Proof.
  unfold str_le.
  induction s1 as [|a s1 IH]; intros [|b s2] [|c s3];
    cbn [strcasecmp lc tl]; intros H1 H2;
    try pose proof (tolower_nonneg a); try pose proof (tolower_nonneg b);
    try pose proof (tolower_nonneg c);
    split_eqb; cbn [orb negb] in *; try lia.
  all: try (eapply IH; eassumption).
Qed.

Lemma str_eq_le s1 s2 : str_eq s1 s2 = true -> str_le s1 s2 = true.
Proof. unfold str_eq, str_le. lia. Qed.

Lemma str_eq_ge s1 s2 : str_eq s1 s2 = true -> str_le s2 s1 = true.
Proof.
  unfold str_eq, str_le. rewrite (strcasecmp_swap s1 s2). lia.
Qed.

(** ** Chains *)

Section Chains.
Implicit Types (h : gmap positive list_ele_t) (p : ptr) (l : list addr).

Lemma chain_ptr h p l : chain h p l -> p = hd_error l.
Proof. destruct l; simpl; [done | by intros [-> _]]. Qed.

Lemma chain_inj h l1 : forall p l2, chain h p l1 -> chain h p l2 -> l1 = l2.
Proof.
  induction l1 as [|a l1 IH]; intros p [|b l2]; simpl; try done.
  - intros -> [? _]. done.
  - intros [-> _] ?. done.
  - intros [-> (e & He & Hc)] [[= <-] (e' & He' & Hc')].
    rewrite He in He'. injection He' as <-. f_equal. eauto.
Qed.

Lemma chain_suffix h l1 : forall p l2,
  chain h p (l1 ++ l2) -> chain h (hd_error l2) l2.
Proof.
  induction l1 as [|a l1 IH]; intros p l2; simpl.
  - intros H. by rewrite <- (chain_ptr _ _ _ H).
  - intros [_ (e & _ & Hc)]. eauto.
Qed.

Lemma chain_NoDup h l : forall p, chain h p l -> NoDup l.
Proof.
  induction l as [|a l IH]; intros p Hc; [constructor|].
  constructor; [| destruct Hc as [_ (e & _ & Hc)]; eauto].
  intros Hin. apply list_elem_of_split in Hin as (l1 & l2 & ->).
  assert (H1 : chain h (Some a) (a :: l2)).
  { apply (chain_suffix h (a :: l1) p (a :: l2)). exact Hc. }
  destruct Hc as [-> Hc].
  assert (H2 : chain h (Some a) (a :: l1 ++ a :: l2)) by (split; done).
  pose proof (chain_inj _ _ _ _ H1 H2) as Heq.
  apply (f_equal length) in Heq. simpl in Heq.
  rewrite length_app in Heq. simpl in Heq. lia.
Qed.

Lemma chain_frame h h' l : forall p,
  (forall a, a ∈ l -> h' !! a = h !! a) -> chain h p l -> chain h' p l.
Proof.
  induction l as [|a l IH]; intros p Hf; simpl; [done|].
  intros [-> (e & He & Hc)]. split; [done|]. exists e. split.
  - rewrite Hf; [done | left].
  - apply IH; [|done]. intros b Hb. apply Hf. by right.
Qed.

Lemma chain_alloc h l : forall p a,
  chain h p l -> a ∈ l -> is_Some (h !! a).
Proof.
  induction l as [|b l IH]; intros p a Hc Hin.
  - by apply elem_of_nil in Hin.
  - destruct Hc as [_ (e & He & Hc)].
    apply elem_of_cons in Hin as [->|Hin]; eauto.
Qed.

(** Redirecting the link of one node of a chain: the nodes before it
    still lead to it, and what follows is the chain of its new link. *)
Lemma chain_redirect h h' l1 : forall p t l3 l2 e',
  chain h p (l1 ++ t :: l3) ->
  (forall a, a ∈ l1 -> h' !! a = h !! a) ->
  h' !! t = Some e' ->
  chain h' (next e') l2 ->
  chain h' p (l1 ++ t :: l2).
Proof.
  induction l1 as [|a l1 IH]; intros p t l3 l2 e'; simpl.
  - intros [-> _] _ He' Hc. split; [done|]. eauto.
  - intros [-> (e & He & Hc)] Hf He' Hc'. split; [done|].
    exists e. split.
    + rewrite Hf; [done | left].
    + eapply IH; eauto. intros b Hb. apply Hf. by right.
Qed.

Lemma chain_last_next h l : forall p t,
  chain h p l -> last l = Some t ->
  exists e, h !! t = Some e /\ next e = None.
Proof.
  induction l as [|a l IH]; intros p t Hc Hl; [done|].
  destruct Hc as [_ (e & He & Hc)].
  destruct l as [|b l].
  - injection Hl as <-. exists e. split; [done|]. exact Hc.
  - eapply IH; eauto.
Qed.

Lemma chain_walk h l : forall p n,
  chain h p l ->
  walk h n p = if decide (n <= length l)%nat then Some (hd_error (drop n l))
               else None.
Proof.
  induction l as [|a l IH]; intros p n Hc.
  - simpl in Hc. subst p. destruct n; cbn [walk]; [done|].
    destruct (decide _) as [Hn|Hn]; [simpl in Hn; lia | done].
  - destruct Hc as [-> (e & He & Hc)]. destruct n; cbn [walk]; [done|].
    rewrite He, (IH _ n Hc). cbn [length drop skipn].
    repeat destruct (decide _); try lia; done.
Qed.

Lemma val_same h h' a : same_values h h' -> val h' a = val h a.
Proof.
  intros Hs. specialize (Hs a). unfold val.
  destruct (h' !! a), (h !! a); simplify_eq/=; done.
Qed.

Lemma same_values_refl h : same_values h h.
Proof. by intros a. Qed.

Lemma same_values_trans h1 h2 h3 :
  same_values h1 h2 -> same_values h2 h3 -> same_values h1 h3.
Proof. intros H1 H2 a. by rewrite H2, H1. Qed.

Lemma same_values_link h a e v :
  h !! a = Some e -> same_values h (<[a := mk_ele (value e) v]> h).
Proof.
  intros He b. destruct (decide (a = b)) as [<-|Hne].
  - by rewrite lookup_insert_eq, He.
  - by rewrite lookup_insert_ne.
Qed.

Lemma same_values_dom h h' : same_values h h' -> dom h' = dom h.
Proof.
  intros Hs. apply set_eq. intros a. rewrite !elem_of_dom.
  specialize (Hs a).
  destruct (h' !! a), (h !! a); simplify_eq/=; split; intros [? ?]; eauto; done.
Qed.

(** Two node maps that agree off a chain, hold the same payloads and
    have the chain in common are the same map. *)
Lemma chain_agree h h' l : forall p,
  chain h p l -> chain h' p l -> same_values h h' ->
  forall a, a ∈ l -> h' !! a = h !! a.
Proof.
  induction l as [|b l IH]; intros p Hc Hc' Hs a Hin.
  - by apply elem_of_nil in Hin.
  - destruct Hc as [-> (e & He & Hc)]. destruct Hc' as [_ (e' & He' & Hc')].
    assert (Hn : next e' = next e).
    { by rewrite (chain_ptr _ _ _ Hc), (chain_ptr _ _ _ Hc'). }
    apply elem_of_cons in Hin as [->|Hin].
    + rewrite He, He'. f_equal. specialize (Hs b).
      rewrite He, He' in Hs. simpl in Hs. injection Hs as Hv.
      destruct e, e'; simpl in *; congruence.
    + eapply IH; eauto. by rewrite <- Hn.
Qed.

Lemma heap_eq h h' l p :
  chain h p l -> chain h' p l -> same_values h h' ->
  (forall a, a ∉ l -> h' !! a = h !! a) -> h' = h.
Proof.
  intros Hc Hc' Hs Hf. apply map_eq. intros a.
  destruct (decide (a ∈ l)); [eapply chain_agree | apply Hf]; eauto.
Qed.
End Chains.

(** ** Running the monad *)

Lemma with_nodes_id m : with_nodes m (nodes m) = m.
Proof. by destruct m. Qed.

Lemma with_queues_id m : with_queues m (queues m) = m.
Proof. by destruct m. Qed.

(** Unfold the monad and the loads and stores, leaving the lookups. *)
Ltac run :=
  unfold get_next, get_value, set_next, set_value, load_ele, store_ele,
         get_head, get_tail, get_size, set_head, set_tail, set_size,
         load_queue, store_queue, free_ele, free_queue,
         bind, ret, fault, timeout;
  cbv beta iota;
  cbn [nodes queues oracle with_nodes with_queues with_oracle
       fst snd value next head tail size].

Ltac reduce :=
  cbv beta iota;
  cbn [nodes queues oracle with_nodes with_queues with_oracle
       fst snd value next head tail size].

(** Resolve one lookup from a hypothesis or from the shape of the map. *)
Ltac look :=
  match goal with
  | H : ?h !! ?a = _ |- context [?h !! ?a] => rewrite H
  | |- context [<[?a := _]> _ !! ?a] => rewrite lookup_insert_eq
  | |- context [<[?a := _]> _ !! ?b] =>
      rewrite (lookup_insert_ne _ a b) by congruence
  end.

Ltac runs := run; repeat (look; reduce).

(** ** Reversal of a chain *)

Lemma reverse_loop_spec lc : forall lp prev cur m fuel,
  chain (nodes m) cur lc ->
  chain (nodes m) prev lp ->
  (forall a, a ∈ lc -> a ∉ lp) ->
  (length lc <= fuel)%nat ->
  exists h',
    reverse_loop fuel prev cur m
      = Ok (hd_error (rev lc ++ lp), with_nodes m h') /\
    chain h' (hd_error (rev lc ++ lp)) (rev lc ++ lp) /\
    same_values (nodes m) h' /\
    (forall a, a ∉ lc -> h' !! a = nodes m !! a).
Proof.
  induction lc as [|a lc IH]; intros lp prev cur m fuel Hc Hp Hd Hf.
  - simpl in Hc. subst cur. exists (nodes m). simpl.
    rewrite with_nodes_id, <- (chain_ptr _ _ _ Hp).
    destruct fuel; repeat split; auto using same_values_refl.
  - pose proof (chain_NoDup _ _ _ Hc) as Hnd.
    apply NoDup_cons in Hnd as [Ha Hnd].
    destruct Hc as [-> (e & He & Hc)].
    destruct fuel as [|f]; [simpl in Hf; lia|].
    cbn [reverse_loop]. runs.
    set (h1 := <[a := mk_ele (value e) prev]> (nodes m)).
    destruct (IH (a :: lp) (Some a) (next e) (with_nodes m h1) f)
      as (h' & Hrun & Hc' & Hs & Hfr).
    + apply (chain_frame (nodes m)); [|done].
      intros b Hb. apply lookup_insert_ne. intros ->. done.
    + split; [done|]. exists (mk_ele (value e) prev).
      split; [apply lookup_insert_eq|].
      apply (chain_frame (nodes m)); [|done].
      intros b Hb. apply lookup_insert_ne. intros ->.
      apply (Hd b); [left | done].
    + intros b Hb Hin. apply elem_of_cons in Hin as [->|Hin]; [done|].
      apply (Hd b); [by right | done].
    + simpl in Hf. lia.
    + exists h'. cbn [rev]. rewrite <- app_assoc. cbn [app].
      split; [exact Hrun|]. split; [exact Hc'|]. split.
      * eapply same_values_trans; [|exact Hs].
        by apply same_values_link.
      * intros b Hb. rewrite Hfr.
        -- apply lookup_insert_ne. intros ->. apply Hb. left.
        -- intros Hin. apply Hb. by right.
Qed.

(** ** The invariants and the list of nodes *)

Lemma hd_drop_last {A} (l : list A) :
  l <> [] -> hd_error (drop (length l - 1) l) = last l.
Proof.
  induction l as [|a [|b l] IH]; intros Hne; try done.
  cbn [length]. replace (S (S (length l)) - 1)%nat with (S (length l)) by lia.
  cbn [drop skipn]. cbn [length] in IH.
  replace (S (length l) - 1)%nat with (length l) in IH by lia.
  rewrite IH; done.
Qed.

Lemma chain_lookup_next h l : forall p n t,
  chain h p l -> l !! n = Some t ->
  exists e, h !! t = Some e /\ next e = hd_error (drop (S n) l).
Proof.
  induction l as [|a l IH]; intros p n t Hc Hl; [done|].
  destruct Hc as [_ (e & He & Hc)]. destruct n as [|n].
  - injection Hl as <-. exists e. split; [done|].
    cbn [drop skipn]. by apply chain_ptr in Hc.
  - cbn [drop skipn]. eapply IH; eauto.
Qed.

Lemma hd_drop_lookup {A} (l : list A) n : hd_error (drop n l) = l !! n.
Proof.
  revert n. induction l as [|a l IH]; intros [|n]; try done. apply IH.
Qed.

Lemma repr_wf m qa l : repr m qa l -> queue_inv m qa.
Proof.
  intros (qs & Hq & Hc & Ht & Hs). exists qs. split; [done|].
  pose proof (chain_ptr _ _ _ Hc) as Hh.
  constructor.
  - lia.
  - rewrite Hs, Hh. destruct l; simpl; split; try done; lia.
  - rewrite Hh, Ht. destruct l as [|a l]; [done|].
    split; [done|]. intros Hl. by apply last_None in Hl.
  - rewrite Hs, Hh, Ht. destruct l as [|a [|b l]]; simpl; try done; lia.
  - intros Hne. rewrite (chain_walk _ _ _ _ Hc), Hs, Ht.
    assert (l <> []) by (intros ->; by rewrite Hh in Hne).
    replace (Z.to_nat (Z.of_nat (length l) - 1)) with (length l - 1)%nat by lia.
    destruct (decide _); [|lia]. f_equal. by apply hd_drop_last.
  - intros t Hl. rewrite Ht in Hl. eapply chain_last_next; eauto.
  - exists l. split; [done|]. eapply chain_NoDup; eauto.
Qed.

Lemma wf_repr m qa l :
  queue_inv m qa -> traversal m qa l -> repr m qa l.
Proof.
  intros (qs & Hq & Hwf) (qs' & Hq' & Hc).
  rewrite Hq in Hq'. injection Hq' as <-.
  exists qs. split; [done|]. split; [done|].
  destruct Hwf as [Hcnt Hsh Hht _ Hreach Hlast _].
  pose proof (chain_ptr _ _ _ Hc) as Hh.
  destruct l as [|a l'] eqn:El.
  - simpl in Hh. split; [by apply Hht | by apply Hsh].
  - rewrite <- El in *. assert (Hne : head qs <> None) by (rewrite Hh, El; done).
    specialize (Hreach Hne). rewrite (chain_walk _ _ _ _ Hc) in Hreach.
    destruct (decide _) as [Hn|]; [|done]. injection Hreach as Hreach.
    rewrite hd_drop_lookup in Hreach.
    destruct (tail qs) as [t|] eqn:Et; [|exfalso; by apply Hne, Hht].
    destruct (Hlast t eq_refl) as (e & He & Hnx).
    destruct (chain_lookup_next _ _ _ _ _ Hc Hreach) as (e' & He' & Hnx').
    rewrite He in He'. injection He' as <-. rewrite Hnx in Hnx'.
    symmetry in Hnx'. rewrite hd_drop_lookup in Hnx'.
    apply lookup_ge_None in Hnx'.
    pose proof (lookup_lt_Some _ _ _ Hreach) as Hlt.
    assert (Hsz : size qs <> 0) by (intros H0; by apply Hsh in H0).
    assert (Hlen : Z.to_nat (size qs - 1) = (length l - 1)%nat) by lia.
    split; [|lia].
    rewrite <- hd_drop_last, hd_drop_lookup, <- Hlen by (rewrite El; done).
    done.
Qed.

Lemma wf_traversal m qa : queue_inv m qa -> exists l, traversal m qa l.
Proof.
  intros (qs & Hq & Hwf). destruct (wf_simple _ _ Hwf) as (l & Hc & _).
  exists l, qs. done.
Qed.

Lemma repr_traversal m qa l : repr m qa l -> traversal m qa l.
Proof. intros (qs & Hq & Hc & _). by exists qs. Qed.

Lemma traversal_inj m qa l1 l2 :
  traversal m qa l1 -> traversal m qa l2 -> l1 = l2.
Proof.
  intros (qs & Hq & Hc) (qs' & Hq' & Hc').
  rewrite Hq in Hq'. injection Hq' as <-. eapply chain_inj; eauto.
Qed.

(** ** [q_reverse] *)

Lemma q_reverse_null fuel m : q_reverse fuel None m = Ok (tt, m).
Proof. done. Qed.

Lemma q_reverse_empty fuel m qa qs :
  queues m !! qa = Some qs -> head qs = None ->
  q_reverse fuel (Some qa) m = Ok (tt, m).
Proof.
  intros Hq Hh. unfold q_reverse. runs. by rewrite Hh.
Qed.

Lemma q_reverse_run m qa qs l fuel :
  queues m !! qa = Some qs ->
  chain (nodes m) (head qs) l ->
  l <> [] ->
  (length l <= fuel)%nat ->
  exists h',
    q_reverse fuel (Some qa) m
      = Ok (tt, mk_mem (<[qa := mk_queue (hd_error (rev l)) (head qs) (size qs)]>
                          (queues m)) h' (oracle m)) /\
    chain h' (hd_error (rev l)) (rev l) /\
    same_values (nodes m) h' /\
    (forall a, a ∉ l -> h' !! a = nodes m !! a).
Proof.
  intros Hq Hc Hne Hf.
  pose proof (chain_ptr _ _ _ Hc) as Hh.
  destruct qs as [hq tq sq]. cbn [head tail size] in *. subst hq.
  destruct l as [|a l']; [done|]. cbn [hd_error] in *.
  set (l := a :: l') in *.
  set (Q1 := <[qa := mk_queue (Some a) (Some a) sq]> (queues m)).
  destruct (reverse_loop_spec l [] None (Some a) (with_queues m Q1) fuel)
    as (h' & Hrun & Hc' & Hs & Hfr); try done.
  { intros b _ Hin. by apply elem_of_nil in Hin. }
  rewrite app_nil_r in Hrun, Hc'.
  exists h'. split; [|done].
  unfold q_reverse. runs. fold Q1. rewrite Hrun. reduce.
  unfold Q1. look. reduce. rewrite insert_insert_eq. done.
Qed.

Lemma elem_of_rev {A} (x : A) l : x ∈ rev l <-> x ∈ l.
Proof. rewrite !list_elem_of_In. symmetry. apply in_rev. Qed.

Lemma repr_mem_ba : repr mem_ba 1 [2; 3]%positive.
Proof.
  eexists. split; [reflexivity|]. cbn [head tail size].
  split; [|split; reflexivity].
  split; [reflexivity|]. eexists. split; [reflexivity|]. cbn [next].
  split; [reflexivity|]. eexists. split; [reflexivity|]. reflexivity.
Qed.

(** C6: on a queue that satisfies the invariants and is not empty,
    [q_reverse] returns (given fuel for the nodes), the traversal from the
    head is the reverse of the traversal before the call, the head is the
    former tail and the tail the former head, the size is unchanged, the
    set of allocated nodes and the pending [malloc] outcomes are unchanged
    (nothing is allocated or freed) and every node keeps its payload; on a
    [NULL] queue and on an empty queue the memory is left as it is. *)
Theorem q_reverse_correct fuel m :
  q_reverse fuel None m = Ok (tt, m) /\
  forall qa l,
    queue_inv m qa -> traversal m qa l ->
    (l = [] -> q_reverse fuel (Some qa) m = Ok (tt, m)) /\
    (l <> [] -> (length l <= fuel)%nat ->
     exists m',
       q_reverse fuel (Some qa) m = Ok (tt, m') /\
       traversal m' qa (rev l) /\
       (exists qs qs',
          queues m !! qa = Some qs /\ queues m' !! qa = Some qs' /\
          head qs' = tail qs /\ tail qs' = head qs /\ size qs' = size qs) /\
       dom (nodes m') = dom (nodes m) /\
       oracle m' = oracle m /\
       same_values (nodes m) (nodes m') /\
       payloads m' (rev l) = rev (payloads m l) /\
       queue_inv m' qa).
Proof.
  split; [done|]. intros qa l Hinv Htr.
  pose proof (wf_repr _ _ _ Hinv Htr) as (qs & Hq & Hc & Ht & Hs).
  split.
  - intros ->. eapply q_reverse_empty; eauto.
  - intros Hne Hf.
    destruct (q_reverse_run m qa qs l fuel) as (h' & Hrun & Hc' & Hsv & Hfr);
      try done.
    eexists. split; [exact Hrun|].
    assert (Hlast : hd_error (rev l) = last l).
    { destruct l as [|a l'] using rev_ind; [done|].
      by rewrite rev_app_distr, last_snoc. }
    assert (Hrepr : repr {| queues := <[qa := mk_queue (hd_error (rev l)) (head qs) (size qs)]> (queues m); nodes := h'; oracle := oracle m |} qa (rev l)).
    { eexists. split; [apply lookup_insert_eq|]. cbn [head tail size nodes].
      split; [done|]. rewrite length_rev. split; [|done].
      rewrite (chain_ptr _ _ _ Hc).
      destruct l as [|a l']; [done|]. cbn [rev hd_error].
      by rewrite last_snoc. }
    split; [by apply repr_traversal in Hrepr|].
    split.
    { exists qs. eexists. split; [done|]. split; [apply lookup_insert_eq|].
      cbn [head tail size]. by rewrite Hlast, Ht. }
    cbn [nodes oracle].
    split; [by apply same_values_dom|]. split; [done|]. split; [done|].
    split; [|by eapply repr_wf].
    unfold payloads. cbn [nodes]. rewrite <- map_rev.
    apply map_ext. intros a. by apply val_same.
Qed.

Lemma q_reverse_correct_witness :
  exists m', q_reverse 2 (Some 1%positive) mem_ba = Ok (tt, m') /\
             traversal m' 1 [3; 2]%positive.
Proof.
  destruct (q_reverse_correct 2 mem_ba) as [_ H].
  destruct (H 1%positive [2; 3]%positive) as [_ H2].
  - eapply repr_wf, repr_mem_ba.
  - eapply repr_traversal, repr_mem_ba.
  - destruct H2 as (m' & Hrun & Htr & _); [done | simpl; lia |].
    exists m'. split; [exact Hrun | exact Htr].
Defined.

(** C7: on a queue that satisfies the invariants and is not empty, a
    second [q_reverse] undoes the first: it returns the memory the first
    call started from, so the traversal order, the head, the tail and the
    size are the original ones. *)
Theorem q_reverse_involutive fuel m qa l :
  queue_inv m qa -> traversal m qa l -> l <> [] -> (length l <= fuel)%nat ->
  exists m1,
    q_reverse fuel (Some qa) m = Ok (tt, m1) /\
    traversal m1 qa (rev l) /\
    q_reverse fuel (Some qa) m1 = Ok (tt, m).
Proof.
  intros Hinv Htr Hne Hf.
  pose proof (wf_repr _ _ _ Hinv Htr) as (qs & Hq & Hc & Ht & Hs).
  destruct (q_reverse_run m qa qs l fuel) as (h1 & Hrun1 & Hc1 & Hsv1 & Hfr1);
    try done.
  set (m1 := {| queues := <[qa := mk_queue (hd_error (rev l)) (head qs) (size qs)]> (queues m); nodes := h1; oracle := oracle m |}) in *.
  set (qs1 := mk_queue (hd_error (rev l)) (head qs) (size qs)) in *.
  destruct (q_reverse_run m1 qa qs1 (rev l) fuel)
    as (h2 & Hrun2 & Hc2 & Hsv2 & Hfr2).
  { apply lookup_insert_eq. }
  { exact Hc1. }
  { intros Hr. apply Hne. by rewrite <- (rev_involutive l), Hr. }
  { by rewrite length_rev. }
  exists m1. split; [exact Hrun1|]. split.
  { exists qs1. split; [apply lookup_insert_eq | exact Hc1]. }
  rewrite Hrun2. do 2 f_equal.
  rewrite rev_involutive in *. cbn [queues nodes oracle head size] in *.
  assert (Hh2 : h2 = nodes m).
  { apply (heap_eq (nodes m) h2 l (hd_error l)).
    - by rewrite <- (chain_ptr _ _ _ Hc).
    - exact Hc2.
    - eapply same_values_trans; eauto.
    - intros a Ha. rewrite Hfr2; [by apply Hfr1|].
      by rewrite elem_of_rev. }
  assert (Hq2 : <[qa := mk_queue (hd_error l) (hd_error (rev l)) (size qs)]>
                  (<[qa := qs1]> (queues m)) = queues m).
  { rewrite insert_insert_eq. apply insert_id. rewrite Hq. f_equal.
    destruct qs as [hq tq sq]. cbn [head tail size] in *.
    rewrite Ht, (chain_ptr _ _ _ Hc). f_equal.
    destruct l as [|a l'] using rev_ind; [done|].
    by rewrite rev_app_distr, last_snoc. }
  subst m1 qs1. cbn [queues nodes oracle head tail size] in *.
  rewrite Hq2, Hh2. by destruct m.
Qed.

Lemma q_reverse_involutive_witness :
  exists m1, q_reverse 2 (Some 1%positive) mem_ba = Ok (tt, m1) /\
             q_reverse 2 (Some 1%positive) m1 = Ok (tt, mem_ba).
Proof.
  destruct (q_reverse_involutive 2 mem_ba 1%positive [2; 3]%positive)
    as (m1 & H1 & _ & H2).
  - eapply repr_wf, repr_mem_ba.
  - eapply repr_traversal, repr_mem_ba.
  - done.
  - simpl; lia.
  - exists m1. split; [exact H1 | exact H2].
Defined.

(** ** [q_allocate_node] *)

Lemma fresh_node m : nodes m !! fresh (dom (nodes m)) = None.
Proof. apply not_elem_of_dom, is_fresh. Qed.

Ltac run_alloc :=
  unfold q_allocate_node, malloc_ele, malloc_bytes, next_malloc;
  run.

Lemma q_allocate_node_ok m str o :
  0 < strlen str ->
  oracle m = true :: true :: o ->
  q_allocate_node (Some str) m
    = Ok (Some (fresh (dom (nodes m))),
          mk_mem (queues m)
                 (<[fresh (dom (nodes m)) := mk_ele (cstring str) None]> (nodes m))
                 o).
Proof.
  intros Hlen Ho. run_alloc.
  destruct (Z.eqb_spec (strlen str + 1) 1); [lia|].
  rewrite Ho. reduce. repeat (look; reduce).
  by rewrite !insert_insert_eq.
Qed.

(** [q_allocate_node] returns [NULL] and leaves queues and nodes as they
    are when the string is absent or empty or a [malloc] fails. *)
Lemma q_allocate_node_fail m s :
  (match s with None => True | Some str => strlen str = 0 end)
  \/ allocation_fails m ->
  exists o, q_allocate_node s m = Ok (None, with_oracle m o).
Proof.
  intros Hbad. destruct m as [Q N O].
  destruct s as [str|]; [|by exists O].
  run_alloc. destruct (Z.eqb_spec (strlen str + 1) 1) as [|Hne].
  { by exists O. }
  destruct Hbad as [Hz|Hfail]; [lia|].
  unfold allocation_fails in Hfail. cbn [oracle] in Hfail.
  pose proof (fresh_node (mk_mem Q N O)) as Hfresh. cbn [nodes] in Hfresh.
  destruct O as [|[|] [|[|] o]]; reduce; repeat (look; reduce);
    rewrite ?insert_insert_eq, ?delete_insert_id by done;
    try (eexists; reflexivity).
  exfalso. apply Hfail. by exists o.
Qed.

(** ** [q_insert_head] and [q_insert_tail] *)

Lemma q_insert_fail_head m qa s :
  (match s with None => True | Some str => strlen str = 0 end)
  \/ allocation_fails m ->
  exists o, q_insert_head (Some qa) s m = Ok (false, with_oracle m o).
Proof.
  intros Hbad. destruct (q_allocate_node_fail m s Hbad) as (o & Hrun).
  exists o. unfold q_insert_head, bind. by rewrite Hrun.
Qed.

Lemma q_insert_fail_tail m qa s :
  (match s with None => True | Some str => strlen str = 0 end)
  \/ allocation_fails m ->
  exists o, q_insert_tail (Some qa) s m = Ok (false, with_oracle m o).
Proof.
  intros Hbad. destruct (q_allocate_node_fail m s Hbad) as (o & Hrun).
  exists o. unfold q_insert_tail, bind. by rewrite Hrun.
Qed.

Lemma q_insert_head_ok m qa qs str o :
  queues m !! qa = Some qs ->
  0 < strlen str ->
  oracle m = true :: true :: o ->
  q_insert_head (Some qa) (Some str) m
    = Ok (true,
          mk_mem (<[qa := mk_queue (Some (fresh (dom (nodes m))))
                            (match tail qs with
                             | None => Some (fresh (dom (nodes m)))
                             | Some t => Some t
                             end)
                            (size qs + 1)]> (queues m))
                 (<[fresh (dom (nodes m)) := mk_ele (cstring str) (head qs)]>
                    (nodes m))
                 o).
Proof.
  intros Hq Hlen Ho. unfold q_insert_head.
  unfold bind at 1. rewrite (q_allocate_node_ok m str o Hlen Ho).
  destruct qs as [hq tq sq]. cbn [head tail size] in *.
  destruct tq as [t|]; runs; by rewrite ?insert_insert_eq.
Qed.

Lemma q_insert_tail_ok m qa qs str o :
  queues m !! qa = Some qs ->
  (forall t, tail qs = Some t -> is_Some (nodes m !! t)) ->
  0 < strlen str ->
  oracle m = true :: true :: o ->
  q_insert_tail (Some qa) (Some str) m
    = Ok (true,
          mk_mem (<[qa := mk_queue (match head qs with
                                    | None => Some (fresh (dom (nodes m)))
                                    | Some hd => Some hd
                                    end)
                            (Some (fresh (dom (nodes m))))
                            (size qs + 1)]> (queues m))
                 (match tail qs with
                  | None =>
                      <[fresh (dom (nodes m)) := mk_ele (cstring str) None]>
                        (nodes m)
                  | Some t =>
                      <[t := mk_ele (val (nodes m) t)
                               (Some (fresh (dom (nodes m))))]>
                        (<[fresh (dom (nodes m)) := mk_ele (cstring str) None]>
                           (nodes m))
                  end)
                 o).
Proof.
  intros Hq Ht Hlen Ho. unfold q_insert_tail.
  unfold bind at 1. rewrite (q_allocate_node_ok m str o Hlen Ho).
  pose proof (fresh_node m) as Hfresh.
  destruct qs as [hq tq sq]. cbn [head tail size] in *.
  destruct tq as [t|].
  - destruct (Ht t eq_refl) as [et Het].
    assert (fresh (dom (nodes m)) <> t) by congruence.
    unfold val. rewrite Het.
    destruct hq; runs; by rewrite ?insert_insert_eq.
  - destruct hq; runs; by rewrite ?insert_insert_eq.
Qed.

Lemma repr_insert_head m qa qs l str o :
  queues m !! qa = Some qs ->
  repr m qa l ->
  repr (mk_mem (<[qa := mk_queue (Some (fresh (dom (nodes m))))
                          (match tail qs with
                           | None => Some (fresh (dom (nodes m)))
                           | Some t => Some t
                           end)
                          (size qs + 1)]> (queues m))
               (<[fresh (dom (nodes m)) := mk_ele (cstring str) (head qs)]>
                  (nodes m))
               o)
       qa (fresh (dom (nodes m)) :: l).
Proof.
  intros Hq (qs' & Hq' & Hc & Ht & Hs).
  rewrite Hq in Hq'. injection Hq' as <-.
  pose proof (fresh_node m) as Hfresh.
  eexists. split; [apply lookup_insert_eq|]. cbn [head tail size nodes].
  split; [|split].
  - split; [done|]. eexists. split; [apply lookup_insert_eq|]. cbn [next].
    apply (chain_frame (nodes m)); [|done].
    intros a Ha. apply lookup_insert_ne. intros <-.
    destruct (chain_alloc _ _ _ _ Hc Ha) as [e He]. congruence.
  - rewrite Ht. destruct l as [|a l]; [done|].
    cbn [last]. destruct (last (a :: l)) eqn:El; [done|].
    by apply last_None in El.
  - cbn [length]. lia.
Qed.

Lemma repr_insert_tail m qa qs l str o :
  queues m !! qa = Some qs ->
  repr m qa l ->
  repr (mk_mem (<[qa := mk_queue (match head qs with
                                  | None => Some (fresh (dom (nodes m)))
                                  | Some hd => Some hd
                                  end)
                          (Some (fresh (dom (nodes m))))
                          (size qs + 1)]> (queues m))
               (match tail qs with
                | None =>
                    <[fresh (dom (nodes m)) := mk_ele (cstring str) None]>
                      (nodes m)
                | Some t =>
                    <[t := mk_ele (val (nodes m) t)
                             (Some (fresh (dom (nodes m))))]>
                      (<[fresh (dom (nodes m)) := mk_ele (cstring str) None]>
                         (nodes m))
                end)
               o)
       qa (l ++ [fresh (dom (nodes m))]).
Proof.
  intros Hq (qs' & Hq' & Hc & Ht & Hs).
  rewrite Hq in Hq'. injection Hq' as <-.
  pose proof (fresh_node m) as Hfresh.
  set (n := fresh (dom (nodes m))) in *.
  eexists. split; [apply lookup_insert_eq|]. cbn [head tail size nodes].
  split; [|split; [by rewrite last_snoc | rewrite length_app; simpl; lia]].
  pose proof (chain_ptr _ _ _ Hc) as Hh.
  destruct l as [|a l'] using rev_ind.
  - simpl in Ht, Hh. rewrite Ht, Hh. split; [done|].
    eexists. split; [apply lookup_insert_eq|]. done.
  - clear IHl'. rewrite last_snoc in Ht. rewrite Ht.
    assert (Hna : n <> a).
    { intros <-. assert (Hin : n ∈ l' ++ [n]) by (apply elem_of_app; right; left).
      destruct (chain_alloc _ _ _ _ Hc Hin) as [e He]. congruence. }
    assert (Hhd : match head qs with Some hd => Some hd | None => Some n end
                  = head qs).
    { rewrite Hh. by destruct l'. }
    rewrite Hhd, <- app_assoc. cbn [app].
    eapply (chain_redirect (nodes m) _ l' _ a [] [n]).
    + exact Hc.
    + intros b Hb. pose proof (chain_NoDup _ _ _ Hc) as Hnd.
      apply NoDup_app in Hnd as (_ & Hd & _).
      assert (Hbl : b ∈ l' ++ [a]) by (apply elem_of_app; by left).
      destruct (chain_alloc _ _ _ _ Hc Hbl) as [e He].
      rewrite !lookup_insert_ne; [done | congruence |].
      intros <-. apply (Hd a Hb). left.
    + apply lookup_insert_eq.
    + cbn [next]. split; [done|]. eexists. split.
      * rewrite lookup_insert_ne by congruence. apply lookup_insert_eq.
      * reflexivity.
Qed.

Lemma allocation_cases m :
  allocation_fails m \/ exists o, oracle m = true :: true :: o.
Proof.
  unfold allocation_fails.
  destruct (oracle m) as [|[|] [|[|] o]]; eauto; left; intros [? ?]; done.
Qed.

Lemma string_cases s :
  absent_or_empty s \/ exists str, s = Some str /\ 0 < strlen str.
Proof.
  destruct s as [str|]; [|by left]. unfold absent_or_empty, strlen.
  destruct (cstring str) eqn:E; [by left|].
  right. exists str. rewrite E. simpl. split; [done | lia].
Qed.

(** C4: on a [NULL] queue or a queue that satisfies the invariants,
    [q_insert_head] and [q_insert_tail] return; the result is [false]
    exactly when the queue is [NULL], the string is absent or of zero
    length, or an allocation fails, and then no queue structure and no
    node has changed; when the result is [true] the size of the queue has
    grown by exactly one. *)
Theorem q_insert_result (ins : option positive -> option (list ascii) -> M bool)
    m q s :
  ins = q_insert_head \/ ins = q_insert_tail ->
  (forall qa, q = Some qa -> queue_inv m qa) ->
  exists b m',
    ins q s m = Ok (b, m') /\
    (b = false <-> q = None \/ absent_or_empty s \/ allocation_fails m) /\
    (b = false -> queues m' = queues m /\ nodes m' = nodes m) /\
    (b = true ->
     exists qa qs qs',
       q = Some qa /\ queues m !! qa = Some qs /\
       queues m' !! qa = Some qs' /\ size qs' = size qs + 1).
Proof.
  intros Hins Hinv. destruct q as [qa|].
  2:{ exists false, m. split; [by destruct Hins as [-> | ->]|].
      repeat split; auto; done. }
  specialize (Hinv qa eq_refl).
  destruct (wf_traversal _ _ Hinv) as [l Htr].
  pose proof (wf_repr _ _ _ Hinv Htr) as Hrepr.
  destruct Hrepr as (qs & Hq & Hc & Ht & Hs).
  assert (Hbad : forall P : Prop, absent_or_empty s \/ allocation_fails m ->
    exists o, ins (Some qa) s m = Ok (false, with_oracle m o)).
  { intros _ Hb. destruct Hins as [-> | ->];
      [by apply q_insert_fail_head | by apply q_insert_fail_tail]. }
  destruct (string_cases s) as [Hs0 | (str & -> & Hlen)].
  { destruct (Hbad True (or_introl Hs0)) as (o & Hrun).
    exists false, (with_oracle m o). split; [done|].
    repeat split; auto; done. }
  destruct (allocation_cases m) as [Hf | (o & Ho)].
  { destruct (Hbad True (or_intror Hf)) as (o & Hrun).
    exists false, (with_oracle m o). split; [done|].
    repeat split; auto; done. }
  exists true. destruct Hins as [-> | ->].
  - eexists. split; [by eapply q_insert_head_ok|].
    split; [|split; [done|]].
    + split; [done|]. intros [? | [Hz | Hf]]; [done | |].
      * unfold absent_or_empty in Hz. lia.
      * exfalso. apply Hf. by exists o.
    + intros _. exists qa, qs. eexists. split; [done|]. split; [done|].
      split; [apply lookup_insert_eq | done].
  - eexists. split.
    { eapply q_insert_tail_ok; eauto. intros t Et. rewrite Ht in Et.
      destruct (chain_last_next _ _ _ _ Hc Et) as (e & He & _). by exists e. }
    split; [|split; [done|]].
    + split; [done|]. intros [? | [Hz | Hf]]; [done | |].
      * unfold absent_or_empty in Hz. lia.
      * exfalso. apply Hf. by exists o.
    + intros _. exists qa, qs. eexists. split; [done|]. split; [done|].
      split; [apply lookup_insert_eq | done].
Qed.

Lemma q_insert_result_witness :
  exists b m',
    q_insert_tail (Some 1%positive) (Some (str "c")) mem_ba = Ok (b, m').
Proof.
  destruct (q_insert_result q_insert_tail mem_ba (Some 1%positive)
              (Some (str "c"))) as (b & m' & H & _).
  - right. reflexivity.
  - intros qa [= <-]. eapply repr_wf, repr_mem_ba.
  - exists b, m'. exact H.
Defined.

(** ** [q_remove_head] *)

Lemma q_remove_head_null sp bufsize m :
  q_remove_head None sp bufsize m = Ok ((false, sp), m).
Proof. done. Qed.

Lemma q_remove_head_empty m qa qs sp bufsize :
  queues m !! qa = Some qs -> head qs = None ->
  q_remove_head (Some qa) sp bufsize m = Ok ((false, sp), m).
Proof.
  intros Hq Hh. unfold q_remove_head. runs. by rewrite Hh.
Qed.

Lemma q_remove_head_run m qa qs a e sp bufsize :
  queues m !! qa = Some qs ->
  head qs = Some a ->
  nodes m !! a = Some e ->
  q_remove_head (Some qa) sp bufsize m
    = match sp with
      | None => Ok ((true, None), removed m qa qs a e)
      | Some buf =>
          match copy_out buf (value e) bufsize with
          | Some buf' => Ok ((true, Some buf'), removed m qa qs a e)
          | None => Fault
          end
      end.
Proof.
  intros Hq Hh He. unfold removed.
  destruct qs as [hq tq sq]. cbn [head tail size] in *. subst hq.
  unfold q_remove_head. runs.
  destruct (ptr_eqb tq (Some a)); reduce; repeat (look; reduce);
    destruct sp as [buf|]; reduce; repeat (look; reduce);
    try destruct (copy_out buf (value e) bufsize); reduce;
    repeat (look; reduce); rewrite ?insert_insert_eq; done.
Qed.

Lemma last_cons_ne {A} (a : A) l : l <> [] -> last (a :: l) = last l.
Proof. by destruct l. Qed.

Lemma last_elem_of {A} (l : list A) t : last l = Some t -> t ∈ l.
Proof.
  intros Hl. rewrite last_lookup in Hl. by eapply list_elem_of_lookup_2.
Qed.

Lemma repr_removed m qa qs a e l :
  queues m !! qa = Some qs ->
  nodes m !! a = Some e ->
  repr m qa (a :: l) ->
  repr (removed m qa qs a e) qa l.
Proof.
  intros Hq He (qs' & Hq' & Hc & Ht & Hs).
  rewrite Hq in Hq'. injection Hq' as <-.
  pose proof (chain_NoDup _ _ _ Hc) as Hnd.
  apply NoDup_cons in Hnd as [Ha _].
  destruct Hc as [Hh (e' & He' & Hc)]. rewrite He in He'. injection He' as <-.
  eexists. split; [apply lookup_insert_eq|]. cbn [head tail size nodes removed].
  split; [|split].
  - apply (chain_frame (nodes m)); [|done].
    intros b Hb. apply lookup_delete_ne. intros <-. done.
  - rewrite Ht. unfold ptr_eqb. destruct l as [|b l].
    + by rewrite bool_decide_eq_true_2.
    + rewrite last_cons_ne by done.
      rewrite bool_decide_eq_false_2; [done|].
      intros Hl. apply last_elem_of in Hl. done.
  - cbn [length] in Hs. lia.
Qed.

(** C5, as stated, fails when a buffer is supplied with the capacity 0.
    The queue of [mem_ba] satisfies the invariants and is not empty, and
    [q_remove_head] on it with a four-byte buffer and [bufsize] 0 does not
    return [true]: [bufsize - 1] is [2^64 - 1], and the copy of that many
    bytes goes outside the buffer. *)
Lemma q_remove_head_capacity_zero :
  queue_inv mem_ba 1 /\ traversal mem_ba 1 [2; 3]%positive /\
  ~ (exists sp' m',
       q_remove_head (Some 1%positive) (Some (str "xxxx")) 0 mem_ba
         = Ok ((true, sp'), m')).
Proof.
  split; [eapply repr_wf, repr_mem_ba|].
  split; [eapply repr_traversal, repr_mem_ba|].
  intros (sp' & m' & Hrun).
  assert (Hrem : q_remove_head (Some 1%positive) (Some (str "xxxx")) 0 mem_ba
                 = Fault) by (vm_compute; reflexivity).
  pose proof (eq_trans (eq_sym Hrem) Hrun) as Hno. discriminate Hno.
Qed.

(** C5, amended: [q_remove_head] on a [NULL] queue or a queue that
    satisfies the invariants.  It returns [false], with memory and buffer
    as they were, when the queue is [NULL] or empty, and it returns [false]
    in no other case.  On a queue that is not empty, when no buffer is
    given or the bytes copied out lie inside the caller's buffer, it
    returns [true]; and whenever it returns, the result is [true]; the
    head node is freed and no other node is touched; the former second
    node is the head; the size is one less; the tail is [NULL] when the
    chain has become empty and is unchanged otherwise; the invariants
    hold. *)
Theorem q_remove_head_result m q sp bufsize :
  (forall qa, q = Some qa -> queue_inv m qa) ->
  (q = None \/ (exists qa, q = Some qa /\ traversal m qa []) ->
   q_remove_head q sp bufsize m = Ok ((false, sp), m)) /\
  (forall sp' m',
     q_remove_head q sp bufsize m = Ok ((false, sp'), m') ->
     q = None \/ (exists qa, q = Some qa /\ traversal m qa [])) /\
  (forall qa a l,
     q = Some qa -> traversal m qa (a :: l) ->
     (buffer_ok sp bufsize ->
      exists sp' m', q_remove_head q sp bufsize m = Ok ((true, sp'), m')) /\
     (forall b sp' m',
        q_remove_head q sp bufsize m = Ok ((b, sp'), m') ->
        b = true /\
        traversal m' qa l /\
        nodes m' = delete a (nodes m) /\
        (exists qs qs',
           queues m !! qa = Some qs /\ queues m' !! qa = Some qs' /\
           head qs' = hd_error l /\
           size qs' = size qs - 1 /\
           (l = [] -> tail qs' = None) /\
           (l <> [] -> tail qs' = tail qs)) /\
        queue_inv m' qa)).
Proof.
  intros Hinv.
  assert (Hfalse : q = None \/ (exists qa, q = Some qa /\ traversal m qa []) ->
    q_remove_head q sp bufsize m = Ok ((false, sp), m)).
  { intros [-> | (qa & -> & (qs & Hq & Hc))]; [done|].
    eapply q_remove_head_empty; eauto. }
  assert (Hrun : forall qa a l, q = Some qa -> traversal m qa (a :: l) ->
    exists qs e, queues m !! qa = Some qs /\ nodes m !! a = Some e /\
      repr m qa (a :: l) /\
      q_remove_head q sp bufsize m
        = match sp with
          | None => Ok ((true, None), removed m qa qs a e)
          | Some buf =>
              match copy_out buf (value e) bufsize with
              | Some buf' => Ok ((true, Some buf'), removed m qa qs a e)
              | None => Fault
              end
          end).
  { intros qa a l -> Htr.
    pose proof (wf_repr _ _ _ (Hinv qa eq_refl) Htr) as Hrepr.
    destruct Hrepr as (qs & Hq & Hc & Ht & Hs).
    pose proof Hc as [Hh (e & He & Hc')].
    exists qs, e. split; [done|]. split; [done|]. split.
    - exists qs. done.
    - by apply q_remove_head_run. }
  split; [exact Hfalse|]. split.
  - intros sp' m' Hres. destruct q as [qa|]; [|by left]. right.
    exists qa. split; [done|].
    destruct (wf_traversal _ _ (Hinv qa eq_refl)) as [[|a l] Htr]; [done|].
    destruct (Hrun qa a l eq_refl Htr) as (qs & e & _ & _ & _ & Hr).
    rewrite Hr in Hres. destruct sp as [buf|]; [|done].
    destruct (copy_out buf (value e) bufsize); done.
  - intros qa a l Eq Htr.
    destruct (Hrun qa a l Eq Htr) as (qs & e & Hq & He & Hrepr & Hr).
    pose proof (repr_removed m qa qs a e l Hq He Hrepr) as Hrepr'.
    split.
    { intros Hbuf. rewrite Hr. destruct sp as [buf|]; [|by eexists _, _].
      unfold buffer_ok in Hbuf. unfold copy_out.
      destruct (Z.ltb_spec (size_sub bufsize 1) (Z.of_nat (length buf)));
        [by eexists _, _ | lia]. }
    intros b sp' m' Hres. rewrite Hr in Hres.
    assert (Hm : b = true /\ m' = removed m qa qs a e).
    { destruct sp as [buf|]; [destruct (copy_out buf (value e) bufsize)|];
        by simplify_eq. }
    destruct Hm as [-> ->]. split; [done|].
    destruct Hrepr' as (qs' & Hq' & Hc' & Ht' & Hs').
    split; [by exists qs'|]. split; [done|].
    destruct Hrepr as (qs0 & Hq0 & Hc0 & Ht0 & Hs0).
    rewrite Hq in Hq0. injection Hq0 as <-.
    split; [|eapply repr_wf; by exists qs'].
    exists qs, qs'. split; [done|]. split; [done|].
    split; [by apply chain_ptr in Hc'|].
    split; [cbn [length] in Hs0; lia|].
    split; [by intros ->|].
    intros Hne. rewrite Ht', Ht0. by rewrite last_cons_ne.
Qed.

Lemma q_remove_head_result_witness :
  exists sp' m',
    q_remove_head (Some 1%positive) (Some (str "xxxx")) 3 mem_ba
      = Ok ((true, sp'), m').
Proof.
  destruct (q_remove_head_result mem_ba (Some 1%positive) (Some (str "xxxx")) 3)
    as (_ & _ & H).
  - intros qa [= <-]. eapply repr_wf, repr_mem_ba.
  - destruct (H 1%positive 2%positive [3%positive]) as [Hret _].
    + reflexivity.
    + eapply repr_traversal, repr_mem_ba.
    + apply Hret. reflexivity.
Defined.

(** ** Copying the removed string out *)

Lemma cstring_idem s : cstring (cstring s) = cstring s.
Proof.
  induction s as [|c s IH]; [done|]. simpl.
  destruct (is_NUL c) eqn:E; [done|]. simpl. by rewrite E, IH.
Qed.

Lemma replicate_shift {A} (x : A) k r :
  replicate k x ++ x :: r = x :: replicate k x ++ r.
Proof. induction k as [|k IH]; [done|]. simpl. by rewrite IH. Qed.

Lemma size_sub_1 cap : 1 <= cap -> cap < SIZE_MOD -> size_sub cap 1 = cap - 1.
Proof.
  intros H1 H2. unfold size_sub. apply Z.mod_small. lia.
Qed.

Lemma size_sub_0 : size_sub 0 1 = 2 ^ 64 - 1.
Proof. reflexivity. Qed.

Lemma copy_out_ok buf v cap :
  1 <= cap -> cap <= Z.of_nat (length buf) -> cap < SIZE_MOD ->
  exists rest,
    copy_out buf (cstring v) cap
      = Some (take (Z.to_nat (cap - 1)) (cstring v) ++ NUL :: rest).
Proof.
  intros H1 H2 H3. unfold copy_out. rewrite size_sub_1 by done.
  destruct (Z.ltb_spec (cap - 1) (Z.of_nat (length buf))); [|lia].
  unfold strncpy_bytes. rewrite cstring_idem, <- app_assoc, replicate_shift.
  by eexists.
Qed.

Lemma repr_mem_new : repr mem_new 1 [].
Proof. eexists. split; [reflexivity|]. done. Qed.

(** C9, as stated, fails for the capacity 0: after [q_insert_head] of "a"
    into the empty queue, [q_remove_head] with a four-byte buffer and
    [bufsize] 0 copies [2^64 - 1] bytes, which is outside the buffer. *)
Lemma roundtrip_capacity_zero :
  queue_inv mem_new 1 /\ traversal mem_new 1 [] /\
  0 < strlen (str "a") /\
  0 <= 0 <= Z.of_nat (length (str "xxxx")) /\
  ~ insert_remove_roundtrip mem_new 1 (str "a") (str "xxxx") 0.
Proof.
  split; [eapply repr_wf, repr_mem_new|].
  split; [eapply repr_traversal, repr_mem_new|].
  split; [done|]. split; [done|].
  intros (m1 & m2 & rest & H1 & H2).
  assert (Hins : q_insert_head (Some 1%positive) (Some (str "a")) mem_new
                 = Ok (true,
                       {| queues := {[ 1%positive :=
                                        mk_queue (Some 1%positive)
                                          (Some 1%positive) 1 ]};
                          nodes := {[ 1%positive := mk_ele (str "a") None ]};
                          oracle := [] |})) by (vm_compute; reflexivity).
  rewrite Hins in H1. injection H1 as <-.
  assert (Hrem : q_remove_head (Some 1%positive) (Some (str "xxxx")) 0
                   {| queues := {[ 1%positive :=
                                    mk_queue (Some 1%positive)
                                      (Some 1%positive) 1 ]};
                      nodes := {[ 1%positive := mk_ele (str "a") None ]};
                      oracle := [] |}
                 = Fault) by (vm_compute; reflexivity).
  pose proof (eq_trans (eq_sym Hrem) H2) as Hno. discriminate Hno.
Qed.

(** C9, amended: for a string [s] that insertion accepts, a queue that
    satisfies the invariants and is empty, and allocations that succeed,
    [q_insert_head] of [s] followed by [q_remove_head] with a buffer of at
    least [cap] bytes, for a [size_t] capacity [cap >= 1], succeeds
    whatever the length of [s], and the buffer then holds the first
    [cap - 1] characters of [s] (all of [s], if it is shorter) followed by
    NUL. *)
Theorem insert_remove_roundtrip_ok m qa s buf cap o :
  queue_inv m qa -> traversal m qa [] ->
  0 < strlen s ->
  oracle m = true :: true :: o ->
  1 <= cap -> cap <= Z.of_nat (length buf) -> cap < SIZE_MOD ->
  insert_remove_roundtrip m qa s buf cap.
Proof.
  intros Hinv Htr Hlen Ho H1 H2 H3.
  destruct Htr as (qs & Hq & Hc).
  destruct (copy_out_ok buf s cap H1 H2 H3) as (rest & Hcopy).
  unfold insert_remove_roundtrip.
  rewrite (q_insert_head_ok m qa qs s o Hq Hlen Ho).
  eexists. eexists. exists rest. split; [reflexivity|].
  erewrite (q_remove_head_run _ qa _ (fresh (dom (nodes m)))
              (mk_ele (cstring s) (head qs)) (Some buf) cap).
  - cbn [value]. rewrite Hcopy. reflexivity.
  - cbn [queues]. apply lookup_insert_eq.
  - reflexivity.
  - cbn [nodes]. apply lookup_insert_eq.
Qed.

Lemma insert_remove_roundtrip_ok_witness :
  insert_remove_roundtrip mem_new 1 (str "apple") (str "xxxx") 3.
Proof.
  apply (insert_remove_roundtrip_ok mem_new 1%positive (str "apple")
           (str "xxxx") 3 []).
  - eapply repr_wf, repr_mem_new.
  - eapply repr_traversal, repr_mem_new.
  - reflexivity.
  - reflexivity.
  - lia.
  - simpl. lia.
  - reflexivity.
Defined.

(** C10: the copy-out of [q_remove_head] needs [bufsize >= 1].  For
    [bufsize] 0 the length [bufsize - 1] wraps around to [2^64 - 1]; no
    buffer of fewer than [2^64] bytes has room for the copy and the
    terminator, and [q_remove_head] with such a buffer on a queue that is
    not empty is a fault.  Conversely, whenever the copy-out is inside the
    buffer, [bufsize] is at least 1 and at most the length of the
    buffer. *)
Theorem copy_out_needs_capacity :
  size_sub 0 1 = 2 ^ 64 - 1 /\
  (forall buf v, Z.of_nat (length buf) < SIZE_MOD -> copy_out buf v 0 = None) /\
  (forall buf v cap,
     0 <= cap < SIZE_MOD -> Z.of_nat (length buf) < SIZE_MOD ->
     is_Some (copy_out buf v cap) -> 1 <= cap <= Z.of_nat (length buf)) /\
  (forall m qa a l buf,
     queue_inv m qa -> traversal m qa (a :: l) ->
     Z.of_nat (length buf) < SIZE_MOD ->
     q_remove_head (Some qa) (Some buf) 0 m = Fault).
Proof.
  assert (Hzero : forall buf v, Z.of_nat (length buf) < SIZE_MOD ->
                                copy_out buf v 0 = None).
  { intros buf v Hlen. unfold copy_out. rewrite size_sub_0.
    destruct (Z.ltb_spec (2 ^ 64 - 1) (Z.of_nat (length buf))); [|done].
    unfold SIZE_MOD in Hlen. lia. }
  split; [reflexivity|]. split; [exact Hzero|]. split.
  - intros buf v cap Hcap Hlen [buf' Hsome].
    destruct (Z.eq_dec cap 0) as [-> | Hne].
    + rewrite Hzero in Hsome; done.
    + unfold copy_out in Hsome. rewrite size_sub_1 in Hsome by lia.
      destruct (Z.ltb_spec (cap - 1) (Z.of_nat (length buf))); [lia | done].
  - intros m qa a l buf Hinv Htr Hlen.
    destruct Htr as (qs & Hq & Hc). destruct Hc as [Hh (e & He & _)].
    rewrite (q_remove_head_run m qa qs a e _ _ Hq Hh He).
    by rewrite Hzero.
Qed.

Lemma copy_out_needs_capacity_witness :
  q_remove_head (Some 1%positive) (Some (str "xxxx")) 0 mem_ba = Fault.
Proof.
  destruct copy_out_needs_capacity as (_ & _ & _ & H).
  apply (H mem_ba 1%positive 2%positive [3%positive] (str "xxxx")).
  - eapply repr_wf, repr_mem_ba.
  - eapply repr_traversal, repr_mem_ba.
  - reflexivity.
Defined.

(** ** Merge sort on lists *)

Section ListSortFacts.
Context {A : Type} (leb : A -> A -> bool).
Hypothesis leb_total : forall a b, leb a b = false -> leb b a = true.
Hypothesis leb_trans :
  forall a b c, leb a b = true -> leb b c = true -> leb a c = true.

Let le (a b : A) : Prop := leb a b = true.

Lemma mergeL_nil_r (l : list A) : mergeL leb l [] = l.
Proof. by destruct l. Qed.

Lemma mergeL_nil_l (l : list A) : mergeL leb [] l = l.
Proof. by destruct l. Qed.

Lemma mergeL_cons (a b : A) l1 l2 :
  mergeL leb (a :: l1) (b :: l2)
  = if leb a b then a :: mergeL leb l1 (b :: l2)
    else b :: mergeL leb (a :: l1) l2.
Proof. done. Qed.

Lemma mergeL_perm (l1 : list A) : forall l2, mergeL leb l1 l2 ≡ₚ l1 ++ l2.
Proof.
  induction l1 as [|a l1 IH1]; intros l2; [by rewrite mergeL_nil_l|].
  induction l2 as [|b l2 IH2]; [by rewrite app_nil_r|].
  rewrite mergeL_cons. destruct (leb a b).
  - cbn [app]. by rewrite IH1.
  - rewrite IH2. by rewrite <- Permutation_middle.
Qed.

Lemma mergeL_sorted (l1 : list A) : forall l2,
  StronglySorted le l1 -> StronglySorted le l2 ->
  StronglySorted le (mergeL leb l1 l2).
Proof.
  induction l1 as [|a l1 IH1]; intros l2 H1 H2; [by rewrite mergeL_nil_l|].
  induction l2 as [|b l2 IH2]; [done|].
  rewrite mergeL_cons.
  apply StronglySorted_cons in H1 as [Ha H1].
  apply StronglySorted_cons in H2 as [Hb H2].
  destruct (leb a b) eqn:E.
  - apply StronglySorted_cons. split.
    + rewrite mergeL_perm. apply Forall_app. split; [done|].
      constructor; [done|].
      eapply Forall_impl; [exact Hb|]. intros x Hx. by eapply leb_trans.
    + apply IH1; [done|]. by apply StronglySorted_cons.
  - apply leb_total in E. apply StronglySorted_cons. split.
    + rewrite mergeL_perm. apply Forall_app. split; [|done].
      constructor; [done|].
      eapply Forall_impl; [exact Ha|]. intros x Hx. by eapply leb_trans.
    + apply IH2; done.
Qed.

Lemma filter_cons_bool (P : A -> bool) x l :
  List.filter P (x :: l) = if P x then x :: List.filter P l else List.filter P l.
Proof. done. Qed.

(** With the left list sorted, the merge keeps the members of a class of
    mutually not-greater elements in the order: left list, right list. *)
Lemma mergeL_filter (P : A -> bool) (l1 : list A) : forall l2,
  (forall x y, P x = true -> P y = true -> leb x y = true) ->
  StronglySorted le l1 ->
  List.filter P (mergeL leb l1 l2) = List.filter P l1 ++ List.filter P l2.
Proof.
  intros l2 HP. revert l2.
  induction l1 as [|a l1 IH1]; intros l2 H1; [by rewrite mergeL_nil_l|].
  induction l2 as [|b l2 IH2]; [by rewrite app_nil_r|].
  rewrite mergeL_cons. destruct (leb a b) eqn:E.
  - apply StronglySorted_cons in H1 as [_ H1].
    rewrite (filter_cons_bool P a), (filter_cons_bool P a l1), IH1 by done.
    destruct (P a); reflexivity.
  - rewrite (filter_cons_bool P b), (filter_cons_bool P b l2), IH2.
    destruct (P b) eqn:Eb; [|done].
    assert (Hnone : List.filter P (a :: l1) = []).
    { apply StronglySorted_cons in H1 as [Ha _].
      assert (Hall : Forall (fun x => P x = false) (a :: l1)).
      { constructor.
        - destruct (P a) eqn:Ea; [|done]. rewrite (HP a b Ea Eb) in E. done.
        - eapply Forall_impl; [exact Ha|]. intros x Hx.
          destruct (P x) eqn:Ex; [|done].
          rewrite (leb_trans a x b Hx (HP x b Ex Eb)) in E. done. }
      clear -Hall. induction Hall as [|x l Hx _ IH]; [done|].
      rewrite filter_cons_bool. by rewrite Hx. }
    by rewrite Hnone.
Qed.

Lemma mergeL_sorted_app (l1 : list A) : forall l2,
  StronglySorted le (l1 ++ l2) -> mergeL leb l1 l2 = l1 ++ l2.
Proof.
  induction l1 as [|a l1 IH]; intros l2 Hs; [by rewrite mergeL_nil_l|].
  destruct l2 as [|b l2]; [by rewrite app_nil_r|].
  rewrite mergeL_cons. cbn [app] in Hs.
  apply StronglySorted_cons in Hs as [Ha Hs].
  assert (E : leb a b = true).
  { rewrite Forall_app in Ha. destruct Ha as [_ Ha]. by inversion Ha. }
  rewrite E. cbn [app]. f_equal. by apply IH.
Qed.

Lemma left_length_lt (l : list A) :
  (2 <= length l)%nat -> (0 < left_length l < length l)%nat.
Proof.
  unfold left_length. destruct l as [|a l]; cbn [length tl]; [lia|].
  intros Hlen. rewrite Nat.div2_div.
  pose proof (Nat.div_lt (length l) 2). lia.
Qed.

Lemma msortL_unfold fuel (a b : A) l :
  msortL leb (S fuel) (a :: b :: l)
  = mergeL leb (msortL leb fuel (take (left_length (a :: b :: l)) (a :: b :: l)))
               (msortL leb fuel (drop (left_length (a :: b :: l)) (a :: b :: l))).
Proof. done. Qed.

Lemma msortL_perm fuel : forall l : list A, msortL leb fuel l ≡ₚ l.
Proof.
  induction fuel as [|f IH]; intros [|a [|b l]]; try done.
  rewrite msortL_unfold, mergeL_perm, !IH. by rewrite take_drop.
Qed.

Lemma msortL_sorted fuel : forall l : list A,
  (length l <= fuel)%nat -> StronglySorted le (msortL leb fuel l).
Proof.
  induction fuel as [|f IH]; intros [|a [|b l]] Hlen;
    try (simpl in Hlen; lia); try by repeat constructor.
  pose proof (left_length_lt (a :: b :: l)) as Hll.
  rewrite msortL_unfold. apply mergeL_sorted; apply IH.
  - rewrite length_take. cbn [length] in *. lia.
  - rewrite length_drop. cbn [length] in *. lia.
Qed.

Lemma msortL_filter (P : A -> bool) fuel : forall l : list A,
  (forall x y, P x = true -> P y = true -> leb x y = true) ->
  (length l <= fuel)%nat ->
  List.filter P (msortL leb fuel l) = List.filter P l.
Proof.
  induction fuel as [|f IH]; intros [|a [|b l]] HP Hlen;
    try (simpl in Hlen; lia); try done.
  pose proof (left_length_lt (a :: b :: l)) as Hll.
  rewrite msortL_unfold, mergeL_filter; [|done|].
  - rewrite !IH; [|done|rewrite length_drop|done|rewrite length_take];
      cbn [length] in *; try lia.
    rewrite <- List.filter_app. by rewrite take_drop.
  - apply msortL_sorted. rewrite length_take. cbn [length] in *. lia.
Qed.

Lemma msortL_sorted_id fuel : forall l : list A,
  StronglySorted le l -> msortL leb fuel l = l.
Proof.
  induction fuel as [|f IH]; intros [|a [|b l]] Hs; try done.
  rewrite msortL_unfold.
  rewrite <- (take_drop (left_length (a :: b :: l)) (a :: b :: l)) in Hs.
  rewrite !IH.
  - rewrite mergeL_sorted_app by done. apply take_drop.
  - by apply StronglySorted_app_1_r in Hs.
  - by apply StronglySorted_app_1_l in Hs.
Qed.
End ListSortFacts.

(** ** [merge] on chains *)

Lemma val_lookup h a e : h !! a = Some e -> val h a = value e.
Proof. intros He. unfold val. by rewrite He. Qed.

Lemma merge_rest_link fuel c ec left right x l m :
  left = None /\ right = Some x \/ left = Some x /\ right = None ->
  nodes m !! c = Some ec ->
  chain (nodes m) (Some x) l ->
  c ∉ l ->
  exists h',
    merge_rest fuel (Some c) left right m = Ok (tt, with_nodes m h') /\
    chain h' (Some c) (c :: l) /\
    same_values (nodes m) h' /\
    (forall a, a <> c -> h' !! a = nodes m !! a).
Proof.
  intros Hlr Hec Hc Hcl.
  exists (<[c := mk_ele (value ec) (Some x)]> (nodes m)).
  split; [|split; [|split]].
  - unfold merge_rest.
    destruct Hlr as [[-> ->] | [-> ->]]; destruct fuel; cbn [merge_loop];
      by runs.
  - split; [done|]. eexists. split; [apply lookup_insert_eq|].
    apply (chain_frame (nodes m)); [|done].
    intros y Hy. apply lookup_insert_ne. by intros <-.
  - by apply same_values_link.
  - intros y Hy. by apply lookup_insert_ne.
Qed.

Lemma merge_rest_spec v fuel : forall ll lr c left right m,
  chain (nodes m) left ll ->
  chain (nodes m) right lr ->
  (forall a, a ∈ ll -> a ∉ lr) ->
  c ∉ ll -> c ∉ lr ->
  is_Some (nodes m !! c) ->
  ll <> [] \/ lr <> [] ->
  (forall a, val (nodes m) a = v a) ->
  (length ll + length lr <= fuel)%nat ->
  exists h',
    merge_rest fuel (Some c) left right m = Ok (tt, with_nodes m h') /\
    chain h' (Some c) (c :: mergeL (vle v) ll lr) /\
    same_values (nodes m) h' /\
    (forall a, a <> c -> a ∉ ll -> a ∉ lr -> h' !! a = nodes m !! a).
Proof.
  induction fuel as [|f IH];
    intros ll lr c left right m Hl Hr Hd Hcl Hcr [ec Hec] Hne Hv Hf.
  all: destruct ll as [|a ll].
  1,3: simpl in Hl; subst left;
       destruct Hne as [?|Hne]; [done|];
       destruct lr as [|b lr]; [done|];
       pose proof Hr as [-> _];
       rewrite mergeL_nil_l;
       edestruct (merge_rest_link) as (h' & Hrun & Hc' & Hs' & Hf');
         [left; done | exact Hec | exact Hr | exact Hcr |];
       exists h'; (split; [exact Hrun|]); (split; [exact Hc'|]);
       (split; [exact Hs'|]); intros; by apply Hf'.
  all: destruct lr as [|b lr].
  1,3: simpl in Hr; subst right;
       pose proof Hl as [-> _];
       rewrite mergeL_nil_r;
       edestruct (merge_rest_link) as (h' & Hrun & Hc' & Hs' & Hf');
         [right; done | exact Hec | exact Hl | exact Hcl |];
       exists h'; (split; [exact Hrun|]); (split; [exact Hc'|]);
       (split; [exact Hs'|]); intros; by apply Hf'.
  1: simpl in Hf; lia.
  (* both have nodes *)
  pose proof (chain_NoDup _ _ _ Hl) as Hndl.
  pose proof (chain_NoDup _ _ _ Hr) as Hndr.
  apply NoDup_cons in Hndl as [Hal _]. apply NoDup_cons in Hndr as [Hbr _].
  destruct Hl as [-> (ea & Hea & Hl)]. destruct Hr as [-> (eb & Heb & Hr)].
  assert (Hca : c <> a) by (intros ->; apply Hcl; left).
  assert (Hcb : c <> b) by (intros ->; apply Hcr; left).
  assert (Hab : a <> b) by (intros ->; apply (Hd b); left).
  rewrite mergeL_cons. unfold vle at 1, str_le.
  rewrite <- !Hv, (val_lookup _ _ _ Hea), (val_lookup _ _ _ Heb).
  unfold merge_rest. cbn [merge_loop]. runs.
  destruct (strcasecmp (value ea) (value eb) <? 1) eqn:E;
    reduce; repeat (look; reduce).
  - set (h1 := <[c := mk_ele (value ec) (Some a)]> (nodes m)).
    destruct (IH ll (b :: lr) a (next ea) (Some b) (with_nodes m h1))
      as (h' & Hrun & Hc' & Hs' & Hf').
    + apply (chain_frame (nodes m)); [|done].
      intros x Hx. apply lookup_insert_ne. intros <-. apply Hcl. by right.
    + apply (chain_frame (nodes m)); [|by split; eauto].
      intros x Hx. apply lookup_insert_ne. by intros <-.
    + intros x Hx. apply Hd. by right.
    + done.
    + intros Hin. apply (Hd a); [left | done].
    + exists ea. cbn [nodes with_nodes]. unfold h1. by rewrite lookup_insert_ne.
    + by right.
    + intros x. cbn [nodes with_nodes]. rewrite <- Hv. apply val_same.
      by apply same_values_link.
    + simpl in Hf |- *. lia.
    + exists h'. split; [exact Hrun|]. split; [|split].
      * split; [done|]. exists (mk_ele (value ec) (Some a)). split; [|done].
        rewrite Hf'; [cbn [nodes with_nodes]; apply lookup_insert_eq | done | |].
        -- intros Hin. apply Hcl. by right.
        -- done.
      * eapply same_values_trans; [|exact Hs']. by apply same_values_link.
      * intros x Hxc Hxl Hxr. rewrite Hf'; cbn [nodes with_nodes]; unfold h1.
        -- by apply lookup_insert_ne.
        -- intros ->. apply Hxl. left.
        -- intros Hin. apply Hxl. by right.
        -- done.
  - set (h1 := <[c := mk_ele (value ec) (Some b)]> (nodes m)).
    destruct (IH (a :: ll) lr b (Some a) (next eb) (with_nodes m h1))
      as (h' & Hrun & Hc' & Hs' & Hf').
    + apply (chain_frame (nodes m)); [|by split; eauto].
      intros x Hx. apply lookup_insert_ne. by intros <-.
    + apply (chain_frame (nodes m)); [|done].
      intros x Hx. apply lookup_insert_ne. intros <-. apply Hcr. by right.
    + intros x Hx Hin. apply (Hd x Hx). by right.
    + intros Hin. apply (Hd b Hin). left.
    + done.
    + exists eb. cbn [nodes with_nodes]. unfold h1. by rewrite lookup_insert_ne.
    + by left.
    + intros x. cbn [nodes with_nodes]. rewrite <- Hv. apply val_same.
      by apply same_values_link.
    + simpl in Hf |- *. lia.
    + exists h'. split; [exact Hrun|]. split; [|split].
      * split; [done|]. exists (mk_ele (value ec) (Some b)). split; [|done].
        rewrite Hf'; [cbn [nodes with_nodes]; apply lookup_insert_eq | done | |].
        -- done.
        -- intros Hin. apply Hcr. by right.
      * eapply same_values_trans; [|exact Hs']. by apply same_values_link.
      * intros x Hxc Hxl Hxr. rewrite Hf'; cbn [nodes with_nodes]; unfold h1.
        -- by apply lookup_insert_ne.
        -- intros ->. apply Hxr. left.
        -- done.
        -- intros Hin. apply Hxr. by right.
Qed.

Lemma merge_spec v fuel ll lr left right m :
  chain (nodes m) left ll ->
  chain (nodes m) right lr ->
  (forall a, a ∈ ll -> a ∉ lr) ->
  (forall a, val (nodes m) a = v a) ->
  (length ll + length lr <= S fuel)%nat ->
  exists h',
    merge fuel left right m
      = Ok (hd_error (mergeL (vle v) ll lr), with_nodes m h') /\
    chain h' (hd_error (mergeL (vle v) ll lr)) (mergeL (vle v) ll lr) /\
    same_values (nodes m) h' /\
    (forall a, a ∉ ll -> a ∉ lr -> h' !! a = nodes m !! a).
Proof.
  intros Hl Hr Hd Hv Hf.
  destruct ll as [|a ll].
  { simpl in Hl. subst left. exists (nodes m).
    rewrite mergeL_nil_l, with_nodes_id, <- (chain_ptr _ _ _ Hr).
    repeat split; auto using same_values_refl. }
  destruct lr as [|b lr].
  { simpl in Hr. subst right. exists (nodes m).
    rewrite mergeL_nil_r, with_nodes_id, <- (chain_ptr _ _ _ Hl).
    destruct Hl as [-> Hl].
    repeat split; auto using same_values_refl. }
  pose proof (chain_NoDup _ _ _ Hl) as Hndl.
  pose proof (chain_NoDup _ _ _ Hr) as Hndr.
  apply NoDup_cons in Hndl as [Hal _]. apply NoDup_cons in Hndr as [Hbr _].
  pose proof Hl as [-> (ea & Hea & Hl')].
  pose proof Hr as [-> (eb & Heb & Hr')].
  assert (Hab : a <> b) by (intros ->; apply (Hd b); left).
  assert (Hle : vle v a b = (strcasecmp (value ea) (value eb) <? 1)).
  { unfold vle, str_le.
    by rewrite <- !Hv, (val_lookup _ _ _ Hea), (val_lookup _ _ _ Heb). }
  rewrite mergeL_cons, Hle.
  unfold merge. runs.
  destruct (strcasecmp (value ea) (value eb) <? 1) eqn:E;
    reduce; repeat (look; reduce); cbn [hd_error].
  - destruct (merge_rest_spec v fuel ll (b :: lr) a (next ea) (Some b) m)
      as (h' & Hrun & Hc' & Hs' & Hf'); try done.
    + intros x Hx. apply Hd. by right.
    + intros Hin. apply (Hd a); [left | done].
    + by right.
    + simpl in Hf |- *. lia.
    + exists h'. rewrite Hrun. reduce. split; [done|]. split; [done|].
      split; [done|]. intros x Hxl Hxr. apply Hf'.
      * intros ->. apply Hxl. left.
      * intros Hin. apply Hxl. by right.
      * done.
  - destruct (merge_rest_spec v fuel (a :: ll) lr b (Some a) (next eb) m)
      as (h' & Hrun & Hc' & Hs' & Hf'); try done.
    + intros x Hx Hin. apply (Hd x Hx). by right.
    + intros Hin. apply (Hd b Hin). left.
    + by left.
    + simpl in Hf |- *. lia.
    + exists h'. rewrite Hrun. reduce. split; [done|]. split; [done|].
      split; [done|]. intros x Hxl Hxr. apply Hf'.
      * intros ->. apply Hxr. left.
      * done.
      * intros Hin. apply Hxr. by right.
Qed.

(** ** [merge_sort] on chains *)

Lemma split_loop_spec fuel : forall lf ls fast slow m,
  chain (nodes m) fast lf ->
  chain (nodes m) slow ls ->
  (Nat.div2 (length lf) < length ls)%nat ->
  (Nat.div2 (length lf) <= fuel)%nat ->
  split_loop fuel fast slow m
    = Ok (hd_error (drop (Nat.div2 (length lf)) ls), m).
Proof.
  induction fuel as [|f IH]; intros lf ls fast slow m Hf Hs Hlt Hfuel;
    destruct lf as [|x [|y lf]];
    try (cbn [length Nat.div2] in Hfuel; by apply Nat.nle_succ_0 in Hfuel).
  1,3: simpl in Hf; subst fast; cbn [split_loop];
       by rewrite (chain_ptr _ _ _ Hs).
  1,2: destruct Hf as [-> (ex & Hex & Hnx)]; simpl in Hnx;
       cbn [split_loop]; runs; rewrite Hnx;
       by rewrite (chain_ptr _ _ _ Hs).
  destruct Hf as [-> (ex & Hex & [Hnx (ey & Hey & Hf)])].
  cbn [length Nat.div2] in *.
  destruct ls as [|s ls]; [by apply Nat.nlt_0_r in Hlt|].
  destruct Hs as [-> (es & Hes & Hs)].
  cbn [split_loop]. runs. rewrite Hnx. reduce. repeat (look; reduce).
  cbn [drop skipn]. apply IH; try done.
  - cbn [length] in Hlt. by apply Nat.succ_lt_mono.
  - by apply Nat.succ_le_mono.
Qed.

Lemma elem_of_take_drop {A} (l : list A) k x :
  x ∈ l <-> x ∈ take k l \/ x ∈ drop k l.
Proof. by rewrite <- elem_of_app, take_drop. Qed.

Lemma merge_sort_spec v fuel : forall l hd m,
  chain (nodes m) hd l ->
  (forall a, val (nodes m) a = v a) ->
  (length l <= fuel)%nat ->
  exists h',
    merge_sort fuel hd m
      = Ok (hd_error (msortL (vle v) fuel l), with_nodes m h') /\
    chain h' (hd_error (msortL (vle v) fuel l)) (msortL (vle v) fuel l) /\
    same_values (nodes m) h' /\
    (forall a, a ∉ l -> h' !! a = nodes m !! a).
Proof.
  induction fuel as [|f IH]; intros l hd m Hc Hv Hlen;
    destruct l as [|a [|b l2]]; try (simpl in Hlen; lia).
  1,2: simpl in Hc; subst hd; exists (nodes m); rewrite with_nodes_id;
       repeat split; auto using same_values_refl.
  { destruct Hc as [-> (ea & Hea & Hnx)]. simpl in Hnx.
    exists (nodes m). rewrite with_nodes_id. cbn [merge_sort msortL hd_error].
    runs. rewrite Hnx.
    split; [done|]. split; [by split; eauto|].
    split; auto using same_values_refl. }
  set (l := a :: b :: l2) in *.
  pose proof (chain_NoDup _ _ _ Hc) as Hnd.
  assert (Hll : (0 < left_length l < length l)%nat)
    by (apply left_length_lt; simpl; lia).
  remember (Nat.div2 (length (b :: l2))) as k0 eqn:Ek0.
  assert (Hk : left_length l = S k0) by (by rewrite Ek0).
  rewrite Hk in Hll.
  destruct (lookup_lt_is_Some_2 l k0) as [s Hs]; [lia|].
  pose proof (take_S_r _ _ _ Hs) as Htake.
  pose proof (take_drop_middle _ _ _ Hs) as Hmid.
  destruct (chain_lookup_next _ _ _ _ _ Hc Hs) as (es & Hes & Hsn).
  assert (Hcl : chain (nodes m) (Some a) (take k0 l ++ s :: drop (S k0) l))
    by (rewrite Hmid; destruct Hc as [-> ?]; by split).
  assert (Hdisj : forall x, x ∈ take (S k0) l -> x ∉ drop (S k0) l).
  { rewrite <- (take_drop (S k0) l) in Hnd.
    by apply NoDup_app in Hnd as (_ & Hd & _). }
  assert (Hsin : s ∈ take (S k0) l).
  { rewrite Htake. apply elem_of_app. right. left. }
  assert (Hnd0 : NoDup (take k0 l ++ [s])).
  { rewrite <- Htake. rewrite <- (take_drop (S k0) l) in Hnd.
    by apply NoDup_app in Hnd as (? & _ & _). }
  pose proof Hc as [-> (ea & Hea & [Hnx (eb & Heb & Hc2)])].
  destruct m as [Q N O]. cbn [nodes] in *.
  set (h1 := <[s := mk_ele (value es) None]> N).
  assert (Hs1 : same_values N h1) by (by apply same_values_link).
  (* the two halves, after the cut *)
  assert (Hleft : chain h1 (Some a) (take (S k0) l)).
  { rewrite Htake.
    eapply (chain_redirect N h1 (take k0 l) (Some a) s (drop (S k0) l) []).
    - exact Hcl.
    - intros x Hx. apply lookup_insert_ne. intros <-.
      apply NoDup_app in Hnd0 as (_ & Hd & _). apply (Hd s Hx). left.
    - apply lookup_insert_eq.
    - done. }
  assert (Hright : chain h1 (next es) (drop (S k0) l)).
  { apply (chain_frame N).
    - intros x Hx. apply lookup_insert_ne. intros <-. by apply (Hdisj s).
    - rewrite Hsn. apply (chain_suffix N (take k0 l ++ [s]) (Some a)).
      by rewrite <- app_assoc. }
  (* sorting the left half *)
  destruct (IH (take (S k0) l) (Some a) (mk_mem Q h1 O))
    as (h2 & Hrun2 & Hc2' & Hs2 & Hf2).
  { exact Hleft. }
  { intros x. cbn [nodes]. rewrite <- Hv. by apply val_same. }
  { rewrite length_take. lia. }
  unfold with_nodes in Hrun2. cbn [queues nodes oracle] in Hrun2, Hs2, Hf2.
  (* sorting the right half *)
  destruct (IH (drop (S k0) l) (next es) (mk_mem Q h2 O))
    as (h3 & Hrun3 & Hc3' & Hs3 & Hf3).
  { apply (chain_frame h1); [|exact Hright].
    intros x Hx. apply Hf2. intros Hin. by apply (Hdisj x). }
  { intros x. cbn [nodes]. rewrite <- Hv.
    rewrite (val_same h1 h2), (val_same N h1); done. }
  { rewrite length_drop. lia. }
  unfold with_nodes in Hrun3. cbn [queues nodes oracle] in Hrun3, Hs3, Hf3.
  set (L := msortL (vle v) f (take (S k0) l)) in *.
  set (R := msortL (vle v) f (drop (S k0) l)) in *.
  assert (HL : L ≡ₚ take (S k0) l) by apply msortL_perm.
  assert (HR : R ≡ₚ drop (S k0) l) by apply msortL_perm.
  (* merging *)
  destruct (merge_spec v f L R (hd_error L) (hd_error R) (mk_mem Q h3 O))
    as (h4 & Hrun4 & Hc4 & Hs4 & Hf4).
  { apply (chain_frame h2); [|exact Hc2'].
    intros x Hx. apply Hf3. rewrite HL in Hx. by apply Hdisj. }
  { exact Hc3'. }
  { intros x. rewrite HL, HR. apply Hdisj. }
  { intros x. cbn [nodes]. rewrite <- Hv.
    rewrite (val_same h2 h3), (val_same h1 h2), (val_same N h1); done. }
  { rewrite HL, HR, <- length_app, take_drop. done. }
  unfold with_nodes in Hrun4. cbn [queues nodes oracle] in Hrun4, Hs4, Hf4.
  assert (Hms : msortL (vle v) (S f) l = mergeL (vle v) L R).
  { subst L R. rewrite <- Hk. reflexivity. }
  exists h4. rewrite Hms.
  split; [|split; [exact Hc4|split]].
  - cbn [merge_sort]. runs. rewrite Hnx. reduce.
    rewrite (split_loop_spec f (b :: l2) l (Some b) (Some a) (mk_mem Q N O));
      [| by split; eauto | exact Hc | rewrite <- Ek0; lia | rewrite <- Ek0; lia].
    rewrite <- Ek0, hd_drop_lookup, Hs. reduce. repeat (look; reduce).
    unfold with_nodes. cbn [queues nodes oracle]. fold h1.
    rewrite Hrun2. reduce. rewrite Hrun3. reduce. exact Hrun4.
  - repeat (eapply same_values_trans; [|eassumption]). done.
  - intros x Hx.
    assert (Hxd : (x ∉ take (S k0) l) /\ (x ∉ drop (S k0) l)).
    { split; intros Hin; apply Hx; apply (elem_of_take_drop l (S k0)); auto. }
    destruct Hxd as [Hxt Hxd].
    rewrite Hf4, Hf3, Hf2; [| done | done | by rewrite HL | by rewrite HR].
    apply lookup_insert_ne. intros <-. done.
Qed.

(** ** [q_sort] *)

Lemma queue_eta qs : mk_queue (head qs) (tail qs) (size qs) = qs.
Proof. by destruct qs. Qed.

Lemma tail_loop_spec fuel : forall lt qs m qa,
  queues m !! qa = Some qs ->
  chain (nodes m) (tail qs) lt ->
  (length lt <= S fuel)%nat ->
  tail_loop fuel (Some qa) m
    = Ok (tt, with_queues m
                (<[qa := mk_queue (head qs) (last lt) (size qs)]> (queues m))).
Proof.
  induction fuel as [|f IH]; intros lt qs m qa Hq Hc Hlen;
    destruct lt as [|x [|y lt]]; try (simpl in Hlen; lia).
  1,3: simpl in Hc; cbn [tail_loop last]; runs; rewrite Hc; reduce;
       rewrite <- Hc, queue_eta, insert_id, with_queues_id; done.
  1,2: destruct Hc as [Ht (ex & Hex & Hnx)]; simpl in Hnx;
       cbn [tail_loop last]; runs; rewrite Ht; reduce; look; reduce;
       rewrite Hnx; reduce;
       rewrite <- Ht, queue_eta, insert_id, with_queues_id; done.
  destruct Hc as [Ht (ex & Hex & [Hnx (ey & Hey & Hc)])].
  cbn [tail_loop]. runs. rewrite Ht. reduce. look. reduce.
  rewrite Hnx. reduce. look. reduce.
  rewrite (IH (y :: lt) (mk_queue (head qs) (Some y) (size qs))).
  - unfold with_queues. cbn [queues nodes oracle head tail size].
    rewrite insert_insert_eq. done.
  - cbn [queues]. apply lookup_insert_eq.
  - cbn [tail nodes]. split; [done|]. eauto.
  - simpl in *. lia.
Qed.

Lemma msortL_short {A} (leb : A -> A -> bool) fuel (l : list A) :
  (length l <= 1)%nat -> msortL leb fuel l = l.
Proof.
  destruct l as [|a [|b l]]; simpl; try lia; by destruct fuel.
Qed.

Lemma q_sort_run v m qa l fuel :
  repr m qa l ->
  (forall a, val (nodes m) a = v a) ->
  (length l <= fuel)%nat ->
  exists h',
    q_sort fuel (Some qa) m
      = Ok (tt, mk_mem (<[qa := mk_queue (hd_error (msortL (vle v) fuel l))
                                  (last (msortL (vle v) fuel l))
                                  (Z.of_nat (length l))]> (queues m))
                       h' (oracle m)) /\
    chain h' (hd_error (msortL (vle v) fuel l)) (msortL (vle v) fuel l) /\
    same_values (nodes m) h' /\
    (forall a, a ∉ l -> h' !! a = nodes m !! a).
Proof.
  intros (qs & Hq & Hc & Ht & Hs) Hv Hlen.
  pose proof (chain_ptr _ _ _ Hc) as Hh.
  destruct qs as [hq tq sq]. cbn [head tail size] in *. subst hq tq sq.
  destruct (decide (length l <= 1)%nat) as [Hl|Hl].
  { exists (nodes m). rewrite msortL_short by done.
    rewrite insert_id by done.
    split; [|split; [done|split; [apply same_values_refl|done]]].
    unfold q_sort. runs.
    destruct l as [|a [|b l]]; [by destruct m | | simpl in Hl; lia].
    cbn [hd_error last]. reduce. look. reduce.
    unfold ptr_eqb. rewrite bool_decide_eq_true_2 by done. by destruct m. }
  destruct l as [|a [|b l2]]; [simpl in Hl; lia ..|]. clear Hl.
  set (l := a :: b :: l2) in *.
  destruct (merge_sort_spec v fuel l (Some a) m Hc Hv Hlen)
    as (h' & Hrun & Hc' & Hs' & Hf').
  exists h'. split; [|done].
  set (L := msortL (vle v) fuel l) in *.
  assert (Hne : ptr_eqb (Some a) (last l) = false).
  { unfold ptr_eqb. apply bool_decide_eq_false_2.
    pose proof (chain_NoDup _ _ _ Hc) as Hnd.
    apply NoDup_cons in Hnd as [Ha _].
    unfold l. rewrite last_cons_ne by done.
    intros Heq. symmetry in Heq. by apply last_elem_of in Heq. }
  unfold q_sort. runs. change (hd_error l) with (Some a).
  reduce. repeat (look; reduce).
  rewrite Hne, Hrun. reduce. repeat (look; reduce).
  rewrite insert_insert_eq.
  rewrite (tail_loop_spec fuel L
             (mk_queue (hd_error L) (hd_error L) (Z.of_nat (length l)))).
  - unfold with_queues, with_nodes. cbn [queues nodes oracle head tail size].
    rewrite !insert_insert_eq. done.
  - cbn [queues]. apply lookup_insert_eq.
  - cbn [tail nodes]. exact Hc'.
  - unfold L. rewrite msortL_perm. lia.
Qed.

Lemma vle_total v a b : vle v a b = false -> vle v b a = true.
Proof. apply str_le_total. Qed.

Lemma vle_trans v a b c :
  vle v a b = true -> vle v b c = true -> vle v a c = true.
Proof. apply str_le_trans. Qed.

Lemma str_le_ci s t : str_le s t = true <-> ci_le s t.
Proof. unfold str_le, ci_le. lia. Qed.

Lemma sorted_payloads v (l : list positive) :
  StronglySorted (fun a b => vle v a b = true) l <->
  StronglySorted ci_le (map v l).
Proof.
  induction l as [|a l IH]; [split; constructor|].
  cbn [map]. rewrite !StronglySorted_cons, IH, Forall_map.
  split; intros [Hall ?]; (split; [|done]);
    (eapply Forall_impl; [exact Hall|]); intros b; cbn; apply str_le_ci.
Qed.

Lemma payloads_same m m' l :
  same_values (nodes m) (nodes m') -> payloads m' l = payloads m l.
Proof.
  intros Hs. unfold payloads. apply map_ext. intros a. by apply val_same.
Qed.

(** What [q_sort] leaves: the queue holds the nodes in merge-sort order,
    the payloads are where they were, nothing is allocated or freed. *)
Lemma q_sort_result fuel m qa l :
  queue_inv m qa -> traversal m qa l -> (length l <= fuel)%nat ->
  exists m',
    q_sort fuel (Some qa) m = Ok (tt, m') /\
    repr m' qa (msortL (vle (val (nodes m))) fuel l) /\
    same_values (nodes m) (nodes m') /\
    (forall a, a ∉ l -> nodes m' !! a = nodes m !! a) /\
    oracle m' = oracle m.
Proof.
  intros Hinv Htr Hlen.
  pose proof (wf_repr _ _ _ Hinv Htr) as Hrepr.
  destruct (q_sort_run (val (nodes m)) m qa l fuel Hrepr) as
    (h' & Hrun & Hc' & Hs' & Hf'); [done | done |].
  eexists. split; [exact Hrun|]. cbn [nodes oracle].
  split; [|done].
  eexists. split; [apply lookup_insert_eq|]. cbn [head tail size nodes].
  split; [done|]. split; [done|]. by rewrite msortL_perm.
Qed.

(** C1: on a queue that satisfies the invariants, [q_sort] returns (given
    fuel for the nodes); the traversal from the head then visits the same
    nodes, every node holds the payload it held before, the payloads in
    traversal order are non-decreasing under [strcasecmp], and they are a
    permutation of the payloads before the call.  On [NULL] it does
    nothing. *)
Theorem q_sort_correct fuel m qa l :
  queue_inv m qa -> traversal m qa l -> (length l <= fuel)%nat ->
  q_sort fuel None m = Ok (tt, m) /\
  exists m' l',
    q_sort fuel (Some qa) m = Ok (tt, m') /\
    traversal m' qa l' /\
    StronglySorted ci_le (payloads m' l') /\
    payloads m' l' ≡ₚ payloads m l /\
    l' ≡ₚ l /\
    same_values (nodes m) (nodes m').
Proof.
  intros Hinv Htr Hlen. split; [done|].
  destruct (q_sort_result fuel m qa l Hinv Htr Hlen)
    as (m' & Hrun & Hrepr & Hs & _).
  exists m', (msortL (vle (val (nodes m))) fuel l).
  split; [done|]. split; [by apply repr_traversal|].
  rewrite (payloads_same m m') by done.
  split; [|split; [|split; [|done]]].
  - unfold payloads. apply (proj1 (sorted_payloads _ _)).
    apply msortL_sorted; [apply vle_total | apply vle_trans | done].
  - unfold payloads. apply Permutation_map, msortL_perm.
  - apply msortL_perm.
Qed.

Lemma q_sort_correct_witness :
  exists m' l',
    q_sort 2 (Some 1%positive) mem_ba = Ok (tt, m') /\
    traversal m' 1 l' /\
    StronglySorted ci_le (payloads m' l').
Proof.
  destruct (q_sort_correct 2 mem_ba 1%positive [2; 3]%positive)
    as (_ & m' & l' & Hrun & Htr & Hsorted & _).
  - eapply repr_wf, repr_mem_ba.
  - eapply repr_traversal, repr_mem_ba.
  - simpl. lia.
  - exists m', l'. split; [exact Hrun|]. split; [exact Htr | exact Hsorted].
Defined.

Lemma strcasecmp_refl s : strcasecmp s s = 0.
Proof. pose proof (strcasecmp_swap s s). lia. Qed.

Lemma filter_split {A} (P : A -> bool) (l : list A) : forall m1 x m2,
  List.filter P l = m1 ++ x :: m2 ->
  exists l1 l2,
    l = l1 ++ x :: l2 /\ List.filter P l1 = m1 /\ List.filter P l2 = m2.
Proof.
  induction l as [|y l IH]; intros m1 x m2 Hf.
  - by destruct m1.
  - cbn [List.filter] in Hf. destruct (P y) eqn:Ey.
    + destruct m1 as [|z m1]; cbn [app] in Hf; injection Hf as -> Hf.
      * exists [], l. done.
      * destruct (IH _ _ _ Hf) as (l1 & l2 & -> & H1 & H2).
        exists (z :: l1), l2. cbn [List.filter app]. rewrite Ey, H1. done.
    + destruct (IH _ _ _ Hf) as (l1 & l2 & -> & H1 & H2).
      exists (y :: l1), l2. cbn [List.filter app]. rewrite Ey. done.
Qed.

Lemma before_filter {A} (P : A -> bool) (l : list A) a b :
  before (List.filter P l) a b -> before l a b.
Proof.
  intros (m1 & m2 & m3 & Hf).
  destruct (filter_split P l _ _ _ Hf) as (l1 & l' & -> & _ & Hf').
  destruct (filter_split P l' _ _ _ Hf') as (l2 & l3 & -> & _ & _).
  by exists l1, l2, l3.
Qed.

Lemma filter_before {A} (P : A -> bool) (l : list A) a b :
  P a = true -> P b = true -> before l a b -> before (List.filter P l) a b.
Proof.
  intros Ha Hb (l1 & l2 & l3 & ->).
  exists (List.filter P l1), (List.filter P l2), (List.filter P l3).
  rewrite List.filter_app. cbn [List.filter]. rewrite Ha, List.filter_app.
  cbn [List.filter]. by rewrite Hb.
Qed.

(** C3: [q_sort] is stable.  For every string [k], the nodes whose payload
    compares equal to [k] under [strcasecmp] are met in the same order by
    the traversal after the call as by the traversal before it; so two
    nodes whose payloads compare equal are met after the call in the order
    in which they were met before it (and every node holds the payload it
    held before). *)
Theorem q_sort_stable fuel m qa l :
  queue_inv m qa -> traversal m qa l -> (length l <= fuel)%nat ->
  exists m' l',
    q_sort fuel (Some qa) m = Ok (tt, m') /\
    traversal m' qa l' /\
    same_values (nodes m) (nodes m') /\
    (forall k,
       List.filter (fun a => str_eq (val (nodes m') a) k) l'
       = List.filter (fun a => str_eq (val (nodes m) a) k) l) /\
    (forall a b,
       str_eq (val (nodes m) a) (val (nodes m) b) = true ->
       before l a b -> before l' a b).
Proof.
  intros Hinv Htr Hlen.
  destruct (q_sort_result fuel m qa l Hinv Htr Hlen)
    as (m' & Hrun & Hrepr & Hs & _).
  exists m', (msortL (vle (val (nodes m))) fuel l).
  split; [done|]. split; [by apply repr_traversal|]. split; [done|].
  assert (Hst : forall k,
    List.filter (fun a => str_eq (val (nodes m) a) k)
      (msortL (vle (val (nodes m))) fuel l)
    = List.filter (fun a => str_eq (val (nodes m) a) k) l).
  { intros k.
    apply msortL_filter; [apply vle_total | apply vle_trans | | done].
    intros x y Hx Hy. unfold vle.
    eapply str_le_trans; [by apply str_eq_le | by apply str_eq_ge]. }
  split.
  - intros k. rewrite <- Hst. apply List.filter_ext.
    intros a. by rewrite (val_same _ _ a Hs).
  - intros a b Hab Hbefore.
    apply (before_filter (fun x => str_eq (val (nodes m) x) (val (nodes m) b))).
    rewrite Hst. apply filter_before; [done | | done].
    unfold str_eq. by rewrite strcasecmp_refl.
Qed.

Lemma repr_mem_ties : repr mem_ties 1 [2; 3; 4; 5]%positive.
Proof.
  eexists. split; [reflexivity|]. cbn [head tail size].
  split; [|split; reflexivity].
  split; [reflexivity|]. eexists. split; [reflexivity|]. cbn [next].
  split; [reflexivity|]. eexists. split; [reflexivity|]. cbn [next].
  split; [reflexivity|]. eexists. split; [reflexivity|]. cbn [next].
  split; [reflexivity|]. eexists. split; [reflexivity|]. reflexivity.
Qed.

Lemma q_sort_stable_witness :
  str_eq (str "A") (str "a") = true /\
  str_eq (str "b") (str "B") = true /\
  exists m' l',
    q_sort 4 (Some 1%positive) mem_ties = Ok (tt, m') /\
    traversal m' 1 l' /\
    List.filter (fun a => str_eq (val (nodes m') a) (str "a")) l'
    = [3; 4]%positive /\
    List.filter (fun a => str_eq (val (nodes m') a) (str "b")) l'
    = [2; 5]%positive /\
    before l' 3%positive 4%positive /\
    before l' 2%positive 5%positive.
Proof.
  split; [reflexivity|]. split; [reflexivity|].
  destruct (q_sort_stable 4 mem_ties 1%positive [2; 3; 4; 5]%positive)
    as (m' & l' & Hrun & Htr & _ & Hst & Hbefore).
  - eapply repr_wf, repr_mem_ties.
  - eapply repr_traversal, repr_mem_ties.
  - simpl. lia.
  - exists m', l'. split; [exact Hrun|]. split; [exact Htr|].
    split; [rewrite Hst; reflexivity|].
    split; [rewrite Hst; reflexivity|].
    split.
    + apply Hbefore; [reflexivity|].
      by exists [2%positive], [], [5%positive].
    + apply Hbefore; [reflexivity|].
      by exists [], [3; 4]%positive, [].
Defined.

Lemma q_sort_sorted_id fuel m qa l :
  queue_inv m qa -> traversal m qa l -> (length l <= fuel)%nat ->
  StronglySorted ci_le (payloads m l) ->
  q_sort fuel (Some qa) m = Ok (tt, m).
Proof.
  intros Hinv Htr Hlen Hsorted.
  pose proof (wf_repr _ _ _ Hinv Htr) as Hrepr.
  destruct (q_sort_run (val (nodes m)) m qa l fuel Hrepr) as
    (h' & Hrun & Hc' & Hs' & Hf'); [done | done |].
  rewrite msortL_sorted_id in Hrun, Hc'
    by (by apply sorted_payloads).
  destruct Hrepr as (qs & Hq & Hc & Ht & Hs).
  rewrite Hrun. do 2 f_equal.
  assert (Hh : h' = nodes m).
  { apply (heap_eq (nodes m) h' l (hd_error l)); try done.
    by rewrite <- (chain_ptr _ _ _ Hc). }
  rewrite Hh, <- (chain_ptr _ _ _ Hc), <- Ht, <- Hs, queue_eta, insert_id by done.
  by destruct m.
Qed.

(** C8: [q_sort] is idempotent.  On a queue that satisfies the invariants
    and whose payloads are already in non-decreasing order, [q_sort]
    returns the memory unchanged; and for every queue that satisfies the
    invariants, a second [q_sort] returns the memory the first one left. *)
Theorem q_sort_idempotent fuel m qa l :
  queue_inv m qa -> traversal m qa l -> (length l <= fuel)%nat ->
  (StronglySorted ci_le (payloads m l) ->
   q_sort fuel (Some qa) m = Ok (tt, m)) /\
  exists m1,
    q_sort fuel (Some qa) m = Ok (tt, m1) /\
    q_sort fuel (Some qa) m1 = Ok (tt, m1).
Proof.
  intros Hinv Htr Hlen. split; [by apply q_sort_sorted_id|].
  destruct (q_sort_result fuel m qa l Hinv Htr Hlen)
    as (m1 & Hrun & Hrepr & Hs & _).
  exists m1. split; [done|].
  apply (q_sort_sorted_id fuel m1 qa (msortL (vle (val (nodes m))) fuel l)).
  - by eapply repr_wf.
  - by apply repr_traversal.
  - by rewrite msortL_perm.
  - rewrite (payloads_same m m1) by done.
    unfold payloads. apply (proj1 (sorted_payloads _ _)).
    apply msortL_sorted; [apply vle_total | apply vle_trans | done].
Qed.

Lemma q_sort_idempotent_witness :
  exists m1,
    q_sort 2 (Some 1%positive) mem_ba = Ok (tt, m1) /\
    q_sort 2 (Some 1%positive) m1 = Ok (tt, m1).
Proof.
  destruct (q_sort_idempotent 2 mem_ba 1%positive [2; 3]%positive)
    as (_ & m1 & H1 & H2).
  - eapply repr_wf, repr_mem_ba.
  - eapply repr_traversal, repr_mem_ba.
  - simpl. lia.
  - exists m1. split; [exact H1 | exact H2].
Defined.

(** ** The invariants are preserved *)

Lemma q_reverse_repr fuel m qa l :
  repr m qa l -> (length l <= fuel)%nat ->
  exists m', q_reverse fuel (Some qa) m = Ok (tt, m') /\ repr m' qa (rev l).
Proof.
  intros (qs & Hq & Hc & Ht & Hs) Hlen.
  destruct l as [|a l'].
  { exists m. split; [|by exists qs].
    eapply q_reverse_empty; [done|]. by apply chain_ptr in Hc. }
  destruct (q_reverse_run m qa qs (a :: l') fuel) as (h' & Hrun & Hc' & _);
    try done.
  eexists. split; [exact Hrun|].
  eexists. split; [apply lookup_insert_eq|]. cbn [head tail size nodes].
  split; [done|]. rewrite length_rev. split; [|done].
  rewrite (chain_ptr _ _ _ Hc). cbn [rev hd_error]. by rewrite last_snoc.
Qed.

Lemma q_remove_head_repr m qa a l sp bufsize :
  repr m qa (a :: l) -> buffer_ok sp bufsize ->
  exists sp' m',
    q_remove_head (Some qa) sp bufsize m = Ok ((true, sp'), m') /\
    repr m' qa l.
Proof.
  intros Hrepr Hbuf. pose proof Hrepr as (qs & Hq & Hc & Ht & Hs).
  pose proof Hc as [Hh (e & He & _)].
  rewrite (q_remove_head_run m qa qs a e sp bufsize Hq Hh He).
  pose proof (repr_removed m qa qs a e l Hq He Hrepr) as Hrepr'.
  destruct sp as [buf|]; [|by eexists _, _].
  unfold buffer_ok in Hbuf. unfold copy_out.
  destruct (Z.ltb_spec (size_sub bufsize 1) (Z.of_nat (length buf)));
    [by eexists _, _ | lia].
Qed.


Lemma queue_inv_oracle m o qa : queue_inv m qa -> queue_inv (with_oracle m o) qa.
Proof. intros (qs & Hq & Hwf). by exists qs. Qed.

Lemma ops_run_inv fuel o m qa :
  queue_inv m qa ->
  op_ok o ->
  (forall l, traversal m qa l -> (length l <= fuel)%nat) ->
  exists m',
    run_op fuel o (Some qa) m = Ok (tt, m') /\
    queue_inv m' qa.
Proof.
  intros Hinv Hok Hfuel.
  destruct (wf_traversal _ _ Hinv) as [l Htr].
  pose proof (wf_repr _ _ _ Hinv Htr) as Hrepr.
  pose proof (Hfuel l Htr) as Hlen.
  pose proof Hrepr as (qs & Hq & Hc & Ht & Hs).
  destruct o as [s | s | sp bufsize | |]; cbn [run_op].
  - (* InsertHead *)
    destruct (string_cases s) as [Hs0 | (str & -> & Hstr)];
      [|destruct (allocation_cases m) as [Hf | (o & Ho)]].
    + destruct (q_insert_fail_head m qa s (or_introl Hs0)) as (o & Hrun).
      exists (with_oracle m o). unfold bind. rewrite Hrun.
      split; [done | by apply queue_inv_oracle].
    + destruct (q_insert_fail_head m qa (Some str) (or_intror Hf)) as (o & Hrun).
      exists (with_oracle m o). unfold bind. rewrite Hrun.
      split; [done | by apply queue_inv_oracle].
    + eexists. unfold bind.
      rewrite (q_insert_head_ok m qa qs str o Hq Hstr Ho).
      split; [reflexivity|]. eapply repr_wf. by apply repr_insert_head.
  - (* InsertTail *)
    destruct (string_cases s) as [Hs0 | (str & -> & Hstr)];
      [|destruct (allocation_cases m) as [Hf | (o & Ho)]].
    + destruct (q_insert_fail_tail m qa s (or_introl Hs0)) as (o & Hrun).
      exists (with_oracle m o). unfold bind. rewrite Hrun.
      split; [done | by apply queue_inv_oracle].
    + destruct (q_insert_fail_tail m qa (Some str) (or_intror Hf)) as (o & Hrun).
      exists (with_oracle m o). unfold bind. rewrite Hrun.
      split; [done | by apply queue_inv_oracle].
    + eexists. unfold bind.
      rewrite (q_insert_tail_ok m qa qs str o Hq); [|  | done | done].
      * split; [reflexivity|]. eapply repr_wf. by apply repr_insert_tail.
      * intros t Et. rewrite Ht in Et.
        destruct (chain_last_next _ _ _ _ Hc Et) as (e & He & _). by exists e.
  - (* RemoveHead *)
    destruct l as [|a l'].
    + exists m. unfold bind.
      rewrite (q_remove_head_empty m qa qs sp bufsize Hq);
        [done | by apply chain_ptr in Hc].
    + destruct (q_remove_head_repr m qa a l' sp bufsize Hrepr Hok)
        as (sp' & m' & Hrun & Hrepr').
      exists m'. unfold bind. rewrite Hrun.
      split; [done | by eapply repr_wf].
  - (* Reverse *)
    destruct (q_reverse_repr fuel m qa l Hrepr Hlen) as (m' & Hrun & Hrepr').
    exists m'. split; [done | by eapply repr_wf].
  - (* Sort *)
    destruct (q_sort_result fuel m qa l Hinv Htr Hlen)
      as (m' & Hrun & Hrepr' & _).
    exists m'. split; [done|]. by eapply repr_wf.
Qed.

Lemma op_ok_dec o : op_ok o \/ ~ op_ok o.
Proof.
  destruct o as [| | [buf|] bufsize | |]; cbn; auto.
  destruct (Z.ltb_spec (size_sub bufsize 1) (Z.of_nat (length buf)));
    [by left | right; lia].
Qed.

(** C2: every operation preserves the structural invariants.  From a
    memory in which the queue at [qa] satisfies them, whenever one of
    [q_insert_head], [q_insert_tail], [q_remove_head], [q_reverse] and
    [q_sort] returns, the queue at [qa] satisfies them again; and each of
    them does return, given fuel for the nodes and, for [q_remove_head], a
    copy-out that lies inside the caller's buffer. *)
Theorem ops_preserve_invariants fuel o m qa :
  queue_inv m qa ->
  (forall l, traversal m qa l -> (length l <= fuel)%nat) ->
  (forall m', run_op fuel o (Some qa) m = Ok (tt, m') -> queue_inv m' qa) /\
  (op_ok o -> exists m', run_op fuel o (Some qa) m = Ok (tt, m')).
Proof.
  intros Hinv Hfuel. split.
  - intros m' Hrun. destruct (op_ok_dec o) as [Hok | Hno].
    + destruct (ops_run_inv fuel o m qa Hinv Hok Hfuel) as (m'' & Hrun' & Hinv').
      rewrite Hrun in Hrun'. by injection Hrun' as ->.
    + destruct o as [| | [buf|] bufsize | |]; try (by destruct Hno).
      cbn [run_op] in Hrun. unfold bind in Hrun.
      destruct (wf_traversal _ _ Hinv) as [[|a l] (qs & Hq & Hc)].
      * rewrite (q_remove_head_empty m qa qs _ _ Hq) in Hrun
          by (by apply chain_ptr in Hc).
        by injection Hrun as <-.
      * pose proof Hc as [Hh (e & He & _)].
        rewrite (q_remove_head_run m qa qs a e _ _ Hq Hh He) in Hrun.
        unfold copy_out in Hrun. cbn [op_ok buffer_ok] in Hno.
        destruct (Z.ltb_spec (size_sub bufsize 1) (Z.of_nat (length buf)));
          done.
  - intros Hok.
    destruct (ops_run_inv fuel o m qa Hinv Hok Hfuel) as (m' & Hrun & _).
    by exists m'.
Qed.

Lemma ops_preserve_invariants_witness :
  exists m',
    run_op 2 (RemoveHead (Some (str "xxxx")) 3) (Some 1%positive) mem_ba
      = Ok (tt, m') /\
    queue_inv m' 1.
Proof.
  destruct (ops_preserve_invariants 2 (RemoveHead (Some (str "xxxx")) 3) mem_ba
              1%positive) as [Hpres Hret].
  - eapply repr_wf, repr_mem_ba.
  - intros l Htr.
    rewrite (traversal_inj _ _ _ _ Htr (repr_traversal _ _ _ repr_mem_ba)).
    simpl. lia.
  - destruct Hret as [m' Hrun]; [reflexivity|].
    exists m'. split; [exact Hrun | exact (Hpres m' Hrun)].
Defined.

(** ** The scenarios of the specification *)

Example scenario_sort :
  from_scratch 7
    (q <- q_new ;;
     q_insert_tail q (Some (str "banana")) ;;;
     q_insert_tail q (Some (str "apple")) ;;;
     q_insert_tail q (Some (str "cherry")) ;;;
     n <- q_size q ;;
     q_sort 3 q ;;;
     l <- q_contents 3 q ;;
     ret (n, l))
  = Some (3, [str "apple"; str "banana"; str "cherry"]).
Proof. vm_compute. reflexivity. Qed.

Example scenario_reverse :
  from_scratch 5
    (q <- q_new ;;
     q_insert_head q (Some (str "a")) ;;;
     q_insert_head q (Some (str "b")) ;;;
     before <- q_contents 2 q ;;
     q_reverse 2 q ;;;
     after <- q_contents 2 q ;;
     ret (before, after))
  = Some ([str "b"; str "a"], [str "a"; str "b"]).
Proof. vm_compute. reflexivity. Qed.

Example scenario_remove_empty :
  from_scratch 1
    (q <- q_new ;;
     r <- q_remove_head q None 0 ;;
     n <- q_size q ;;
     ret (fst r, n))
  = Some (false, 0).
Proof. vm_compute. reflexivity. Qed.

Example scenario_insert_empty_string :
  from_scratch 3
    (q <- q_new ;;
     r <- q_insert_head q (Some []) ;;
     n <- q_size q ;;
     ret (r, n))
  = Some (false, 0).
Proof. vm_compute. reflexivity. Qed.

Example scenario_stable_sort :
  from_scratch 9
    (q <- q_new ;;
     q_insert_tail q (Some (str "b")) ;;;
     q_insert_tail q (Some (str "A")) ;;;
     q_insert_tail q (Some (str "a")) ;;;
     q_insert_tail q (Some (str "B")) ;;;
     q_sort 4 q ;;;
     q_contents 4 q)
  = Some [str "A"; str "a"; str "b"; str "B"].
Proof. vm_compute. reflexivity. Qed.

Example scenario_truncation :
  from_scratch 3
    (q <- q_new ;;
     q_insert_head q (Some (str "apple")) ;;;
     r <- q_remove_head q (Some (str "xxxxxx")) 4 ;;
     ret r)
  = Some (true, Some ["a"; "p"; "p"; NUL; "x"; "x"]%char).
Proof. vm_compute. reflexivity. Qed.

(** * Further properties of queue.c *)

(** ** [q_new], [q_size], [q_free] *)

Lemma fresh_queue m : queues m !! fresh (dom (queues m)) = None.
Proof. apply not_elem_of_dom, is_fresh. Qed.

Lemma q_new_ok m o :
  oracle m = true :: o ->
  q_new m
    = Ok (Some (fresh (dom (queues m))),
          mk_mem (<[fresh (dom (queues m)) := mk_queue None None 0]> (queues m))
                 (nodes m) o).
Proof.
  intros Ho. unfold q_new, malloc_queue, next_malloc. run. rewrite Ho.
  reduce. repeat (look; reduce). by rewrite !insert_insert_eq.
Qed.

Lemma q_new_fail m :
  (forall o, oracle m <> true :: o) ->
  exists o', q_new m = Ok (None, with_oracle m o').
Proof.
  intros Hno. destruct m as [Q N O]. cbn [oracle] in Hno.
  unfold q_new, malloc_queue, next_malloc. run.
  destruct O as [|[|] o]; reduce.
  - by exists [].
  - by destruct (Hno o).
  - by exists o.
Qed.

Lemma q_size_run m qa qs :
  queues m !! qa = Some qs -> q_size (Some qa) m = Ok (to_int (size qs), m).
Proof. intros Hq. unfold q_size. by runs. Qed.

Lemma to_int_small z : - 2 ^ 31 <= z <= INT_MAX -> to_int z = z.
Proof.
  intros Hz. unfold to_int, INT_MAX in *. rewrite Z.mod_small; lia.
Qed.

Lemma to_int_range z : - 2 ^ 31 <= to_int z <= INT_MAX.
Proof.
  unfold to_int, INT_MAX.
  pose proof (Z.mod_pos_bound (z + 2 ^ 31) (2 ^ 32)). lia.
Qed.

Lemma repr_empty_queue Q N O qa :
  repr (mk_mem (<[qa := mk_queue None None 0]> Q) N O) qa [].
Proof. eexists. split; [apply lookup_insert_eq|]. done. Qed.

(** X1: [q_new].  When the next [malloc] succeeds it returns the address
    of a queue structure that was not allocated before; that queue
    satisfies the invariants, is empty and has size 0, and no other queue
    structure and no node has changed.  When the [malloc] fails it returns
    [NULL] and no queue structure and no node has changed. *)
Theorem q_new_result m :
  (forall o, oracle m = true :: o ->
   exists qa m',
     q_new m = Ok (Some qa, m') /\
     queues m !! qa = None /\
     queue_inv m' qa /\
     traversal m' qa [] /\
     q_size (Some qa) m' = Ok (0, m') /\
     (forall qb, qb <> qa -> queues m' !! qb = queues m !! qb) /\
     nodes m' = nodes m /\
     oracle m' = o) /\
  ((forall o, oracle m <> true :: o) ->
   exists m',
     q_new m = Ok (None, m') /\ queues m' = queues m /\ nodes m' = nodes m).
Proof.
  split.
  - intros o Ho. eexists _, _. split; [by apply q_new_ok|].
    split; [apply fresh_queue|].
    pose proof (repr_empty_queue (queues m) (nodes m) o
                  (fresh (dom (queues m)))) as Hrepr.
    split; [by eapply repr_wf|]. split; [by apply repr_traversal|].
    split; [|split; [|done]].
    + rewrite (q_size_run _ _ (mk_queue None None 0)); [done|].
      apply lookup_insert_eq.
    + intros qb Hqb. cbn [queues]. by apply lookup_insert_ne.
  - intros Hno. destruct (q_new_fail m Hno) as (o' & Hrun).
    by exists (with_oracle m o').
Qed.

Lemma q_new_result_witness :
  exists qa m', q_new mem_ba = Ok (Some qa, m') /\ traversal m' qa [].
Proof.
  destruct (q_new_result mem_ba) as [Hok _].
  destruct (Hok [true]) as (qa & m' & Hrun & _ & _ & Htr & _).
  - reflexivity.
  - exists qa, m'. split; [exact Hrun | exact Htr].
Defined.

(** X2: [q_size] returns 0 for [NULL].  For a queue that satisfies the
    invariants it returns the number of nodes met by the traversal from
    the head as an [int]: exactly that number as long as it is at most
    [INT_MAX], and that number wrapped around to 32 bits beyond, where the
    result is no longer the number of nodes.  It never changes the
    memory. *)
Theorem q_size_result m :
  q_size None m = Ok (0, m) /\
  forall qa l,
    queue_inv m qa -> traversal m qa l ->
    q_size (Some qa) m = Ok (to_int (Z.of_nat (length l)), m) /\
    (Z.of_nat (length l) <= INT_MAX ->
     q_size (Some qa) m = Ok (Z.of_nat (length l), m)) /\
    (INT_MAX < Z.of_nat (length l) ->
     forall n, q_size (Some qa) m = Ok (n, m) -> n <> Z.of_nat (length l)).
Proof.
  split; [done|]. intros qa l Hinv Htr.
  destruct (wf_repr _ _ _ Hinv Htr) as (qs & Hq & _ & _ & Hs).
  rewrite (q_size_run m qa qs Hq), Hs. split; [done|]. split.
  - intros Hle. rewrite to_int_small; [done|]. lia.
  - intros Hgt n [= <-].
    pose proof (to_int_range (Z.of_nat (length l))). lia.
Qed.

Lemma q_size_result_witness : q_size (Some 1%positive) mem_ba = Ok (2, mem_ba).
Proof.
  destruct (q_size_result mem_ba) as [_ H].
  destruct (H 1%positive [2; 3]%positive) as (_ & Hexact & _).
  - eapply repr_wf, repr_mem_ba.
  - eapply repr_traversal, repr_mem_ba.
  - apply Hexact. vm_compute. discriminate.
Defined.

Lemma free_loop_spec l : forall cur m fuel,
  chain (nodes m) cur l ->
  (length l <= fuel)%nat ->
  exists h',
    free_loop fuel cur m = Ok (tt, with_nodes m h') /\
    forall a, h' !! a = if decide (a ∈ l) then None else nodes m !! a.
Proof.
  induction l as [|a l IH]; intros cur m fuel Hc Hlen.
  - simpl in Hc. subst cur. exists (nodes m). rewrite with_nodes_id.
    split; [by destruct fuel|]. intros a.
    destruct (decide _) as [Hin|]; [by apply elem_of_nil in Hin | done].
  - pose proof (chain_NoDup _ _ _ Hc) as Hnd.
    apply NoDup_cons in Hnd as [Ha _].
    destruct Hc as [-> (e & He & Hc)].
    destruct fuel as [|f]; [simpl in Hlen; lia|].
    destruct (IH (next e) (with_nodes m (delete a (nodes m))) f)
      as (h' & Hrun & Hlook).
    + cbn [nodes with_nodes]. apply (chain_frame (nodes m)); [|done].
      intros b Hb. apply lookup_delete_ne. by intros <-.
    + simpl in Hlen. lia.
    + exists h'. split.
      * cbn [free_loop]. runs. exact Hrun.
      * intros b. rewrite Hlook. cbn [nodes with_nodes].
        destruct (decide (b = a)) as [->|Hne].
        -- rewrite lookup_delete_eq.
           destruct (decide (a ∈ l)); destruct (decide (a ∈ a :: l)) as [|Hn];
             try done. destruct Hn. left.
        -- rewrite lookup_delete_ne by done.
           destruct (decide (b ∈ l)) as [Hin|Hin];
             destruct (decide (b ∈ a :: l)) as [Hin'|Hin']; try done.
           ++ destruct Hin'. by right.
           ++ apply elem_of_cons in Hin' as [?|?]; done.
Qed.

Lemma q_free_run fuel m qa qs l :
  queues m !! qa = Some qs ->
  chain (nodes m) (head qs) l ->
  (length l <= fuel)%nat ->
  exists h',
    q_free fuel (Some qa) m
      = Ok (tt, mk_mem (delete qa (queues m)) h' (oracle m)) /\
    forall a, h' !! a = if decide (a ∈ l) then None else nodes m !! a.
Proof.
  intros Hq Hc Hlen.
  destruct (free_loop_spec l (head qs) m fuel Hc Hlen) as (h' & Hrun & Hlook).
  exists h'. split; [|done].
  unfold q_free. runs. rewrite Hrun. reduce. unfold free_queue.
  cbn [queues with_nodes]. by rewrite Hq.
Qed.

(** X3: [q_free] does nothing on [NULL].  On a queue whose links from the
    head form a chain, given fuel for the nodes, it returns; the queue
    structure and exactly the nodes of the chain are no longer allocated,
    every other queue structure and node is as it was, and no [malloc]
    outcome is consumed. *)
Theorem q_free_result fuel m :
  q_free fuel None m = Ok (tt, m) /\
  forall qa l,
    traversal m qa l -> (length l <= fuel)%nat ->
    exists m',
      q_free fuel (Some qa) m = Ok (tt, m') /\
      queues m' = delete qa (queues m) /\
      (forall a, nodes m' !! a
                 = if decide (a ∈ l) then None else nodes m !! a) /\
      oracle m' = oracle m.
Proof.
  split; [done|]. intros qa l (qs & Hq & Hc) Hlen.
  destruct (q_free_run fuel m qa qs l Hq Hc Hlen) as (h' & Hrun & Hlook).
  eexists. split; [exact Hrun|]. done.
Qed.

Lemma q_free_result_witness :
  exists m', q_free 2 (Some 1%positive) mem_ba = Ok (tt, m') /\
             nodes m' !! 2%positive = None.
Proof.
  destruct (q_free_result 2 mem_ba) as [_ H].
  destruct (H 1%positive [2; 3]%positive) as (m' & Hrun & _ & Hlook & _).
  - eapply repr_traversal, repr_mem_ba.
  - simpl. lia.
  - exists m'. split; [exact Hrun|]. rewrite Hlook. reflexivity.
Defined.

(** ** Where insertion puts the string *)

Lemma map_val_frame (h h' : gmap positive list_ele_t) (l : list positive) :
  (forall a, a ∈ l -> val h' a = val h a) ->
  map (val h') l = map (val h) l.
Proof.
  intros Hv. induction l as [|a l IH]; [done|].
  cbn [map]. rewrite Hv by left. f_equal. apply IH.
  intros b Hb. apply Hv. by right.
Qed.

Lemma payloads_app m l1 l2 :
  payloads m (l1 ++ l2) = payloads m l1 ++ payloads m l2.
Proof. apply map_app. Qed.

(** X4: a successful [q_insert_head] links a node that was not allocated
    before in front of the chain: the traversal is the new node followed
    by the former traversal, the payloads are the stored string followed
    by the former payloads, the head is the new node, and every node that
    was allocated is exactly as it was. *)
Theorem q_insert_head_contents m qa l s o :
  queue_inv m qa -> traversal m qa l ->
  0 < strlen s ->
  oracle m = true :: true :: o ->
  exists m' n,
    q_insert_head (Some qa) (Some s) m = Ok (true, m') /\
    nodes m !! n = None /\
    traversal m' qa (n :: l) /\
    payloads m' (n :: l) = cstring s :: payloads m l /\
    (forall a e, nodes m !! a = Some e -> nodes m' !! a = Some e) /\
    queue_inv m' qa /\
    oracle m' = o.
Proof.
  intros Hinv Htr Hlen Ho.
  pose proof (wf_repr _ _ _ Hinv Htr) as Hrepr.
  pose proof Hrepr as (qs & Hq & Hc & Ht & Hs).
  pose proof (fresh_node m) as Hfresh.
  pose proof (repr_insert_head m qa qs l s o Hq Hrepr) as Hrepr'.
  eexists _, (fresh (dom (nodes m))).
  split; [by apply q_insert_head_ok|]. split; [done|].
  split; [by apply repr_traversal|].
  assert (Hold : forall a e, nodes m !! a = Some e ->
    <[fresh (dom (nodes m)) := mk_ele (cstring s) (head qs)]> (nodes m) !! a
    = Some e).
  { intros a e He. rewrite lookup_insert_ne; [done|]. congruence. }
  split; [|split; [exact Hold|split; [by eapply repr_wf | done]]].
  unfold payloads. cbn [map nodes]. f_equal.
  - unfold val. by rewrite lookup_insert_eq.
  - apply map_val_frame. intros a Ha.
    destruct (chain_alloc _ _ _ _ Hc Ha) as [e He].
    unfold val. by rewrite (Hold a e He), He.
Qed.

Lemma q_insert_head_contents_witness :
  exists m' n,
    q_insert_head (Some 1%positive) (Some (str "c")) mem_ba = Ok (true, m') /\
    payloads m' (n :: [2; 3]%positive) = [str "c"; str "b"; str "a"].
Proof.
  destruct (q_insert_head_contents mem_ba 1%positive [2; 3]%positive (str "c") [])
    as (m' & n & Hrun & _ & _ & Hp & _).
  - eapply repr_wf, repr_mem_ba.
  - eapply repr_traversal, repr_mem_ba.
  - reflexivity.
  - reflexivity.
  - exists m', n. split; [exact Hrun | exact Hp].
Defined.

(** X5: a successful [q_insert_tail] links a node that was not allocated
    before behind the chain: the traversal is the former traversal
    followed by the new node, the payloads are the former payloads
    followed by the stored string, and every node that was allocated is
    still allocated with the payload it had. *)
Theorem q_insert_tail_contents m qa l s o :
  queue_inv m qa -> traversal m qa l ->
  0 < strlen s ->
  oracle m = true :: true :: o ->
  exists m' n,
    q_insert_tail (Some qa) (Some s) m = Ok (true, m') /\
    nodes m !! n = None /\
    traversal m' qa (l ++ [n]) /\
    payloads m' (l ++ [n]) = payloads m l ++ [cstring s] /\
    (forall a e, nodes m !! a = Some e ->
                 exists e', nodes m' !! a = Some e' /\ value e' = value e) /\
    queue_inv m' qa /\
    oracle m' = o.
Proof.
  intros Hinv Htr Hlen Ho.
  pose proof (wf_repr _ _ _ Hinv Htr) as Hrepr.
  pose proof Hrepr as (qs & Hq & Hc & Ht & Hs).
  pose proof (fresh_node m) as Hfresh.
  pose proof (repr_insert_tail m qa qs l s o Hq Hrepr) as Hrepr'.
  assert (Htail : forall t, tail qs = Some t -> is_Some (nodes m !! t)).
  { intros t Et. rewrite Ht in Et.
    destruct (chain_last_next _ _ _ _ Hc Et) as (e & He & _). by exists e. }
  set (n := fresh (dom (nodes m))) in *.
  set (h' := match tail qs with
             | None => <[n := mk_ele (cstring s) None]> (nodes m)
             | Some t =>
                 <[t := mk_ele (val (nodes m) t) (Some n)]>
                   (<[n := mk_ele (cstring s) None]> (nodes m))
             end) in *.
  assert (Hnew : val h' n = cstring s).
  { unfold val, h'. destruct (tail qs) as [t|] eqn:Et.
    - destruct (Htail t eq_refl) as [et Het].
      rewrite lookup_insert_ne by congruence. by rewrite lookup_insert_eq.
    - by rewrite lookup_insert_eq. }
  assert (Hold : forall a e, nodes m !! a = Some e ->
    exists e', h' !! a = Some e' /\ value e' = value e).
  { intros a e He. assert (Han : n <> a) by congruence.
    unfold h'. destruct (tail qs) as [t|] eqn:Et.
    - destruct (decide (t = a)) as [->|Hta].
      + rewrite lookup_insert_eq. eexists. split; [done|].
        cbn [value]. unfold val. by rewrite He.
      + exists e. by rewrite !lookup_insert_ne.
    - exists e. by rewrite lookup_insert_ne. }
  eexists (mk_mem _ h' o), n.
  split; [by apply q_insert_tail_ok|]. split; [done|].
  split; [by apply repr_traversal|].
  split; [|split; [exact Hold|split; [by eapply repr_wf | done]]].
  rewrite payloads_app. unfold payloads. cbn [map nodes]. f_equal.
  - apply map_val_frame. intros a Ha.
    destruct (chain_alloc _ _ _ _ Hc Ha) as [e He].
    destruct (Hold a e He) as (e' & He' & Hv).
    unfold val. by rewrite He', He.
  - by rewrite Hnew.
Qed.

Lemma q_insert_tail_contents_witness :
  exists m' n,
    q_insert_tail (Some 1%positive) (Some (str "c")) mem_ba = Ok (true, m') /\
    payloads m' ([2; 3]%positive ++ [n]) = [str "b"; str "a"; str "c"].
Proof.
  destruct (q_insert_tail_contents mem_ba 1%positive [2; 3]%positive (str "c") [])
    as (m' & n & Hrun & _ & _ & Hp & _).
  - eapply repr_wf, repr_mem_ba.
  - eapply repr_traversal, repr_mem_ba.
  - reflexivity.
  - reflexivity.
  - exists m', n. split; [exact Hrun | exact Hp].
Defined.

(** ** What removal copies out *)

(** X6: [q_remove_head] on a queue that is not empty, with a buffer of at
    least [bufsize] bytes and [1 <= bufsize]: the buffer receives the first
    [bufsize - 1] characters of the head node's string, NUL up to index
    [bufsize - 1] included, and keeps its bytes from index [bufsize] on, so
    its length is unchanged and nothing is written past the capacity; the
    remaining nodes keep their payloads. *)
Theorem q_remove_head_copy m qa a l buf cap :
  queue_inv m qa -> traversal m qa (a :: l) ->
  1 <= cap -> cap <= Z.of_nat (length buf) -> cap < SIZE_MOD ->
  exists buf' m',
    q_remove_head (Some qa) (Some buf) cap m = Ok ((true, Some buf'), m') /\
    buf' = take (Z.to_nat (cap - 1)) (cstring (val (nodes m) a))
           ++ replicate (Z.to_nat (cap - 1)
                         - length (cstring (val (nodes m) a)))%nat NUL
           ++ NUL :: drop (Z.to_nat cap) buf /\
    length buf' = length buf /\
    traversal m' qa l /\
    payloads m' l = payloads m l.
Proof.
  intros Hinv Htr H1 H2 H3.
  pose proof (wf_repr _ _ _ Hinv Htr) as Hrepr.
  pose proof Hrepr as (qs & Hq & Hc & Ht & Hs).
  pose proof (chain_NoDup _ _ _ Hc) as Hnd.
  apply NoDup_cons in Hnd as [Ha _].
  pose proof Hc as [Hh (e & He & _)].
  pose proof (repr_removed m qa qs a e l Hq He Hrepr) as Hrepr'.
  rewrite (q_remove_head_run m qa qs a e (Some buf) cap Hq Hh He).
  unfold copy_out. rewrite size_sub_1 by done.
  destruct (Z.ltb_spec (cap - 1) (Z.of_nat (length buf))); [|lia].
  eexists _, _. split; [reflexivity|].
  rewrite (val_lookup _ _ _ He).
  replace (S (Z.to_nat (cap - 1))) with (Z.to_nat cap) by lia.
  unfold strncpy_bytes. rewrite <- app_assoc.
  split; [done|]. split; [|split; [by apply repr_traversal|]].
  - rewrite !length_app, length_take, length_replicate. cbn [length].
    rewrite length_drop. lia.
  - unfold payloads, removed. cbn [nodes]. apply map_val_frame.
    intros b Hb. unfold val. rewrite lookup_delete_ne; [done|].
    by intros <-.
Qed.

Lemma q_remove_head_copy_witness :
  exists buf' m',
    q_remove_head (Some 1%positive) (Some (str "xxxxxx")) 4 mem_ba
      = Ok ((true, Some buf'), m') /\
    length buf' = 6%nat.
Proof.
  destruct (q_remove_head_copy mem_ba 1%positive 2%positive [3%positive]
              (str "xxxxxx") 4) as (buf' & m' & Hrun & _ & Hlen & _).
  - eapply repr_wf, repr_mem_ba.
  - eapply repr_traversal, repr_mem_ba.
  - lia.
  - simpl. lia.
  - reflexivity.
  - exists buf', m'. split; [exact Hrun | exact Hlen].
Defined.

(** X7: a successful [q_insert_head] followed by [q_remove_head] (without
    a buffer, or with a copy-out inside the buffer) undoes the insertion:
    the removal returns [true], and every queue structure and every node
    is exactly as before the insertion; only the two [malloc] outcomes are
    used up. *)
Theorem insert_head_remove_head_restores m qa s o sp bufsize :
  queue_inv m qa ->
  0 < strlen s ->
  oracle m = true :: true :: o ->
  buffer_ok sp bufsize ->
  exists m1 sp' m2,
    q_insert_head (Some qa) (Some s) m = Ok (true, m1) /\
    q_remove_head (Some qa) sp bufsize m1 = Ok ((true, sp'), m2) /\
    queues m2 = queues m /\
    nodes m2 = nodes m /\
    oracle m2 = o.
Proof.
  intros Hinv Hlen Ho Hbuf.
  destruct Hinv as (qs & Hq & Hwf).
  pose proof (fresh_node m) as Hfresh.
  set (n := fresh (dom (nodes m))) in *.
  set (e := mk_ele (cstring s) (head qs)).
  set (qs1 := mk_queue (Some n)
                (match tail qs with None => Some n | Some t => Some t end)
                (size qs + 1)).
  set (m1 := mk_mem (<[qa := qs1]> (queues m)) (<[n := e]> (nodes m)) o).
  assert (Hins : q_insert_head (Some qa) (Some s) m = Ok (true, m1))
    by (by apply q_insert_head_ok).
  assert (Hrem : q_remove_head (Some qa) sp bufsize m1
    = match sp with
      | None => Ok ((true, None), removed m1 qa qs1 n e)
      | Some buf =>
          match copy_out buf (value e) bufsize with
          | Some buf' => Ok ((true, Some buf'), removed m1 qa qs1 n e)
          | None => Fault
          end
      end).
  { apply q_remove_head_run; [apply lookup_insert_eq | done |
                              apply lookup_insert_eq]. }
  assert (Hex : exists sp', q_remove_head (Some qa) sp bufsize m1
                            = Ok ((true, sp'), removed m1 qa qs1 n e)).
  { rewrite Hrem. destruct sp as [buf|]; [|by eexists].
    unfold buffer_ok in Hbuf. unfold copy_out.
    destruct (Z.ltb_spec (size_sub bufsize 1) (Z.of_nat (length buf)));
      [by eexists | lia]. }
  destruct Hex as (sp' & Hex).
  exists m1, sp', (removed m1 qa qs1 n e).
  split; [done|]. split; [done|].
  unfold removed, m1. cbn [queues nodes oracle next tail size e qs1].
  split; [|split; [by apply delete_insert_id | done]].
  rewrite insert_insert_eq. apply insert_id. rewrite Hq. f_equal.
  destruct qs as [hq tq sq]. cbn [head tail size] in *.
  replace (sq + 1 - 1) with sq by lia. f_equal.
  unfold ptr_eqb. destruct tq as [t|].
  - rewrite bool_decide_eq_false_2; [done|]. intros [= Heq].
    destruct (wf_last _ _ Hwf t eq_refl) as (en & Hen & _).
    rewrite Heq in Hen. congruence.
  - by rewrite bool_decide_eq_true_2.
Qed.

Lemma insert_head_remove_head_restores_witness :
  exists m1 sp' m2,
    q_insert_head (Some 1%positive) (Some (str "c")) mem_ba = Ok (true, m1) /\
    q_remove_head (Some 1%positive) None 0 m1 = Ok ((true, sp'), m2) /\
    nodes m2 = nodes mem_ba.
Proof.
  destruct (insert_head_remove_head_restores mem_ba 1%positive (str "c") []
              None 0) as (m1 & sp' & m2 & H1 & H2 & _ & H3 & _).
  - eapply repr_wf, repr_mem_ba.
  - reflexivity.
  - reflexivity.
  - exact I.
  - exists m1, sp', m2. split; [exact H1|]. split; [exact H2 | exact H3].
Defined.

(** ** The effect of one call and of a sequence of calls *)

Lemma effect_refl m qa l : repr m qa l -> op_effect m qa l 0 m l.
Proof.
  intros Hrepr. split; [done|]. split; [lia|]. repeat split; intros; done.
Qed.

Lemma effect_oracle m qa l o :
  repr m qa l -> op_effect m qa l 0 (with_oracle m o) l.
Proof.
  intros (qs & Hrepr). split; [by exists qs|]. split; [lia|].
  repeat split; intros; done.
Qed.

Lemma effect_trans m qa l d1 m1 l1 d2 m2 l2 :
  op_effect m qa l d1 m1 l1 -> op_effect m1 qa l1 d2 m2 l2 ->
  op_effect m qa l (d1 + d2) m2 l2.
Proof.
  intros (_ & Hl1 & Hq1 & Hf1 & Hn1 & Hg1) (Hr2 & Hl2 & Hq2 & Hf2 & Hn2 & Hg2).
  split; [done|]. split; [lia|]. split; [|split; [|split]].
  - intros qb Hqb. by rewrite Hq2, Hq1.
  - intros a Ha Ha2. destruct (decide (a ∈ l1)) as [Hin|Hout].
    + by rewrite (Hn1 a Hin Ha), (Hg2 a Hin Ha2).
    + by rewrite (Hf2 a Hout Ha2), (Hf1 a Ha Hout).
  - intros a Ha2 Ha. destruct (decide (a ∈ l1)) as [Hin|Hout].
    + by apply Hn1.
    + rewrite <- (Hf1 a Ha Hout). by apply Hn2.
  - intros a Ha Ha2. destruct (decide (a ∈ l1)) as [Hin|Hout].
    + by apply Hg2.
    + rewrite (Hf2 a Hout Ha2). by apply Hg1.
Qed.

Lemma effect_insert_head m qa qs l s o :
  queues m !! qa = Some qs ->
  repr m qa l ->
  op_effect m qa l 1
    (mk_mem (<[qa := mk_queue (Some (fresh (dom (nodes m))))
                      (match tail qs with
                       | None => Some (fresh (dom (nodes m)))
                       | Some t => Some t
                       end)
                      (size qs + 1)]> (queues m))
            (<[fresh (dom (nodes m)) := mk_ele (cstring s) (head qs)]>
               (nodes m))
            o)
    (fresh (dom (nodes m)) :: l).
Proof.
  intros Hq Hrepr. pose proof (fresh_node m) as Hfresh.
  split; [by apply repr_insert_head|]. split; [cbn [length]; lia|].
  cbn [queues nodes]. split; [|split; [|split]].
  - intros qb Hqb. by apply lookup_insert_ne.
  - intros a _ Ha. apply lookup_insert_ne. intros <-. apply Ha. left.
  - intros a Ha Hl. apply elem_of_cons in Ha as [->|?]; done.
  - intros a Ha Hl. destruct Hl. by right.
Qed.

Lemma effect_insert_tail m qa qs l s o :
  queues m !! qa = Some qs ->
  repr m qa l ->
  op_effect m qa l 1
    (mk_mem (<[qa := mk_queue (match head qs with
                               | None => Some (fresh (dom (nodes m)))
                               | Some hd => Some hd
                               end)
                      (Some (fresh (dom (nodes m))))
                      (size qs + 1)]> (queues m))
            (match tail qs with
             | None =>
                 <[fresh (dom (nodes m)) := mk_ele (cstring s) None]>
                   (nodes m)
             | Some t =>
                 <[t := mk_ele (val (nodes m) t)
                          (Some (fresh (dom (nodes m))))]>
                   (<[fresh (dom (nodes m)) := mk_ele (cstring s) None]>
                      (nodes m))
             end)
            o)
    (l ++ [fresh (dom (nodes m))]).
Proof.
  intros Hq Hrepr. pose proof (fresh_node m) as Hfresh.
  split; [by apply repr_insert_tail|].
  split; [rewrite length_app; cbn [length]; lia|].
  destruct Hrepr as (qs' & Hq' & Hc & Ht & Hs).
  rewrite Hq in Hq'. injection Hq' as <-.
  cbn [queues nodes]. split; [|split; [|split]].
  - intros qb Hqb. by apply lookup_insert_ne.
  - intros a Ha Ha'.
    assert (Hn : fresh (dom (nodes m)) <> a).
    { intros <-. apply Ha'. apply elem_of_app. right. left. }
    destruct (tail qs) as [t|] eqn:Et; [|by apply lookup_insert_ne].
    rewrite !lookup_insert_ne; [done | done |].
    intros <-. apply Ha. apply last_elem_of. by rewrite <- Ht.
  - intros a Ha Hl. apply elem_of_app in Ha as [?|Ha]; [done|].
    apply list_elem_of_singleton in Ha. by subst a.
  - intros a Ha Hl. destruct Hl. apply elem_of_app. by left.
Qed.

Lemma effect_removed m qa qs a e l :
  queues m !! qa = Some qs ->
  nodes m !! a = Some e ->
  repr m qa (a :: l) ->
  op_effect m qa (a :: l) (-1) (removed m qa qs a e) l.
Proof.
  intros Hq He Hrepr.
  split; [by apply repr_removed|]. split; [cbn [length]; lia|].
  unfold removed. cbn [queues nodes]. split; [|split; [|split]].
  - intros qb Hqb. by apply lookup_insert_ne.
  - intros x Hx _. apply lookup_delete_ne. intros <-. apply Hx. left.
  - intros x Hx Hl. destruct Hl. by right.
  - intros x Hx Hl. apply elem_of_cons in Hx as [->|?]; [|done].
    apply lookup_delete_eq.
Qed.

Lemma effect_perm m qa l m' l' :
  repr m' qa l' ->
  l' ≡ₚ l ->
  (forall qb, qb <> qa -> queues m' !! qb = queues m !! qb) ->
  (forall a, a ∉ l -> nodes m' !! a = nodes m !! a) ->
  op_effect m qa l 0 m' l'.
Proof.
  intros Hrepr Hp Hq Hf. split; [done|].
  split; [rewrite Hp; lia|]. split; [done|]. split; [|split].
  - intros a Ha _. by apply Hf.
  - intros a Ha Hl. rewrite Hp in Ha. done.
  - intros a Ha Hl. rewrite Hp in Hl. done.
Qed.

Lemma run_op_count_effect fuel o m qa l :
  repr m qa l -> op_ok o -> (length l <= fuel)%nat ->
  exists d m' l',
    run_op_count fuel o (Some qa) m = Ok (d, m') /\
    d <= 1 /\
    op_effect m qa l d m' l'.
Proof.
  intros Hrepr Hok Hlen. pose proof Hrepr as (qs & Hq & Hc & Ht & Hs).
  destruct o as [s | s | sp bufsize | |]; cbn [run_op_count]; unfold bind.
  - (* InsertHead *)
    destruct (string_cases s) as [Hs0 | (str & -> & Hstr)];
      [|destruct (allocation_cases m) as [Hf | (o & Ho)]].
    + destruct (q_insert_fail_head m qa s (or_introl Hs0)) as (o & Hrun).
      rewrite Hrun. eexists _, _, _. split; [done|]. split; [cbn; lia|]. by apply effect_oracle.
    + destruct (q_insert_fail_head m qa (Some str) (or_intror Hf)) as (o & Hrun).
      rewrite Hrun. eexists _, _, _. split; [done|]. split; [cbn; lia|]. by apply effect_oracle.
    + rewrite (q_insert_head_ok m qa qs str o Hq Hstr Ho).
      eexists _, _, _. split; [done|]. split; [cbn; lia|]. by apply effect_insert_head.
  - (* InsertTail *)
    destruct (string_cases s) as [Hs0 | (str & -> & Hstr)];
      [|destruct (allocation_cases m) as [Hf | (o & Ho)]].
    + destruct (q_insert_fail_tail m qa s (or_introl Hs0)) as (o & Hrun).
      rewrite Hrun. eexists _, _, _. split; [done|]. split; [cbn; lia|]. by apply effect_oracle.
    + destruct (q_insert_fail_tail m qa (Some str) (or_intror Hf)) as (o & Hrun).
      rewrite Hrun. eexists _, _, _. split; [done|]. split; [cbn; lia|]. by apply effect_oracle.
    + rewrite (q_insert_tail_ok m qa qs str o Hq); [| | done | done].
      * eexists _, _, _. split; [done|]. split; [cbn; lia|]. by apply effect_insert_tail.
      * intros t Et. rewrite Ht in Et.
        destruct (chain_last_next _ _ _ _ Hc Et) as (e & He & _). by exists e.
  - (* RemoveHead *)
    destruct l as [|a l'].
    + rewrite (q_remove_head_empty m qa qs sp bufsize Hq)
        by (by apply chain_ptr in Hc).
      eexists _, _, _. split; [done|]. split; [cbn; lia|]. by apply effect_refl.
    + pose proof Hc as [Hh (e & He & _)].
      rewrite (q_remove_head_run m qa qs a e sp bufsize Hq Hh He).
      assert (Heff := effect_removed m qa qs a e l' Hq He Hrepr).
      destruct sp as [buf|];
        [|eexists _, _, _; split; [done|]; split; [cbn; lia | done]].
      cbn [op_ok buffer_ok] in Hok. unfold copy_out.
      destruct (Z.ltb_spec (size_sub bufsize 1) (Z.of_nat (length buf)));
        [|lia].
      eexists _, _, _. split; [done|]. split; [cbn; lia | done].
  - (* Reverse *)
    destruct l as [|a l'].
    + rewrite (q_reverse_empty fuel m qa qs Hq) by (by apply chain_ptr in Hc).
      eexists _, _, _. split; [done|]. split; [cbn; lia|]. by apply effect_refl.
    + destruct (q_reverse_run m qa qs (a :: l') fuel)
        as (h' & Hrun & Hc' & _ & Hfr); try done.
      rewrite Hrun. eexists _, _, (rev (a :: l')). split; [done|].
      split; [cbn; lia|]. apply effect_perm.
      * eexists. split; [apply lookup_insert_eq|].
        cbn [head tail size nodes]. split; [done|].
        rewrite length_rev. split; [|done].
        rewrite (chain_ptr _ _ _ Hc). cbn [rev hd_error].
        by rewrite last_snoc.
      * symmetry. apply Permutation_rev.
      * intros qb Hqb. cbn [queues]. by apply lookup_insert_ne.
      * done.
  - (* Sort *)
    destruct (q_sort_run (val (nodes m)) m qa l fuel Hrepr)
      as (h' & Hrun & Hc' & _ & Hfr); [done | done |].
    rewrite Hrun. eexists _, _, (msortL (vle (val (nodes m))) fuel l).
    split; [done|]. split; [cbn; lia|]. apply effect_perm.
    + eexists. split; [apply lookup_insert_eq|].
      cbn [head tail size nodes]. split; [done|]. split; [done|].
      by rewrite msortL_perm.
    + apply msortL_perm.
    + intros qb Hqb. cbn [queues]. by apply lookup_insert_ne.
    + done.
Qed.

Lemma run_ops_effect fuel os : forall m qa l,
  repr m qa l -> Forall op_ok os ->
  (length l + length os <= fuel)%nat ->
  exists net m' l',
    run_ops fuel os (Some qa) m = Ok (net, m') /\
    (length l' <= length l + length os)%nat /\
    op_effect m qa l net m' l'.
Proof.
  induction os as [|o os IH]; intros m qa l Hrepr Hok Hlen.
  - exists 0, m, l. split; [done|]. split; [lia | by apply effect_refl].
  - apply Forall_cons in Hok as [Ho Hos].
    destruct (run_op_count_effect fuel o m qa l Hrepr Ho)
      as (d & m1 & l1 & Hrun1 & Hd & Heff1); [cbn [length] in Hlen; lia|].
    pose proof Heff1 as (Hrepr1 & Hl1 & _).
    destruct (IH m1 qa l1 Hrepr1 Hos) as (ds & m2 & l2 & Hrun2 & Hb2 & Heff2).
    { cbn [length] in Hlen. lia. }
    exists (d + ds), m2, l2. split; [|split; [|by eapply effect_trans]].
    + cbn [run_ops]. unfold bind. rewrite Hrun1, Hrun2. done.
    + cbn [length]. lia.
Qed.

(** A call that returns has the effect above whether or not its copy-out
    was asked for inside the buffer: a copy-out outside it is a fault. *)
Lemma run_op_count_effect_ok fuel o m qa l d m' :
  repr m qa l -> (length l <= fuel)%nat ->
  run_op_count fuel o (Some qa) m = Ok (d, m') ->
  d <= 1 /\ exists l', op_effect m qa l d m' l'.
Proof.
  intros Hrepr Hlen Hrun. destruct (op_ok_dec o) as [Hok | Hno].
  - destruct (run_op_count_effect fuel o m qa l Hrepr Hok Hlen)
      as (d' & m'' & l' & Hrun' & Hd & Heff).
    rewrite Hrun in Hrun'. injection Hrun' as <- <-.
    split; [done | by exists l'].
  - destruct o as [| | [buf|] bufsize | |]; try (by destruct Hno).
    cbn [run_op_count] in Hrun. unfold bind in Hrun.
    pose proof Hrepr as (qs & Hq & Hc & _).
    destruct l as [|a l].
    + rewrite (q_remove_head_empty m qa qs _ _ Hq) in Hrun
        by (by apply chain_ptr in Hc).
      injection Hrun as <- <-. split; [cbn; lia|].
      exists []. by apply effect_refl.
    + pose proof Hc as [Hh (e & He & _)].
      rewrite (q_remove_head_run m qa qs a e _ _ Hq Hh He) in Hrun.
      unfold copy_out in Hrun. cbn [op_ok buffer_ok] in Hno.
      destruct (Z.ltb_spec (size_sub bufsize 1) (Z.of_nat (length buf)));
        done.
Qed.

Lemma run_ops_effect_ok fuel os : forall m qa l net m',
  repr m qa l ->
  (length l + length os <= fuel)%nat ->
  run_ops fuel os (Some qa) m = Ok (net, m') ->
  exists l',
    (length l' <= length l + length os)%nat /\
    op_effect m qa l net m' l'.
Proof.
  induction os as [|o os IH]; intros m qa l net m' Hrepr Hlen Hrun.
  - injection Hrun as <- <-. exists l. split; [lia | by apply effect_refl].
  - cbn [run_ops] in Hrun. unfold bind in Hrun. cbn [length] in Hlen.
    destruct (run_op_count fuel o (Some qa) m) as [[d m1]| |] eqn:H1;
      try discriminate.
    destruct (run_ops fuel os (Some qa) m1) as [[ds m2]| |] eqn:H2;
      try discriminate.
    injection Hrun as <- <-.
    destruct (run_op_count_effect_ok fuel o m qa l d m1 Hrepr) as
      (Hd & l1 & Heff1); [lia | done |].
    pose proof Heff1 as (Hrepr1 & Hl1 & _).
    destruct (IH m1 qa l1 ds m2 Hrepr1) as (l2 & Hb2 & Heff2); [lia | done |].
    exists l2. split; [cbn [length]; lia | by eapply effect_trans].
Qed.

Lemma run_ops_returns fuel os m qa l :
  repr m qa l -> (length l + length os <= fuel)%nat ->
  Forall op_ok os ->
  exists net m', run_ops fuel os (Some qa) m = Ok (net, m').
Proof.
  intros Hrepr Hlen Hok.
  destruct (run_ops_effect fuel os m qa l Hrepr Hok Hlen)
    as (net & m' & _ & Hrun & _).
  by exists net, m'.
Qed.

(** X8: the size reported by [q_size] follows the results of the calls.
    From a queue that satisfies the invariants, with fuel for the nodes:
    whenever a sequence of calls returns (a copy-out outside the caller's
    buffer is a fault and does not return), the invariants hold again and
    [q_size] afterwards reports, as an [int], the number of nodes before
    plus the number of insertions that returned [true] minus the number of
    removals that returned [true]; as long as the number of nodes before
    plus the number of calls is at most [INT_MAX], that is the size
    reported before plus that net count.  The sequence does return when
    every copy-out lies inside its buffer. *)
Theorem size_tracks_calls fuel os m qa l :
  queue_inv m qa -> traversal m qa l ->
  (length l + length os <= fuel)%nat ->
  (forall net m',
     run_ops fuel os (Some qa) m = Ok (net, m') ->
     queue_inv m' qa /\
     q_size (Some qa) m' = Ok (to_int (Z.of_nat (length l) + net), m') /\
     (Z.of_nat (length l + length os) <= INT_MAX ->
      exists n0,
        q_size (Some qa) m = Ok (n0, m) /\
        q_size (Some qa) m' = Ok (n0 + net, m'))) /\
  (Forall op_ok os ->
   exists net m', run_ops fuel os (Some qa) m = Ok (net, m')).
Proof.
  intros Hinv Htr Hlen.
  pose proof (wf_repr _ _ _ Hinv Htr) as Hrepr.
  split; [|by apply (run_ops_returns fuel os m qa l)].
  intros net m' Hrun.
  destruct (run_ops_effect_ok fuel os m qa l net m' Hrepr Hlen Hrun)
    as (l' & Hb & Hrepr' & Hl' & _).
  destruct Hrepr as (qs & Hq & _ & _ & Hs).
  pose proof Hrepr' as (qs' & Hq' & _ & _ & Hs').
  split; [by eapply repr_wf|].
  rewrite (q_size_run m' qa qs' Hq'), (q_size_run m qa qs Hq), Hs', Hl', Hs.
  split; [done|]. intros Hmax. exists (Z.of_nat (length l)).
  rewrite !to_int_small; [done | |]; unfold INT_MAX in *; lia.
Qed.

Lemma size_tracks_calls_witness :
  exists net m',
    run_ops 6 [InsertTail (Some (str "c")); RemoveHead (Some (str "xxxx")) 3;
               Sort; InsertHead (Some [])]
      (Some 1%positive) mem_ba = Ok (net, m') /\
    q_size (Some 1%positive) m' = Ok (2 + net, m').
Proof.
  destruct (size_tracks_calls 6
              [InsertTail (Some (str "c")); RemoveHead (Some (str "xxxx")) 3;
               Sort; InsertHead (Some [])]
              mem_ba 1%positive [2; 3]%positive)
    as (Hsize & Hret).
  - eapply repr_wf, repr_mem_ba.
  - eapply repr_traversal, repr_mem_ba.
  - simpl. lia.
  - destruct Hret as (net & m' & Hrun).
    + repeat constructor.
    + exists net, m'. split; [exact Hrun|].
      destruct (Hsize net m' Hrun) as (_ & _ & Hexact).
      destruct Hexact as (n0 & H0 & H1).
      * vm_compute. discriminate.
      * assert (Hn : n0 = 2) by (vm_compute in H0; congruence).
        rewrite <- Hn. exact H1.
Defined.

(** X9: calls on one queue leave every other queue alone.  If the queue at
    [qb] is another queue whose nodes are not nodes of the queue at [qa],
    then, with fuel for the nodes, whenever a sequence of calls on [qa]
    returns, the structure at [qb], its traversal, its nodes and its
    payloads are exactly as before, and it still satisfies the invariants.
    A copy-out outside the caller's buffer is a fault, which does not
    return and about which nothing is said; the sequence does return when
    every copy-out lies inside its buffer. *)
Theorem other_queue_untouched fuel os m qa l qb lb :
  queue_inv m qa -> traversal m qa l ->
  qb <> qa ->
  queue_inv m qb -> traversal m qb lb ->
  (forall a, a ∈ l -> a ∉ lb) ->
  (length l + length os <= fuel)%nat ->
  (forall net m',
     run_ops fuel os (Some qa) m = Ok (net, m') ->
     queues m' !! qb = queues m !! qb /\
     (forall a, a ∈ lb -> nodes m' !! a = nodes m !! a) /\
     traversal m' qb lb /\
     payloads m' lb = payloads m lb /\
     queue_inv m' qb) /\
  (Forall op_ok os ->
   exists net m', run_ops fuel os (Some qa) m = Ok (net, m')).
Proof.
  intros Hinv Htr Hne Hinvb Htrb Hdisj Hlen.
  pose proof (wf_repr _ _ _ Hinv Htr) as Hrepr.
  split; [|by apply (run_ops_returns fuel os m qa l)].
  intros net m' Hrun.
  pose proof (wf_repr _ _ _ Hinvb Htrb) as (qsb & Hqb & Hcb & Htb & Hsb).
  destruct (run_ops_effect_ok fuel os m qa l net m' Hrepr Hlen Hrun)
    as (l' & _ & _ & _ & Hq & Hf & Hn & _).
  assert (Hsame : forall a, a ∈ lb -> nodes m' !! a = nodes m !! a).
  { intros a Ha. apply Hf.
    - intros Hin. by apply (Hdisj a).
    - intros Hin. destruct (chain_alloc _ _ _ _ Hcb Ha) as [e He].
      rewrite (Hn a Hin) in He; [done|]. intros Hl. by apply (Hdisj a). }
  assert (Hreprb : repr m' qb lb).
  { exists qsb. split; [by rewrite Hq|]. split; [|done].
    by apply (chain_frame (nodes m)). }
  split; [by apply Hq|]. split; [done|].
  split; [by apply repr_traversal|]. split; [|by eapply repr_wf].
  unfold payloads. apply map_val_frame. intros a Ha.
  unfold val. by rewrite Hsame.
Qed.

Lemma repr_mem_two_1 : repr mem_two 1 [2; 3]%positive.
Proof.
  eexists. split; [reflexivity|]. cbn [head tail size].
  split; [|split; reflexivity].
  split; [reflexivity|]. eexists. split; [reflexivity|]. cbn [next].
  split; [reflexivity|]. eexists. split; [reflexivity|]. reflexivity.
Qed.

Lemma repr_mem_two_4 : repr mem_two 4 [5]%positive.
Proof.
  eexists. split; [reflexivity|]. cbn [head tail size].
  split; [|split; reflexivity].
  split; [reflexivity|]. eexists. split; [reflexivity|]. reflexivity.
Qed.

Lemma other_queue_untouched_witness :
  exists net m',
    run_ops 6 [Sort; InsertHead (Some (str "c"));
               RemoveHead (Some (str "xxxx")) 2; Reverse]
      (Some 1%positive) mem_two = Ok (net, m') /\
    payloads m' [5%positive] = [str "z"].
Proof.
  destruct (other_queue_untouched 6
              [Sort; InsertHead (Some (str "c"));
               RemoveHead (Some (str "xxxx")) 2; Reverse]
              mem_two 1%positive [2; 3]%positive 4%positive [5%positive])
    as (Hsame & Hret).
  - eapply repr_wf, repr_mem_two_1.
  - eapply repr_traversal, repr_mem_two_1.
  - done.
  - eapply repr_wf, repr_mem_two_4.
  - eapply repr_traversal, repr_mem_two_4.
  - intros a Ha Hb. apply list_elem_of_singleton in Hb. subst a.
    apply elem_of_cons in Ha as [?|Ha]; [done|].
    apply list_elem_of_singleton in Ha. done.
  - simpl. lia.
  - destruct Hret as (net & m' & Hrun).
    + repeat constructor.
    + exists net, m'. split; [exact Hrun|].
      destruct (Hsame net m' Hrun) as (_ & _ & _ & Hp & _).
      rewrite Hp. reflexivity.
Defined.

(** X10: no node record and no queue structure is leaked.  After a
    successful [q_new], with fuel for the calls: whenever a sequence of
    calls on the new queue returns (a copy-out outside the caller's buffer
    is a fault and does not return), [q_free] of the queue returns and
    leaves every queue structure and every node record of the memory
    before the [q_new] exactly as it was, and no other queue structure or
    node record allocated.  The sequence does return when every copy-out
    lies inside its buffer.  (A node's string is kept in the node record:
    the block that [malloc] gives for it is not followed on its own.) *)
Theorem new_use_free_restores fuel os m o :
  oracle m = true :: o ->
  (length os <= fuel)%nat ->
  exists qa m1,
    q_new m = Ok (Some qa, m1) /\
    (forall net m2,
       run_ops fuel os (Some qa) m1 = Ok (net, m2) ->
       exists m3,
         q_free fuel (Some qa) m2 = Ok (tt, m3) /\
         queues m3 = queues m /\
         nodes m3 = nodes m) /\
    (Forall op_ok os ->
     exists net m2, run_ops fuel os (Some qa) m1 = Ok (net, m2)).
Proof.
  intros Ho Hlen.
  set (qa := fresh (dom (queues m))).
  set (m1 := mk_mem (<[qa := mk_queue None None 0]> (queues m)) (nodes m) o).
  assert (Hnew : q_new m = Ok (Some qa, m1)) by (by apply q_new_ok).
  assert (Hrepr1 : repr m1 qa []) by apply repr_empty_queue.
  exists qa, m1. split; [done|].
  split; [|by apply (run_ops_returns fuel os m1 qa [])].
  intros net m2 Hrun.
  destruct (run_ops_effect_ok fuel os m1 qa [] net m2 Hrepr1)
    as (l2 & Hb & Hrepr2 & Hl2 & Hq & Hf & Hn & _); [simpl; lia | done |].
  pose proof Hrepr2 as (qs2 & Hq2 & Hc2 & _).
  destruct (q_free_run fuel m2 qa qs2 l2 Hq2 Hc2) as (h3 & Hfree & Hlook);
    [cbn [length] in Hb; lia|].
  eexists. split; [exact Hfree|]. cbn [queues nodes]. split.
  - apply map_eq. intros qb. destruct (decide (qb = qa)) as [->|Hne].
    + rewrite lookup_delete_eq. symmetry. apply fresh_queue.
    + rewrite lookup_delete_ne by done. rewrite Hq by done.
      unfold m1. cbn [queues]. by rewrite lookup_insert_ne.
  - apply map_eq. intros a. rewrite Hlook.
    destruct (decide (a ∈ l2)) as [Hin|Hout].
    + symmetry. apply (Hn a Hin). intros Hnil. by apply elem_of_nil in Hnil.
    + apply Hf; [|done]. intros Hnil. by apply elem_of_nil in Hnil.
Qed.

Lemma new_use_free_restores_witness :
  exists qa m1 m2 m3,
    q_new mem_fresh = Ok (Some qa, m1) /\
    run_ops 2 [InsertHead (Some (str "c")); Reverse] (Some qa) m1
      = Ok (1, m2) /\
    q_free 2 (Some qa) m2 = Ok (tt, m3) /\
    queues m3 = queues mem_fresh /\
    nodes m3 = nodes mem_fresh.
Proof.
  destruct (new_use_free_restores 2 [InsertHead (Some (str "c")); Reverse]
              mem_fresh [true; true])
    as (qa & m1 & Hnew & Hfree & Hret).
  - reflexivity.
  - simpl. lia.
  - destruct Hret as (net & m2 & Hrun); [repeat constructor|].
    destruct (Hfree net m2 Hrun) as (m3 & H3 & Hq & Hn).
    exists qa, m1, m2, m3. split; [exact Hnew|].
    split; [|split; [exact H3 | split; [exact Hq | exact Hn]]].
    assert (Hnet : net = 1).
    { vm_compute in Hnew. injection Hnew as <- <-.
      vm_compute in Hrun. congruence. }
    rewrite <- Hnet. exact Hrun.
Defined.

(** ** Sorting in place, and how it composes with reversal *)

(** X11: [q_sort] only relinks.  It allocates and frees nothing (the set
    of allocated nodes and the pending [malloc] outcomes are unchanged),
    leaves the size field, every payload, every node outside the queue and
    every other queue structure as they were. *)
Theorem q_sort_in_place fuel m qa l :
  queue_inv m qa -> traversal m qa l -> (length l <= fuel)%nat ->
  exists m' qs qs',
    q_sort fuel (Some qa) m = Ok (tt, m') /\
    queues m !! qa = Some qs /\ queues m' !! qa = Some qs' /\
    size qs' = size qs /\
    (forall qb, qb <> qa -> queues m' !! qb = queues m !! qb) /\
    dom (nodes m') = dom (nodes m) /\
    same_values (nodes m) (nodes m') /\
    (forall a, a ∉ l -> nodes m' !! a = nodes m !! a) /\
    oracle m' = oracle m.
Proof.
  intros Hinv Htr Hlen.
  pose proof (wf_repr _ _ _ Hinv Htr) as Hrepr.
  destruct (q_sort_run (val (nodes m)) m qa l fuel Hrepr)
    as (h' & Hrun & _ & Hs' & Hf'); [done | done |].
  destruct Hrepr as (qs & Hq & _ & _ & Hs).
  eexists _, qs, _. split; [exact Hrun|]. split; [done|].
  cbn [queues nodes oracle]. split; [apply lookup_insert_eq|].
  cbn [size]. split; [done|]. split; [|split; [|done]].
  - intros qb Hqb. by apply lookup_insert_ne.
  - by apply same_values_dom.
Qed.

Lemma q_sort_in_place_witness :
  exists m', q_sort 2 (Some 1%positive) mem_ba = Ok (tt, m') /\
             dom (nodes m') = dom (nodes mem_ba).
Proof.
  destruct (q_sort_in_place 2 mem_ba 1%positive [2; 3]%positive)
    as (m' & qs & qs' & Hrun & _ & _ & _ & _ & Hdom & _).
  - eapply repr_wf, repr_mem_ba.
  - eapply repr_traversal, repr_mem_ba.
  - simpl. lia.
  - exists m'. split; [exact Hrun | exact Hdom].
Defined.

Lemma StronglySorted_rev {A} (R : A -> A -> Prop) (l : list A) :
  StronglySorted R l -> StronglySorted (fun x y => R y x) (rev l).
Proof.
  induction l as [|a l IH]; intros Hs; [constructor|].
  apply StronglySorted_cons in Hs as [Ha Hs]. cbn [rev].
  apply StronglySorted_app. split; [|split; [by apply IH | repeat constructor]].
  intros x y Hx Hy. apply list_elem_of_singleton in Hy. subst y.
  rewrite Forall_forall in Ha. apply Ha. by apply elem_of_rev.
Qed.

Lemma q_reverse_values fuel m qa l :
  repr m qa l -> (length l <= fuel)%nat ->
  exists m',
    q_reverse fuel (Some qa) m = Ok (tt, m') /\
    repr m' qa (rev l) /\
    same_values (nodes m) (nodes m').
Proof.
  intros (qs & Hq & Hc & Ht & Hs) Hlen.
  destruct l as [|a l'].
  { exists m. split; [|split; [by exists qs | apply same_values_refl]].
    eapply q_reverse_empty; [done|]. by apply chain_ptr in Hc. }
  destruct (q_reverse_run m qa qs (a :: l') fuel) as (h' & Hrun & Hc' & Hsv & _);
    try done.
  eexists. split; [exact Hrun|]. split; [|done].
  eexists. split; [apply lookup_insert_eq|]. cbn [head tail size nodes].
  split; [done|]. rewrite length_rev. split; [|done].
  rewrite (chain_ptr _ _ _ Hc). cbn [rev hd_error]. by rewrite last_snoc.
Qed.

(** X12: [q_sort] followed by [q_reverse] leaves the queue in
    non-increasing order: both return, the traversal visits the same
    nodes, and each payload is not smaller under [strcasecmp] than every
    payload after it. *)
Theorem sort_then_reverse_descending fuel m qa l :
  queue_inv m qa -> traversal m qa l -> (length l <= fuel)%nat ->
  exists m1 m2 l2,
    q_sort fuel (Some qa) m = Ok (tt, m1) /\
    q_reverse fuel (Some qa) m1 = Ok (tt, m2) /\
    traversal m2 qa l2 /\
    l2 ≡ₚ l /\
    StronglySorted (fun s t => ci_le t s) (payloads m2 l2) /\
    payloads m2 l2 ≡ₚ payloads m l.
Proof.
  intros Hinv Htr Hlen.
  destruct (q_sort_result fuel m qa l Hinv Htr Hlen)
    as (m1 & Hrun1 & Hrepr1 & Hs1 & _).
  set (L := msortL (vle (val (nodes m))) fuel l) in *.
  assert (HL : L ≡ₚ l) by apply msortL_perm.
  destruct (q_reverse_values fuel m1 qa L Hrepr1) as (m2 & Hrun2 & Hrepr2 & Hs2).
  { by rewrite HL. }
  exists m1, m2, (rev L). split; [done|]. split; [done|].
  split; [by apply repr_traversal|].
  split; [by rewrite <- Permutation_rev|].
  assert (Hp : payloads m2 (rev L) = rev (payloads m L)).
  { rewrite (payloads_same m1 m2), (payloads_same m m1) by done.
    unfold payloads. by rewrite map_rev. }
  rewrite Hp. split.
  - apply StronglySorted_rev. unfold payloads.
    apply (proj1 (sorted_payloads _ _)).
    apply msortL_sorted; [apply vle_total | apply vle_trans | done].
  - rewrite <- Permutation_rev. unfold payloads. by apply Permutation_map.
Qed.

Lemma sort_then_reverse_descending_witness :
  exists m1 m2 l2,
    q_sort 2 (Some 1%positive) mem_ba = Ok (tt, m1) /\
    q_reverse 2 (Some 1%positive) m1 = Ok (tt, m2) /\
    traversal m2 1 l2.
Proof.
  destruct (sort_then_reverse_descending 2 mem_ba 1%positive [2; 3]%positive)
    as (m1 & m2 & l2 & H1 & H2 & H3 & _).
  - eapply repr_wf, repr_mem_ba.
  - eapply repr_traversal, repr_mem_ba.
  - simpl. lia.
  - exists m1, m2, l2. split; [exact H1|]. split; [exact H2 | exact H3].
Defined.

(** X13: [q_reverse] on a queue with exactly one node leaves the memory as
    it is. *)
Theorem q_reverse_single fuel m qa a :
  queue_inv m qa -> traversal m qa [a] -> (1 <= fuel)%nat ->
  q_reverse fuel (Some qa) m = Ok (tt, m).
Proof.
  intros Hinv Htr Hfuel.
  pose proof (wf_repr _ _ _ Hinv Htr) as (qs & Hq & Hc & Ht & Hs).
  destruct (q_reverse_run m qa qs [a] fuel) as (h' & Hrun & Hc' & Hsv & Hfr);
    try done.
  rewrite Hrun. do 2 f_equal.
  pose proof (chain_ptr _ _ _ Hc) as Hhd. cbn [hd_error] in Hhd.
  assert (Hh : h' = nodes m).
  { apply (heap_eq (nodes m) h' [a] (Some a)).
    - by rewrite <- Hhd.
    - exact Hc'.
    - exact Hsv.
    - exact Hfr. }
  rewrite Hh. cbn [rev app hd_error].
  replace (mk_queue (Some a) (head qs) (size qs)) with qs.
  - rewrite insert_id by done. by destruct m.
  - destruct qs as [hq tq sq]. cbn [head tail size last] in *. congruence.
Qed.

Lemma q_reverse_single_witness :
  q_reverse 1 (Some 4%positive) mem_two = Ok (tt, mem_two).
Proof.
  apply (q_reverse_single 1 mem_two 4%positive 5%positive).
  - eapply repr_wf, repr_mem_two_4.
  - eapply repr_traversal, repr_mem_two_4.
  - lia.
Defined.

(** ** [merge] and [q_allocate_node] on their own *)

(** X14: [merge].  With one list [NULL] it returns the other and touches
    nothing.  On two chains without a common node whose payloads are each
    in non-decreasing order it returns (given fuel for the nodes) the head
    of a chain over the same nodes whose payloads are in non-decreasing
    order; every node keeps its payload, nodes outside the two chains and
    all queue structures are as they were, and nothing is allocated. *)
Theorem merge_sorted_chains fuel m left right :
  (left = None -> merge fuel left right m = Ok (right, m)) /\
  (right = None -> merge fuel left right m = Ok (left, m)) /\
  forall ll lr,
    chain (nodes m) left ll -> chain (nodes m) right lr ->
    (forall a, a ∈ ll -> a ∉ lr) ->
    StronglySorted ci_le (payloads m ll) ->
    StronglySorted ci_le (payloads m lr) ->
    (length ll + length lr <= S fuel)%nat ->
    exists p m' l',
      merge fuel left right m = Ok (p, m') /\
      chain (nodes m') p l' /\
      l' ≡ₚ ll ++ lr /\
      StronglySorted ci_le (payloads m' l') /\
      same_values (nodes m) (nodes m') /\
      (forall a, a ∉ ll -> a ∉ lr -> nodes m' !! a = nodes m !! a) /\
      queues m' = queues m /\
      oracle m' = oracle m.
Proof.
  split; [by intros ->|]. split; [intros ->; by destruct left|].
  intros ll lr Hl Hr Hd Hsl Hsr Hlen.
  destruct (merge_spec (val (nodes m)) fuel ll lr left right m)
    as (h' & Hrun & Hc' & Hs' & Hf'); try done.
  eexists _, _, _. split; [exact Hrun|]. cbn [nodes queues oracle with_nodes].
  split; [exact Hc'|]. split; [apply mergeL_perm|].
  split; [|done].
  rewrite (payloads_same m (with_nodes m h')) by done.
  unfold payloads. apply (proj1 (sorted_payloads _ _)).
  apply mergeL_sorted; [apply vle_total | apply vle_trans | |];
    by apply sorted_payloads.
Qed.

Lemma merge_sorted_chains_witness :
  exists p m' l',
    merge 1 (Some 3%positive) (Some 5%positive) mem_two = Ok (p, m') /\
    chain (nodes m') p l' /\
    StronglySorted ci_le (payloads m' l').
Proof.
  destruct (merge_sorted_chains 1 mem_two (Some 3%positive) (Some 5%positive))
    as (_ & _ & H).
  destruct (H [3%positive] [5%positive])
    as (p & m' & l' & Hrun & Hc & _ & Hs & _).
  - split; [reflexivity|]. eexists. split; [reflexivity|]. reflexivity.
  - split; [reflexivity|]. eexists. split; [reflexivity|]. reflexivity.
  - intros a Ha Hb. apply list_elem_of_singleton in Hb. subst a.
    apply list_elem_of_singleton in Ha. done.
  - repeat constructor.
  - repeat constructor.
  - simpl. lia.
  - exists p, m', l'. split; [exact Hrun|]. split; [exact Hc | exact Hs].
Defined.

(** X15: [q_allocate_node].  For an absent or empty string it returns
    [NULL] without calling [malloc]: the memory is unchanged.  When one of
    its two [malloc] calls fails it returns [NULL] and no node is left
    allocated (a node obtained by the first call is freed again).  When
    both succeed it returns a node that was not allocated before, holding
    the string and a [NULL] link; every other node and every queue
    structure is as it was. *)
Theorem q_allocate_node_result m s :
  (absent_or_empty s -> q_allocate_node s m = Ok (None, m)) /\
  (allocation_fails m ->
   exists m',
     q_allocate_node s m = Ok (None, m') /\
     queues m' = queues m /\ nodes m' = nodes m) /\
  (forall str o,
     s = Some str -> 0 < strlen str -> oracle m = true :: true :: o ->
     exists n m',
       q_allocate_node s m = Ok (Some n, m') /\
       nodes m !! n = None /\
       nodes m' = <[n := mk_ele (cstring str) None]> (nodes m) /\
       queues m' = queues m /\
       oracle m' = o).
Proof.
  split; [|split].
  - intros Hs. destruct s as [str|]; [|done].
    unfold absent_or_empty in Hs. unfold q_allocate_node.
    destruct (Z.eqb_spec (strlen str + 1) 1); [done | lia].
  - intros Hf. destruct (q_allocate_node_fail m s (or_intror Hf)) as (o & Hrun).
    by exists (with_oracle m o).
  - intros str o -> Hlen Ho. eexists _, _.
    split; [by apply q_allocate_node_ok|].
    split; [apply fresh_node | done].
Qed.

Lemma q_allocate_node_result_witness :
  exists n m',
    q_allocate_node (Some (str "c")) mem_ba = Ok (Some n, m') /\
    nodes mem_ba !! n = None.
Proof.
  destruct (q_allocate_node_result mem_ba (Some (str "c"))) as (_ & _ & H).
  destruct (H (str "c") []) as (n & m' & Hrun & Hfresh & _).
  - reflexivity.
  - reflexivity.
  - reflexivity.
  - exists n, m'. split; [exact Hrun | exact Hfresh].
Defined.

(** ** First in, first out *)

Lemma cstring_app_NUL v r : cstring (cstring v ++ NUL :: r) = cstring v.
Proof.
  induction v as [|c v IH]; [done|]. cbn [cstring].
  destruct (is_NUL c) eqn:E; [done|]. cbn [app cstring]. by rewrite E, IH.
Qed.

Lemma copy_out_short buf v cap :
  1 <= cap -> cap <= Z.of_nat (length buf) -> cap < SIZE_MOD ->
  strlen v < cap ->
  exists out, copy_out buf v cap = Some out /\ cstring out = cstring v.
Proof.
  intros H1 H2 H3 Hv. unfold copy_out. rewrite size_sub_1 by done.
  destruct (Z.ltb_spec (cap - 1) (Z.of_nat (length buf))); [|lia].
  eexists. split; [done|]. unfold strncpy_bytes, strlen in *.
  rewrite take_ge by lia.
  rewrite <- app_assoc, replicate_shift. apply cstring_app_NUL.
Qed.

Lemma q_insert_tail_step m qa l s o :
  repr m qa l -> 0 < strlen s -> oracle m = true :: true :: o ->
  exists m' n,
    q_insert_tail (Some qa) (Some s) m = Ok (true, m') /\
    payloads m' (l ++ [n]) = payloads m l ++ [cstring s] /\
    oracle m' = o /\
    op_effect m qa l 1 m' (l ++ [n]).
Proof.
  intros Hrepr Hlen Ho.
  pose proof Hrepr as (qs & Hq & Hc & Ht & Hs).
  pose proof (fresh_node m) as Hfresh.
  pose proof (effect_insert_tail m qa qs l s o Hq Hrepr) as Heff.
  assert (Htail : forall t, tail qs = Some t -> is_Some (nodes m !! t)).
  { intros t Et. rewrite Ht in Et.
    destruct (chain_last_next _ _ _ _ Hc Et) as (e & He & _). by exists e. }
  eexists _, _. split; [by apply q_insert_tail_ok|].
  split; [|split; [done | exact Heff]].
  rewrite payloads_app. unfold payloads. cbn [map nodes]. f_equal.
  - apply map_val_frame. intros a Ha.
    destruct (chain_alloc _ _ _ _ Hc Ha) as [e He].
    assert (Han : fresh (dom (nodes m)) <> a) by congruence.
    unfold val. destruct (tail qs) as [t|] eqn:Et.
    + destruct (decide (t = a)) as [->|Hta].
      * rewrite lookup_insert_eq. cbn [value]. unfold val. by rewrite He.
      * by rewrite !lookup_insert_ne.
    + by rewrite lookup_insert_ne.
  - f_equal. unfold val. destruct (tail qs) as [t|] eqn:Et.
    + destruct (Htail t eq_refl) as [et Het].
      rewrite lookup_insert_ne by congruence. by rewrite lookup_insert_eq.
    + by rewrite lookup_insert_eq.
Qed.

Lemma insert_tails_spec qa ss : forall m l o,
  repr m qa l ->
  Forall (fun s => 0 < strlen s) ss ->
  oracle m = replicate (2 * length ss) true ++ o ->
  exists m' l',
    insert_tails ss (Some qa) m = Ok (true, m') /\
    length l' = length ss /\
    payloads m' (l ++ l') = payloads m l ++ map cstring ss /\
    oracle m' = o /\
    op_effect m qa l (Z.of_nat (length ss)) m' (l ++ l').
Proof.
  induction ss as [|s ss IH]; intros m l o Hrepr Hss Ho.
  - exists m, []. rewrite !app_nil_r. split; [done|]. split; [done|].
    split; [done|]. split; [done | by apply effect_refl].
  - apply Forall_cons in Hss as [Hs Hss].
    replace (2 * length (s :: ss))%nat with (S (S (2 * length ss)))%nat in Ho
      by (cbn [length]; lia).
    cbn [replicate app] in Ho.
    destruct (q_insert_tail_step m qa l s _ Hrepr Hs Ho)
      as (m1 & n & Hrun1 & Hp1 & Ho1 & Heff1).
    destruct (IH m1 (l ++ [n]) o (proj1 Heff1) Hss Ho1)
      as (m2 & l2 & Hrun2 & Hl2 & Hp2 & Ho2 & Heff2).
    exists m2, (n :: l2). cbn [insert_tails]. unfold bind. rewrite Hrun1.
    replace (l ++ n :: l2) with ((l ++ [n]) ++ l2) by by rewrite <- app_assoc.
    split; [exact Hrun2|]. split; [cbn [length]; lia|].
    split; [by rewrite Hp2, Hp1, <- app_assoc|]. split; [done|].
    replace (Z.of_nat (length (s :: ss))) with (1 + Z.of_nat (length ss))
      by (cbn [length]; lia).
    by eapply effect_trans.
Qed.

Lemma remove_heads_spec qa buf cap l : forall m,
  repr m qa l ->
  1 <= cap -> cap <= Z.of_nat (length buf) -> cap < SIZE_MOD ->
  Forall (fun v => strlen v < cap) (payloads m l) ->
  exists m',
    remove_heads (length l) (Some qa) buf cap m
      = Ok (map cstring (payloads m l), m') /\
    oracle m' = oracle m /\
    op_effect m qa l (- Z.of_nat (length l)) m' [].
Proof.
  induction l as [|a l IH]; intros m Hrepr H1 H2 H3 Hv.
  - exists m. split; [done|]. split; [done | by apply effect_refl].
  - pose proof Hrepr as (qs & Hq & Hc & Ht & Hs).
    pose proof (chain_NoDup _ _ _ Hc) as Hnd.
    apply NoDup_cons in Hnd as [Ha _].
    pose proof Hc as [Hh (e & He & _)].
    pose proof (effect_removed m qa qs a e l Hq He Hrepr) as Heff1.
    assert (Hp : payloads (removed m qa qs a e) l = payloads m l).
    { unfold payloads, removed. cbn [nodes]. apply map_val_frame.
      intros b Hb. unfold val. rewrite lookup_delete_ne; [done|].
      by intros <-. }
    unfold payloads in Hv. cbn [map] in Hv. apply Forall_cons in Hv as [Hva Hvl].
    rewrite (val_lookup _ _ _ He) in Hva.
    destruct (copy_out_short buf (value e) cap H1 H2 H3 Hva)
      as (out & Hout & Hcs).
    destruct (IH (removed m qa qs a e) (proj1 Heff1) H1 H2 H3)
      as (m2 & Hrun2 & Ho2 & Heff2); [by rewrite Hp|].
    exists m2. cbn [length remove_heads]. unfold bind.
    rewrite (q_remove_head_run m qa qs a e (Some buf) cap Hq Hh He), Hout.
    rewrite Hrun2. unfold ret.
    split; [|split; [done|]].
    + rewrite Hp, Hcs. unfold payloads. cbn [map].
      by rewrite (val_lookup _ _ _ He).
    + replace (- Z.of_nat (S (length l))) with (-1 + - Z.of_nat (length l))
        by lia.
      by eapply effect_trans.
Qed.

(** X16: first in, first out.  On a queue that holds the nodes [l], with
    every string to insert non-empty, every allocation succeeding, and a
    buffer whose capacity exceeds the length of every string involved:
    [q_insert_tail] of the strings [ss] in turn, followed by as many
    [q_remove_head] calls as the queue then holds elements, hands out
    first the strings the queue held, in queue order, and then the
    inserted strings in insertion order.  The queue is empty afterwards,
    the nodes it held are freed, and nothing else is allocated. *)
Theorem tail_inserts_first_in_first_out m qa l ss buf cap o :
  queue_inv m qa -> traversal m qa l ->
  Forall (fun s => 0 < strlen s) ss ->
  oracle m = replicate (2 * length ss) true ++ o ->
  1 <= cap -> cap <= Z.of_nat (length buf) -> cap < SIZE_MOD ->
  Forall (fun v => strlen v < cap) (payloads m l ++ ss) ->
  exists m1 m2,
    insert_tails ss (Some qa) m = Ok (true, m1) /\
    remove_heads (length l + length ss) (Some qa) buf cap m1
      = Ok (map cstring (payloads m l ++ ss), m2) /\
    queue_inv m2 qa /\
    traversal m2 qa [] /\
    (forall a, a ∉ l -> nodes m2 !! a = nodes m !! a) /\
    (forall a, a ∈ l -> nodes m2 !! a = None) /\
    oracle m2 = o.
Proof.
  intros Hinv Htr Hss Ho H1 H2 H3 Hv.
  pose proof (wf_repr _ _ _ Hinv Htr) as Hrepr.
  destruct (insert_tails_spec qa ss m l o Hrepr Hss Ho)
    as (m1 & l1 & Hrun1 & Hl1 & Hp1 & Ho1 & Heff1).
  apply Forall_app in Hv as [Hvl Hvs].
  destruct (remove_heads_spec qa buf cap (l ++ l1) m1 (proj1 Heff1) H1 H2 H3)
    as (m2 & Hrun2 & Ho2 & Heff2).
  { rewrite Hp1. apply Forall_app. split; [done|].
    apply Forall_map. eapply Forall_impl; [exact Hvs|].
    intros s Hs. cbn beta. unfold strlen in *. by rewrite cstring_idem. }
  pose proof (effect_trans _ _ _ _ _ _ _ _ _ Heff1 Heff2)
    as (Hr & _ & _ & Hf & _ & Hg).
  exists m1, m2. split; [exact Hrun1|].
  split.
  { rewrite length_app, Hl1 in Hrun2. rewrite Hrun2, Hp1. do 2 f_equal.
    rewrite !map_app, map_map. f_equal. apply map_ext.
    intros s. apply cstring_idem. }
  split; [by eapply repr_wf|]. split; [by apply repr_traversal|].
  split; [|split; [|congruence]].
  - intros a Ha. apply Hf; [done | apply not_elem_of_nil].
  - intros a Ha. apply Hg; [done | apply not_elem_of_nil].
Qed.

Lemma tail_inserts_first_in_first_out_witness :
  exists m1 m2,
    insert_tails [str "c"; str "d"] (Some 1%positive)
      (with_oracle mem_ba [true; true; true; true]) = Ok (true, m1) /\
    remove_heads 4 (Some 1%positive) (str "xxxxxx") 4 m1
      = Ok ([str "b"; str "a"; str "c"; str "d"], m2).
Proof.
  destruct (tail_inserts_first_in_first_out
              (with_oracle mem_ba [true; true; true; true]) 1%positive
              [2; 3]%positive [str "c"; str "d"] (str "xxxxxx") 4 [])
    as (m1 & m2 & Hrun1 & Hrun2 & _).
  - eapply repr_wf, repr_mem_ba.
  - eapply repr_traversal, repr_mem_ba.
  - repeat constructor.
  - reflexivity.
  - lia.
  - simpl. lia.
  - reflexivity.
  - repeat constructor.
  - exists m1, m2. split; [exact Hrun1 | exact Hrun2].
Defined.
